(** * LEQ actor updates: imagined rollouts, lambda-returns and the DPG loss

    A shallow embedding of [algos/leq/actor.py] (functions
    [DPG_lambda_update_actor] and [DPG_multistep_update_actor], and after
    them [onestep_update_actor], [update_actor_bc] and [update_alpha])
    together with the properties of the rollout, the return recursions,
    the asymmetric weights and the loss that the specification states.

    Conventions of the embedding.
    - A float is an exact rational ([Qc], canonical fractions, so that
      Leibniz equality is numerical equality).  Rounding and overflow are
      outside the model.  A true division whose divisor is zero yields inf
      or nan in JAX; the model reports it as the outcome [NonFinite] of the
      whole run and says nothing more about such a run.
    - A Python list is a [list]; [l[i]] outside the list raises
      [IndexError]; [l.append(x)] is [l ++ [x]].
    - A one-axis JAX array of floats is a [list Qc]; arrays of two and three
      axes are nested lists, outermost axis first; [jnp.stack] of a Python
      list along axis 0 is the list itself.  The stack's check that its
      entries have one shape is not modelled: what is stated on the
      stacked actions is what the code does when the start action and the
      policy's actions have one length, as in the enclosing functions,
      where [Ra = get_deter(actor(Robs))].
    - The dynamics model, the policy, the critic and the key splitter are
      opaque collaborators (objects of [common.Model]); they are the fields
      of the class [Collaborators].
    - Automatic differentiation ([jax.jacrev]) and the gradient step
      ([apply_gradient]) are not modelled: the loss function takes the
      diagonal of the Jacobian, [grad_gae], as an argument. *)

From Stdlib Require Import List ZArith QArith Qcanon Lia Lqa PeanoNat Bool.
From Stdlib Require Qcabs.
Import ListNotations.

Set Implicit Arguments.

(** ** Outcomes *)

Inductive error : Type :=
| IndexError   (* a Python list or an empty array indexed out of range *)
| ShapeError   (* operands whose shapes do not broadcast *)
| NonFinite.   (* a division by zero: inf or nan *)

Inductive res (A : Type) : Type :=
| Ok (a : A)
| Err (e : error).

Arguments Ok {A} a.
Arguments Err {A} e.

Definition bind {A B : Type} (m : res A) (k : A -> res B) : res B :=
  match m with
  | Ok a => k a
  | Err e => Err e
  end.

Declare Scope res_scope.
Delimit Scope res_scope with res.
Notation "x <- m ;; k" := (bind m (fun x => k))
  (at level 61, m at next level, right associativity) : res_scope.
Notation "' p <- m ;; k" := (bind m (fun x => match x with p => k end))
  (at level 61, p pattern, m at next level, right associativity) : res_scope.
Open Scope res_scope.

Fixpoint mapM {A B : Type} (f : A -> res B) (l : list A) : res (list B) :=
  match l with
  | [] => Ok []
  | x :: l' => y <- f x ;; ys <- mapM f l' ;; Ok (y :: ys)
  end.

(** [for i in r: s = body(i, s)] *)
Fixpoint for_ {S : Type} (r : list nat) (body : nat -> S -> res S) (s : S)
  : res S :=
  match r with
  | [] => Ok s
  | i :: r' => s' <- body i s ;; for_ r' body s'
  end.

Definition range (n : nat) : list nat := seq 0 n.
Definition reversed {A : Type} (l : list A) : list A := rev l.

(** ** Python lists *)

(** [l[i]] for a non-negative [i]. *)
Definition py_index {A : Type} (l : list A) (i : nat) : res A :=
  match nth_error l i with
  | Some x => Ok x
  | None => Err IndexError
  end.

(** [l[-1]] *)
Definition py_last {A : Type} (l : list A) : res A :=
  match l with
  | [] => Err IndexError
  | x :: l' => Ok (last l' x)
  end.

(** ** Scalars and arrays *)

Open Scope Qc_scope.

Definition half : Qc := Q2Qc (1 # 2).

Definition Qc_of_nat (n : nat) : Qc := Q2Qc (inject_Z (Z.of_nat n)).

(** [x / y] on floats. *)
Definition jdiv (x y : Qc) : res Qc :=
  if Qc_eq_bool y 0 then Err NonFinite else Ok (x / y).

(** [x > y] *)
Definition gt (x y : Qc) : bool :=
  match x ?= y with
  | Gt => true
  | _ => false
  end.

(** [jnp.where(c, x, y)] on scalars. *)
Definition where_ (c : bool) (x y : Qc) : Qc := if c then x else y.

(** An action: an array of one axis. *)
Abbreviation Action := (list Qc) (only parsing).

(** [a[i]] on a JAX array with a static non-negative index: the index is
    clamped into the array; an empty axis cannot be indexed. *)
Definition jnp_index {A : Type} (a : list A) (i : nat) : res A :=
  match a with
  | [] => Err IndexError
  | x :: _ => Ok (nth (Nat.min i (length a - 1)) a x)
  end.

(** NumPy broadcasting of a binary operation along one axis: equal lengths
    are combined pointwise, an axis of length one is stretched. *)
Definition broadcast {A B C : Type} (f : A -> B -> res C)
  (l1 : list A) (l2 : list B) : res (list C) :=
  if length l1 =? length l2
  then mapM (fun p => f (fst p) (snd p)) (combine l1 l2)
  else match l1, l2 with
       | [a], _ => mapM (fun b => f a b) l2
       | _, [b] => mapM (fun a => f a b) l1
       | _, _ => Err ShapeError
       end.

(** [a + b] on arrays of one axis. *)
Definition jnp_add (a b : list Qc) : res (list Qc) :=
  broadcast (fun x y => Ok (x + y)) a b.

(** [jnp.zeros_like] *)
Definition zeros_like1 (a : list Qc) : list Qc := map (fun _ => 0) a.
Definition zeros_like2 (a : list (list Qc)) : list (list Qc) :=
  map zeros_like1 a.

(** ** The collaborators *)

Class Collaborators : Type := {
  State : Type;
  PRNGKey : Type;
  Dist : Type;
  Aux : Type;
  (** [jax.random.split(key, 4)], unpacked *)
  split4 : PRNGKey -> PRNGKey * PRNGKey * PRNGKey * PRNGKey;
  (** [model(rng, s, a)]: next state, reward, terminal flag, auxiliary *)
  model : PRNGKey -> State -> Action -> State * Qc * Qc * Aux;
  (** [actor(s)] *)
  actor : State -> Dist;
  get_deter : Dist -> Action;
  (** [critic(s, a)] *)
  critic : State -> Action -> Qc
}.

(** ** The loop bodies shared by the two update rules

    The source writes the trajectory loop four times (lines 122-133,
    172-189, 260-271 and 306-323) and each return recursion twice; the
    embedding has one definition per distinct text. *)

(** The lists the rollout grows, for states of type [St] and keys of type
    [Key]. *)
Record lists_of (St Key : Type) : Type := {
  states : list St;
  rewards : list Qc;
  actions : list Action;
  mask_weights : list Qc;
  keys : list Key;
  q_values : list Qc
}.

Abbreviation lists := (lists_of State PRNGKey).

Section Rollout.
Context {C : Collaborators}.
Variables (discount lamb expectile : Qc) (H : nat).

(** Lines 122-123 and 260-261. *)
Definition foward_init (Robs : State) (Ra : Action) (key0 : PRNGKey)
  : lists :=
  {| states := [Robs]; rewards := []; actions := [Ra];
     mask_weights := [1]; keys := [key0];
     q_values := [critic Robs Ra] |}.

(** Lines 125-133 and 263-271: one iteration of the rollout. *)
Definition foward_step (i : nat) (l : lists) : res lists :=
  k <- py_last (keys l) ;;
  let '(rng1, rng2, rng3, key0) := split4 k in
  s <- py_index (states l) i ;;
  a <- py_index (actions l) i ;;
  let '(s_next, rew, terminal, _) := model rng1 s a in
  let a_next := get_deter (actor s_next) in
  m <- py_index (mask_weights l) i ;;
  Ok {| states := states l ++ [s_next];
        rewards := rewards l ++ [rew];
        actions := actions l ++ [a_next];
        mask_weights := mask_weights l ++ [m * (1 - terminal)];
        keys := keys l ++ [key0];
        q_values := q_values l ++ [critic s_next a_next] |}.

(** Lines 172-179 and 306-313. *)
Definition backward_init (delta_a : list Action) (Robs : State)
  (Ra : Action) (key0 : PRNGKey) : res lists :=
  d0 <- jnp_index delta_a 0 ;;
  a0 <- jnp_add Ra d0 ;;
  Ok {| states := [Robs]; rewards := []; actions := [a0];
        mask_weights := [1]; keys := [key0];
        q_values := [critic Robs a0] |}.

(** Lines 181-189 and 315-323: the same iteration, with the perturbation
    added to the policy's action. *)
Definition backward_step (delta_a : list Action) (i : nat) (l : lists)
  : res lists :=
  k <- py_last (keys l) ;;
  let '(rng1, rng2, rng3, key0) := split4 k in
  s <- py_index (states l) i ;;
  a <- py_index (actions l) i ;;
  let '(s_next, rew, terminal, _) := model rng1 s a in
  d <- jnp_index delta_a (i + 1) ;;
  a_next <- jnp_add (get_deter (actor s_next)) d ;;
  m <- py_index (mask_weights l) i ;;
  Ok {| states := states l ++ [s_next];
        rewards := rewards l ++ [rew];
        actions := actions l ++ [a_next];
        mask_weights := mask_weights l ++ [m * (1 - terminal)];
        keys := keys l ++ [key0];
        q_values := q_values l ++ [critic s_next a_next] |}.

Definition imagine_foward (Robs : State) (Ra : Action) (key0 : PRNGKey)
  : res lists :=
  for_ (range H) foward_step (foward_init Robs Ra key0).

Definition imagine_backward (delta_a : list Action) (Robs : State)
  (Ra : Action) (key0 : PRNGKey) : res lists :=
  l0 <- backward_init delta_a Robs Ra key0 ;;
  for_ (range H) (backward_step delta_a) l0.

(** [q_next], lines 138-141, 194-197, 276-279 and 328-331. *)
Definition q_next_of (l : lists) (i : nat) (q_rollout : list Qc)
  : res Qc :=
  mi <- py_index (mask_weights l) i ;;
  ri <- py_index (rewards l) i ;;
  mi1 <- py_index (mask_weights l) (i + 1) ;;
  ql <- py_last q_rollout ;;
  Ok (mi * ri + mi1 * discount * ql).

(** Lines 138-146 and 194-202: one iteration of the lambda-return
    recursion on the pair [(q_rollout, lamb_weight)]. *)
Definition lambda_step (l : lists) (i : nat) (st : list Qc * Qc)
  : res (list Qc * Qc) :=
  let '(q_rollout, lamb_weight) := st in
  q_next <- q_next_of l i q_rollout ;;
  qv <- py_index (q_values l) i ;;
  next_value <- jdiv (qv + lamb * lamb_weight * q_next)
                     (1 + lamb * lamb_weight) ;;
  Ok (q_rollout ++ [next_value], 1 + lamb * lamb_weight).

(** Lines 136-147 and 192-203. *)
Definition lambda_returns (l : lists) : res (list Qc) :=
  q_last <- py_last (q_values l) ;;
  '(q_rollout, _) <- for_ (reversed (range H)) (lambda_step l)
                          ([q_last], 1) ;;
  Ok (reversed q_rollout).

(** Lines 276-280 and 328-332; [lamb_weight] is set and never used. *)
Definition multistep_step (l : lists) (i : nat) (st : list Qc * Qc)
  : res (list Qc * Qc) :=
  let '(q_rollout, lamb_weight) := st in
  q_next <- q_next_of l i q_rollout ;;
  Ok (q_rollout ++ [q_next], lamb_weight).

(** Lines 274-281 and 326-333. *)
Definition multistep_returns (l : lists) : res (list Qc) :=
  q_last <- py_last (q_values l) ;;
  '(q_rollout, _) <- for_ (reversed (range H)) (multistep_step l)
                          ([q_last], 1) ;;
  Ok (reversed q_rollout).

(** Lines 151-154 and 285-288. *)
Definition weight_step (q_rollout : list Qc) (l : lists) (i : nat)
  (ep_weights : list Qc) : res (list Qc) :=
  qi <- py_index q_rollout i ;;
  vi <- py_index (q_values l) i ;;
  Ok (ep_weights ++ [where_ (gt qi vi) expectile (1 - expectile)]).

(** Lines 150-155 and 284-289. *)
Definition asymmetric_weights (q_rollout : list Qc) (l : lists)
  : res (list Qc) :=
  ep_weights <- for_ (range H) (weight_step q_rollout l) [] ;;
  Ok (ep_weights ++ [half]).

End Rollout.

(** ** Arrays of two and three axes *)

Definition tensor2 : Type := list (list Qc).
Definition tensor3 : Type := list (list (list Qc)).

Definition sum1 (v : list Qc) : Qc := fold_right Qcplus 0 v.
Definition sum2 (m : tensor2) : Qc := sum1 (map sum1 m).
Definition sum3 (t : tensor3) : Qc := sum1 (map sum2 t).

Definition size2 {A : Type} (m : list (list A)) : nat :=
  fold_right (fun r n => (length r + n)%nat) 0%nat m.
Definition size3 {A : Type} (t : list (list (list A))) : nat :=
  fold_right (fun m n => (size2 m + n)%nat) 0%nat t.

(** [x.mean()]: the sum of all entries over their number. *)
Definition mean2 (m : tensor2) : res Qc :=
  jdiv (sum2 m) (Qc_of_nat (size2 m)).
Definition mean3 (t : tensor3) : res Qc :=
  jdiv (sum3 t) (Qc_of_nat (size3 t)).

(** [x * y] with broadcasting, axis by axis. *)
Definition mul1 (a b : list Qc) : res (list Qc) :=
  broadcast (fun x y => Ok (x * y)) a b.
Definition mul2 (a b : tensor2) : res tensor2 := broadcast mul1 a b.
Definition mul3 (a b : tensor3) : res tensor3 := broadcast mul2 a b.

(** [x[:, :, None]] *)
Definition expand_last (m : tensor2) : tensor3 :=
  map (map (fun x => [x])) m.

(** Pointwise sum of two rows of one length. *)
Definition vadd (a b : list Qc) : list Qc :=
  map (fun p => fst p + snd p) (combine a b).

(** The mean of the rows of a matrix (a reduction of its first axis); the
    mean over an empty axis is nan. *)
Definition mean_rows (rows : tensor2) : res (list Qc) :=
  match rows with
  | [] => Err NonFinite
  | r :: rs =>
      mapM (fun s => jdiv s (Qc_of_nat (length rows))) (fold_left vadd rs r)
  end.

(** [x.mean(axis=1)] on three axes. *)
Definition mean_axis1 (t : tensor3) : res tensor2 := mapM mean_rows t.

(** [jnp.abs] *)
Definition abs3 (t : tensor3) : tensor3 := map (map (map Qcabs.Qcabs)) t.

(** The loss expression of both update rules, lines 221-223 and 350-352:
    [-(ep_weights[:, :, None] * grad_gae * actions_grad).mean(axis=1).sum()]. *)
Definition dpg_loss (ep_weights : tensor2) (grad_gae actions_grad : tensor3)
  : res Qc :=
  wg <- mul3 (expand_last ep_weights) grad_gae ;;
  wga <- mul3 wg actions_grad ;;
  batch_mean <- mean_axis1 wga ;;
  Ok (- sum2 batch_mean).

(** Stacking the per-example outputs of a mapped function along axis 1:
    row [i] of the result collects entry [i] of every output. *)
Definition stack_axis1 {A : Type} (n : nat) (outs : list (list A))
  : list (list A) :=
  map (fun i =>
         flat_map (fun o => match nth_error o i with
                            | Some x => [x]
                            | None => []
                            end) outs)
      (seq 0 n).

(** The policy evaluated on a batch inside the loss (lines 216-218 and
    346-348): its deterministic actions and its scale. *)
Class BatchPolicy (C : Collaborators) : Type := {
  Params : Type;
  BatchDist : Type;
  (** [actor.apply({"params": p}, states0, 1.0, training=True)] *)
  actor_apply : Params -> list (list State) -> BatchDist;
  get_deter_batch : BatchDist -> tensor3;
  (** [dist.scale if hasattr(dist, "scale") else dist.distribution.scale] *)
  policy_scale : BatchDist -> tensor3
}.

(** The outputs of the mapped forward pass, for states of type [St]. *)
Record foward_out_of (St : Type) : Type := {
  states0 : list (list St);
  actions0 : tensor3;
  mask_weights0 : tensor2;
  q_rollout0 : tensor2;
  ep_weights0 : tensor2
}.

Abbreviation foward_out := (foward_out_of State).

Section Vmap.
Context {C : Collaborators}.
Variable H : nat.

(** [jax.vmap(func, in_axes=0, out_axes=1)(Robs, Ra, keys)], lines 165-168
    and 299-302. *)
Definition vmap_foward
  (func : State -> Action -> PRNGKey ->
          res (list State * list Action * list Qc * list Qc * list Qc))
  (Robs : list State) (Ra : list Action) (keys : list PRNGKey)
  : res foward_out :=
  if (length Robs =? length Ra) && (length Robs =? length keys)
  then
    outs <- mapM (fun x => func (fst (fst x)) (snd (fst x)) (snd x))
                 (combine (combine Robs Ra) keys) ;;
    Ok {| states0 :=
            stack_axis1 (S H) (map (fun o => fst (fst (fst (fst o)))) outs);
          actions0 :=
            stack_axis1 (S H) (map (fun o => snd (fst (fst (fst o)))) outs);
          mask_weights0 :=
            stack_axis1 (S H) (map (fun o => snd (fst (fst o))) outs);
          q_rollout0 :=
            stack_axis1 (S H) (map (fun o => snd (fst o)) outs);
          ep_weights0 :=
            stack_axis1 (S H) (map (fun o => snd o) outs) |}
  else Err ShapeError.
End Vmap.

(** ** [DPG_lambda_update_actor] *)

Module DPG_lambda_update_actor.
Section Body.
Context {C : Collaborators} {P : BatchPolicy C}.
Variables (discount lamb : Qc) (H : nat) (expectile : Qc).

(** Lines 120-162. *)
Definition calculate_gae_foward (Robs : State) (Ra : Action)
  (key0 : PRNGKey)
  : res (list State * list Action * list Qc * list Qc * list Qc) :=
  l <- imagine_foward H Robs Ra key0 ;;
  q_rollout <- lambda_returns discount lamb H l ;;
  ep_weights <- asymmetric_weights expectile H q_rollout l ;;
  Ok (states l, actions l, mask_weights l, q_rollout, ep_weights).

(** Lines 170-205. *)
Definition calculate_gae_backward (delta_a : list Action) (Robs : State)
  (Ra : Action) (key0 : PRNGKey) : res (list Qc) :=
  l <- imagine_backward H delta_a Robs Ra key0 ;;
  lambda_returns discount lamb H l.

Record InfoDict : Type := {
  info_actor_loss : Qc;
  info_q_rollout : Qc;
  info_lambda_actor : Qc;
  info_policy_std : Qc;
  info_adv_weights : Qc;
  info_abs_actions : Qc
}.

(** Lines 215-232.  [fo] holds the arrays of the forward pass and
    [grad_gae] the diagonal of the Jacobian, which the loss closes
    over. *)
Definition actor_loss_fn (fo : foward_out) (grad_gae : tensor3)
  (actor_params : Params) : res (Qc * InfoDict) :=
  let dist := actor_apply actor_params (states0 fo) in
  let actions_grad := get_deter_batch dist in
  let policy_std := policy_scale dist in
  actor_loss <- dpg_loss (ep_weights0 fo) grad_gae actions_grad ;;
  q_mean <- mean2 (q_rollout0 fo) ;;
  std_masked <- mul3 policy_std (expand_last (mask_weights0 fo)) ;;
  std_mean <- mean3 std_masked ;;
  mask_mean <- mean2 (mask_weights0 fo) ;;
  std <- jdiv std_mean mask_mean ;;
  adv_masked <- mul2 (ep_weights0 fo) (mask_weights0 fo) ;;
  adv_mean <- mean2 adv_masked ;;
  mask_mean' <- mean2 (mask_weights0 fo) ;;
  adv <- jdiv adv_mean mask_mean' ;;
  abs_mean <- mean3 (abs3 (actions0 fo)) ;;
  Ok (actor_loss,
      {| info_actor_loss := actor_loss;
         info_q_rollout := q_mean;
         info_lambda_actor := lamb;
         info_policy_std := std;
         info_adv_weights := adv;
         info_abs_actions := abs_mean |}).
End Body.
End DPG_lambda_update_actor.

(** ** [DPG_multistep_update_actor] *)

Module DPG_multistep_update_actor.
Section Body.
Context {C : Collaborators} {P : BatchPolicy C}.
Variables (discount : Qc) (H : nat) (expectile : Qc).

(** Lines 258-296. *)
Definition calculate_gae_foward (Robs : State) (Ra : Action)
  (key0 : PRNGKey)
  : res (list State * list Action * list Qc * list Qc * list Qc) :=
  l <- imagine_foward H Robs Ra key0 ;;
  q_rollout <- multistep_returns discount H l ;;
  ep_weights <- asymmetric_weights expectile H q_rollout l ;;
  Ok (states l, actions l, mask_weights l, q_rollout, ep_weights).

(** Lines 304-335. *)
Definition calculate_gae_backward (delta_a : list Action) (Robs : State)
  (Ra : Action) (key0 : PRNGKey) : res (list Qc) :=
  l <- imagine_backward H delta_a Robs Ra key0 ;;
  multistep_returns discount H l.

Record InfoDict : Type := {
  info_actor_loss : Qc;
  info_q_rollout : Qc;
  info_policy_std : Qc;
  info_adv_weights : Qc;
  info_abs_actions : Qc
}.

(** Lines 345-361. *)
Definition actor_loss_fn (fo : foward_out) (grad_gae : tensor3)
  (actor_params : Params) : res (Qc * InfoDict) :=
  let dist := actor_apply actor_params (states0 fo) in
  let actions_grad := get_deter_batch dist in
  let policy_std := policy_scale dist in
  actor_loss <- dpg_loss (ep_weights0 fo) grad_gae actions_grad ;;
  q_mean <- mean2 (q_rollout0 fo) ;;
  std_masked <- mul3 policy_std (expand_last (mask_weights0 fo)) ;;
  std_mean <- mean3 std_masked ;;
  mask_mean <- mean2 (mask_weights0 fo) ;;
  std <- jdiv std_mean mask_mean ;;
  adv_masked <- mul2 (ep_weights0 fo) (mask_weights0 fo) ;;
  adv_mean <- mean2 adv_masked ;;
  mask_mean' <- mean2 (mask_weights0 fo) ;;
  adv <- jdiv adv_mean mask_mean' ;;
  abs_mean <- mean3 (abs3 (actions0 fo)) ;;
  Ok (actor_loss,
      {| info_actor_loss := actor_loss;
         info_q_rollout := q_mean;
         info_policy_std := std;
         info_adv_weights := adv;
         info_abs_actions := abs_mean |}).
End Body.
End DPG_multistep_update_actor.

(** ** Vocabulary of the statements *)

Section Vocabulary.
Context {C : Collaborators}.

(** The components of [jax.random.split(key, 4)] and of the model's
    output that the rollout uses. *)
Definition rng1_of (k : PRNGKey) : PRNGKey :=
  let '(rng1, _, _, _) := split4 k in rng1.
Definition key0_of (k : PRNGKey) : PRNGKey :=
  let '(_, _, _, key0) := split4 k in key0.
Definition s_next_of (o : State * Qc * Qc * Aux) : State :=
  let '(s_next, _, _, _) := o in s_next.
Definition rew_of (o : State * Qc * Qc * Aux) : Qc :=
  let '(_, rew, _, _) := o in rew.
Definition terminal_of (o : State * Qc * Qc * Aux) : Qc :=
  let '(_, _, terminal, _) := o in terminal.

(** The action chosen at the next state: the policy's, or the policy's
    plus the perturbation of that step. *)
Definition next_action_foward (i : nat) (s_next : State) : res Action :=
  Ok (get_deter (actor s_next)).
Definition next_action_backward (delta_a : list Action) (i : nat)
  (s_next : State) : res Action :=
  d <- jnp_index delta_a (i + 1) ;;
  jnp_add (get_deter (actor s_next)) d.

(** [l] with the entries of one more step. *)
Definition extend (l : lists) (k : PRNGKey) (s : State) (a : Action)
  (m : Qc) (a_next : Action) : lists :=
  let o := model (rng1_of k) s a in
  {| states := states l ++ [s_next_of o];
     rewards := rewards l ++ [rew_of o];
     actions := actions l ++ [a_next];
     mask_weights := mask_weights l ++ [m * (1 - terminal_of o)];
     keys := keys l ++ [key0_of k];
     q_values := q_values l ++ [critic (s_next_of o) a_next] |}.

(** The lists have the lengths reached after [n] iterations. *)
Record shaped (n : nat) (l : lists) : Prop := {
  shaped_states : length (states l) = S n;
  shaped_rewards : length (rewards l) = n;
  shaped_actions : length (actions l) = S n;
  shaped_mask_weights : length (mask_weights l) = S n;
  shaped_keys : length (keys l) = S n;
  shaped_q_values : length (q_values l) = S n
}.

(** Entry [i + 1] of every list is what one iteration computes from
    entry [i]. *)
Definition step_at (next_action : nat -> State -> res Action) (l : lists)
  (i : nat) : Prop :=
  exists k s a m a_next,
    nth_error (keys l) i = Some k /\
    nth_error (states l) i = Some s /\
    nth_error (actions l) i = Some a /\
    nth_error (mask_weights l) i = Some m /\
    next_action i (s_next_of (model (rng1_of k) s a)) = Ok a_next /\
    nth_error (keys l) (S i) = Some (key0_of k) /\
    nth_error (states l) (S i) = Some (s_next_of (model (rng1_of k) s a)) /\
    nth_error (rewards l) i = Some (rew_of (model (rng1_of k) s a)) /\
    nth_error (actions l) (S i) = Some a_next /\
    nth_error (mask_weights l) (S i)
      = Some (m * (1 - terminal_of (model (rng1_of k) s a))) /\
    nth_error (q_values l) (S i)
      = Some (critic (s_next_of (model (rng1_of k) s a)) a_next).

(** The lists of a rollout of [n] steps from [(Robs, a0, key0)]. *)
Record unrolled (next_action : nat -> State -> res Action)
  (Robs : State) (a0 : Action) (key0 : PRNGKey) (n : nat) (l : lists)
  : Prop := {
  unrolled_shaped : shaped n l;
  unrolled_state0 : nth_error (states l) 0 = Some Robs;
  unrolled_action0 : nth_error (actions l) 0 = Some a0;
  unrolled_key0 : nth_error (keys l) 0 = Some key0;
  unrolled_mask0 : nth_error (mask_weights l) 0 = Some 1;
  unrolled_q0 : nth_error (q_values l) 0 = Some (critic Robs a0);
  unrolled_steps : forall i, (i < n)%nat -> step_at next_action l i
}.

(** The first entries of every list: what the rollout holds when it
    enters iteration [n]. *)
Definition truncate (n : nat) (l : lists) : lists :=
  {| states := firstn (S n) (states l);
     rewards := firstn n (rewards l);
     actions := firstn (S n) (actions l);
     mask_weights := firstn (S n) (mask_weights l);
     keys := firstn (S n) (keys l);
     q_values := firstn (S n) (q_values l) |}.

(** Two rollouts that coincide before step [k]: the states and masks up
    to [k], the actions, rewards and critic values below [k]. *)
Record agree_before (k : nat) (l1 l2 : lists) : Prop := {
  agree_states : firstn (S k) (states l1) = firstn (S k) (states l2);
  agree_rewards : firstn k (rewards l1) = firstn k (rewards l2);
  agree_actions : firstn k (actions l1) = firstn k (actions l2);
  agree_mask_weights :
    firstn (S k) (mask_weights l1) = firstn (S k) (mask_weights l2);
  agree_keys : keys l1 = keys l2;
  agree_q_values : firstn k (q_values l1) = firstn k (q_values l2)
}.
End Vocabulary.

(** The value of [lamb_weight] after [n] iterations of the recursion, in the
    specification's words: 1 at first, then [1 + lambda * lambda_weight]. *)
Fixpoint lamb_weight_after (lamb : Qc) (n : nat) : Qc :=
  match n with
  | O => 1
  | S n' => 1 + lamb * lamb_weight_after lamb n'
  end.

(** ** A small instance to run the definitions on

    States are numbers, the action has one component, the dynamics add the
    action to the state, every reward is 1 and the terminal flag is the
    constant [term]; the policy plays the state and the critic returns
    state plus action. *)
Definition toy (term : Qc) : Collaborators :=
  {| State := Qc; PRNGKey := nat; Dist := Action; Aux := unit;
     split4 := fun k => (4 * k + 1, 4 * k + 2, 4 * k + 3, 4 * k + 4)%nat;
     model := fun _ s a => (s + sum1 a, 1, term, tt);
     actor := fun s => [s];
     get_deter := fun d => d;
     critic := fun s a => s + sum1 a |}.

Section ReturnVocabulary.
Context {C : Collaborators}.
Variables (discount lamb : Qc).

(** The one-step target of step [i], given the return after it. *)
Definition q_next_at (l : lists) (i : nat) (q_after : Qc) : Qc :=
  nth i (mask_weights l) 0 * nth i (rewards l) 0
  + nth (i + 1) (mask_weights l) 0 * discount * q_after.

(** The blend of the critic's value at step [i] with the target. *)
Definition next_value_at (l : lists) (i : nat) (lamb_weight q_next : Qc)
  : Qc :=
  (nth i (q_values l) 0 + lamb * lamb_weight * q_next)
  / (1 + lamb * lamb_weight).

(** What the lambda recursion appends in its iteration number [t]
    (counted from 0), given the entry before. *)
Definition lambda_appended (H : nat) (l : lists) (t : nat) (q_after : Qc)
  : Qc :=
  next_value_at l (H - 1 - t)%nat (lamb_weight_after lamb t)
    (q_next_at l (H - 1 - t)%nat q_after).

(** What the multi-step recursion appends in its iteration number [t]. *)
Definition multistep_appended (H : nat) (l : lists) (t : nat)
  (q_after : Qc) : Qc :=
  q_next_at l (H - 1 - t)%nat q_after.

(** [q] is built by appending, from its first entry on, the value that
    [G] computes from the entry before: entry [t + 1] is [G t] of entry
    [t]. *)
Definition chained (G : nat -> Qc -> Qc) (n : nat) (q : list Qc) : Prop :=
  length q = S n /\
  forall t, (t < n)%nat -> nth (S t) q 0 = G t (nth t q 0).
End ReturnVocabulary.


(** ** The specification's statements *)

Section Statements.
Context {C : Collaborators}.
Variables (discount lamb expectile : Qc) (H : nat).

(** Entry [i] of [q_values] is the critic's estimate at the imagined state
    and action of step [i], for every step up to [n]. *)
Definition critic_values (n : nat) (l : lists) : Prop :=
  forall i, (i <= n)%nat ->
    exists s a,
      nth_error (states l) i = Some s /\ nth_error (actions l) i = Some a /\
      nth_error (q_values l) i = Some (critic s a).

(** The lambda-weighted recursion in the specification's words:
    [q[H]] is the critic's last value and, for [i] from [H - 1] down to 0,
    [q[i] = (critic_value[i] + lambda * lambda_weight * q_next)
            / (1 + lambda * lambda_weight)]
    with [q_next = mask[i] * reward[i] + mask[i+1] * discount * q[i+1]] and
    [lambda_weight] at its value before the update of step [i], which is 1
    at [i = H - 1]. *)
Definition is_lambda_return (l : lists) (q : list Qc) : Prop :=
  length q = S H /\
  nth H q 0 = nth H (q_values l) 0 /\
  forall i, (i < H)%nat ->
    let lambda_weight := lamb_weight_after lamb (H - 1 - i) in
    let q_next :=
      nth i (mask_weights l) 0 * nth i (rewards l) 0
      + nth (i + 1) (mask_weights l) 0 * discount * nth (i + 1) q 0 in
    nth i q 0
    = (nth i (q_values l) 0 + lamb * lambda_weight * q_next)
      / (1 + lamb * lambda_weight).

(** The multi-step recursion in the specification's words. *)
Definition is_multistep_return (l : lists) (q : list Qc) : Prop :=
  length q = S H /\
  nth H q 0 = nth H (q_values l) 0 /\
  forall i, (i < H)%nat ->
    nth i q 0
    = nth i (mask_weights l) 0 * nth i (rewards l) 0
      + nth (i + 1) (mask_weights l) 0 * discount * nth (i + 1) q 0.

(** The advantage weights in the specification's words. *)
Definition is_asymmetric_weight (l : lists) (q ep_weights : list Qc)
  : Prop :=
  length ep_weights = S H /\
  nth H ep_weights 0 = half /\
  forall i, (i < H)%nat ->
    (nth i (q_values l) 0 < nth i q 0 -> nth i ep_weights 0 = expectile) /\
    (~ nth i (q_values l) 0 < nth i q 0 ->
     nth i ep_weights 0 = 1 - expectile).

(** The alive-mask starts at 1 and is multiplied, at every step, by one
    minus the terminal flag that the model returned for that step. *)
Definition mask_recurrence (l : lists) : Prop :=
  length (mask_weights l) = S H /\
  nth 0 (mask_weights l) 0 = 1 /\
  forall i, (i < H)%nat ->
    exists k s a,
      nth_error (keys l) i = Some k /\ nth_error (states l) i = Some s /\
      nth_error (actions l) i = Some a /\
      nth (S i) (mask_weights l) 0
      = nth i (mask_weights l) 0
        * (1 - terminal_of (model (rng1_of k) s a)).

(** Every terminal flag that the model returned along the rollout lies in
    [[0, 1]]. *)
Definition terminal_flags_in_unit (l : lists) : Prop :=
  forall i k s a,
    (i < H)%nat ->
    nth_error (keys l) i = Some k -> nth_error (states l) i = Some s ->
    nth_error (actions l) i = Some a ->
    0 <= terminal_of (model (rng1_of k) s a) /\
    terminal_of (model (rng1_of k) s a) <= 1.

(** The alive-mask invariant. *)
Definition alive_mask_invariant (mask : list Qc) : Prop :=
  (forall i, (i < H)%nat -> nth (S i) mask 0 <= nth i mask 0) /\
  (forall i, (i <= H)%nat -> 0 <= nth i mask 0 /\ nth i mask 0 <= 1) /\
  (forall i j, (i < j)%nat -> (j <= H)%nat ->
     nth i mask 0 = 0 -> nth j mask 0 = 0).

(** The pair [(q_rollout, lamb_weight)] after the first [n] iterations of
    the lambda recursion (lines 136-146). *)
Definition lambda_loop_prefix (l : lists) (n : nat) : res (list Qc * Qc) :=
  q_last <- py_last (q_values l) ;;
  for_ (firstn n (reversed (range H))) (lambda_step discount lamb l)
       ([q_last], 1).
End Statements.


(** ** The loss and the masked means: vocabulary *)

Definition zip_with {A B D : Type} (f : A -> B -> D) (l1 : list A)
  (l2 : list B) : list D :=
  map (fun p => f (fst p) (snd p)) (combine l1 l2).

(** Shapes: [rect2 B m] says that every row of [m] has [B] entries,
    [rect3 B A t] that every matrix of [t] has [B] rows of [A] entries. *)
Definition rect2 {X : Type} (B : nat) (m : list (list X)) : Prop :=
  Forall (fun row => length row = B) m.
Definition rect3 {X : Type} (B A : nat) (t : list (list (list X))) : Prop :=
  Forall (fun m => length m = B /\ rect2 A m) t.

(** The array [weight * value_gradient * policy_action], entry by entry:
    entry [(h, b, a)] is
    [ep_weights[h][b] * grad_gae[h][b][a] * actions_grad[h][b][a]]. *)
Definition weighted (ep_weights : tensor2) (grad_gae actions_grad : tensor3)
  : tensor3 :=
  zip_with (zip_with (zip_with Qcmult))
    (zip_with (zip_with (fun w g => map (Qcmult w) g)) ep_weights grad_gae)
    actions_grad.

(** The mean over the horizon axis and the batch axis, in the
    specification's words: the entries (summed over the action components)
    are added up over all steps and batch elements and divided by the
    number of (step, batch element) pairs. *)
Definition mean_over_horizon_and_batch (x : tensor3) : Qc :=
  sum3 x / Qc_of_nat (size2 x).

(** What the code computes: the mean over the batch axis, summed over the
    horizon axis (and the action components). *)
Definition sum_over_horizon_of_batch_mean (x : tensor3) : Qc :=
  sum1 (map (fun m => sum2 m / Qc_of_nat (length m)) x).

(** A policy for the small instance: on a batch it plays the state and has
    scale 1. *)
Definition toy_policy (term : Qc) : BatchPolicy (toy term) :=
  {| Params := unit;
     BatchDist := tensor3 * tensor3;
     actor_apply := fun _ (st : list (list (@State (toy term)))) =>
       (map (map (fun s : Qc => [s])) st,
        map (map (fun _ : Qc => [1])) st);
     get_deter_batch := fst;
     policy_scale := snd |}.

(** ** Proof automation *)

(** Turns a goal on [Qc] into a goal on [Q], where [lra] and [nra] work. *)
Ltac qc_to_q :=
  unfold Qcle, Qclt, Qcminus, Qcopp, Qcplus, Qcmult, half, Q2Qc in *;
  cbn [this] in *;
  repeat (rewrite Qred_correct in * ).

(** Exposes the lists of an extended rollout. *)
Ltac fields :=
  unfold extend; cbn [states rewards actions mask_weights keys q_values].


(** ** Further vocabulary: keys, divisors and termination *)

Section MoreVocabulary.
Context {C : Collaborators}.

(** The continuation key after [n] splits: the fourth component of
    [jax.random.split], taken [n] times from [key0]. *)
Fixpoint key_after (key0 : PRNGKey) (n : nat) : PRNGKey :=
  match n with
  | O => key0
  | S n' => key0_of (key_after key0 n')
  end.

(** The terminal flag that the model returned at step [j] of the rollout
    is [t]. *)
Definition terminal_flag_at (l : lists) (j : nat) (t : Qc) : Prop :=
  exists k s a,
    nth_error (keys l) j = Some k /\ nth_error (states l) j = Some s /\
    nth_error (actions l) j = Some a /\
    terminal_of (model (rng1_of k) s a) = t.

(** The reward that the model returned at step [j] of the rollout is
    [r]. *)
Definition reward_at (l : lists) (j : nat) (r : Qc) : Prop :=
  exists k s a,
    nth_error (keys l) j = Some k /\ nth_error (states l) j = Some s /\
    nth_error (actions l) j = Some a /\
    rew_of (model (rng1_of k) s a) = r.
End MoreVocabulary.

(** The divisor of iteration number [n] (counted from 0) of the lambda
    recursion. *)
Definition divisor_at (lamb : Qc) (n : nat) : Qc :=
  1 + lamb * lamb_weight_after lamb n.

(** A second small instance, with a constant reward [rew] and a constant
    terminal flag [term]: the dynamics add the action to the state, the
    policy plays the state and the critic returns state plus action. *)
Definition toy_reward (rew term : Qc) : Collaborators :=
  {| State := Qc; PRNGKey := nat; Dist := Action; Aux := unit;
     split4 := fun k => (4 * k + 1, 4 * k + 2, 4 * k + 3, 4 * k + 4)%nat;
     model := fun _ s a => (s + sum1 a, rew, term, tt);
     actor := fun s => [s];
     get_deter := fun d => d;
     critic := fun s a => s + sum1 a |}.

(** ** The mapped forward pass: vocabulary *)

Section StackedVocabulary.
Context {C : Collaborators}.

(** [fo] holds, stacked along axis 1, the outputs of [func] on the [B]
    examples [(Robs[b], Ra[b], keys[b])]: every array has [H + 1] rows of
    [B] entries, and entry [(i, b)] is entry [i] of the output of example
    [b]. *)
Definition stacked_from (H : nat)
  (func : State -> Action -> PRNGKey ->
          res (list State * list Action * list Qc * list Qc * list Qc))
  (Robs : list State) (Ra : list Action) (keys : list PRNGKey)
  (fo : foward_out) : Prop :=
  (length (states0 fo) = S H /\ rect2 (length Robs) (states0 fo)) /\
  (length (actions0 fo) = S H /\ rect2 (length Robs) (actions0 fo)) /\
  (length (mask_weights0 fo) = S H /\
   rect2 (length Robs) (mask_weights0 fo)) /\
  (length (q_rollout0 fo) = S H /\ rect2 (length Robs) (q_rollout0 fo)) /\
  (length (ep_weights0 fo) = S H /\ rect2 (length Robs) (ep_weights0 fo)) /\
  forall b o a k,
    nth_error Robs b = Some o -> nth_error Ra b = Some a ->
    nth_error keys b = Some k ->
    exists st ac mw q ep,
      func o a k = Ok (st, ac, mw, q, ep) /\
      forall i, (i <= H)%nat ->
        nth_error (nth i (states0 fo) []) b = nth_error st i /\
        nth_error (nth i (actions0 fo) []) b = nth_error ac i /\
        nth_error (nth i (mask_weights0 fo) []) b = nth_error mw i /\
        nth_error (nth i (q_rollout0 fo) []) b = nth_error q i /\
        nth_error (nth i (ep_weights0 fo) []) b = nth_error ep i.
End StackedVocabulary.

(** ** The forward pass seen by the loss: vocabulary *)

(** What the forward pass on one example hands over: five sequences of
    [H + 1] entries, actions of [A] components, an alive-mask that starts
    at 1 and is never negative, and weights among [expectile],
    [1 - expectile] and [1 / 2]. *)
Definition foward_example {St : Type} (H A : nat) (expectile : Qc)
  (out : list St * list (list Qc) * list Qc * list Qc * list Qc) : Prop :=
  length (fst (fst (fst (fst out)))) = S H /\
  (length (snd (fst (fst (fst out)))) = S H /\
   Forall (fun a => length a = A) (snd (fst (fst (fst out))))) /\
  (length (snd (fst (fst out))) = S H /\
   nth 0 (snd (fst (fst out))) 0 = 1 /\
   forall i, (i <= H)%nat -> 0 <= nth i (snd (fst (fst out))) 0) /\
  length (snd (fst out)) = S H /\
  (length (snd out) = S H /\
   Forall (fun w => w = expectile \/ w = 1 - expectile \/ w = half)
          (snd out)).

Section LossVocabulary.
Context {C : Collaborators}.

(** The arrays of the mapped forward pass over [B] examples: shapes
    [(H + 1, B)] and [(H + 1, B, A)], an alive-mask without negative
    entries and with a positive mean, and weights among [expectile],
    [1 - expectile] and [1 / 2]. *)
Definition foward_pass_shaped (H B A : nat) (expectile : Qc)
  (fo : foward_out) : Prop :=
  (length (states0 fo) = S H /\ rect2 B (states0 fo)) /\
  (length (actions0 fo) = S H /\ rect3 B A (actions0 fo)) /\
  (length (mask_weights0 fo) = S H /\ rect2 B (mask_weights0 fo) /\
   Forall (Forall (fun m => 0 <= m)) (mask_weights0 fo)) /\
  (length (q_rollout0 fo) = S H /\ rect2 B (q_rollout0 fo)) /\
  (length (ep_weights0 fo) = S H /\ rect2 B (ep_weights0 fo) /\
   Forall (Forall (fun w => w = expectile \/ w = 1 - expectile \/ w = half))
          (ep_weights0 fo)) /\
  exists m,
    mean2 (mask_weights0 fo) = Ok m /\ 0 < m /\
    forall x, jdiv x m = Ok (x / m).

(** The policy evaluated on [H + 1] rows of [B] states returns actions and
    scales of shape [(H + 1, B, A)]. *)
Definition policy_shaped {P : BatchPolicy C} (H B A : nat)
  (actor_params : Params) : Prop :=
  forall st : list (list State),
    length st = S H -> rect2 B st ->
    (length (get_deter_batch (actor_apply actor_params st)) = S H /\
     rect3 B A (get_deter_batch (actor_apply actor_params st))) /\
    (length (policy_scale (actor_apply actor_params st)) = S H /\
     rect3 B A (policy_scale (actor_apply actor_params st))).
End LossVocabulary.

(** ** Further array operations *)

(** [x - y] with broadcasting, axis by axis. *)
Definition sub1 (a b : list Qc) : res (list Qc) :=
  broadcast (fun x y => Ok (x - y)) a b.
Definition sub2 (a b : tensor2) : res tensor2 := broadcast sub1 a b.

(** [x ** 2] *)
Definition square2 (m : tensor2) : tensor2 := map (map (fun x => x * x)) m.

(** [x.mean()] on one axis. *)
Definition mean1 (v : list Qc) : res Qc :=
  jdiv (sum1 v) (Qc_of_nat (length v)).

(** ** [update_actor_bc] *)

Module update_actor_bc.

(** The policy as the behaviour-cloning loss calls it; the observations
    are only handed to the policy. *)
Class BCPolicy : Type := {
  Observations : Type;
  Params : Type;
  Dist : Type;
  (** [actor.apply({"params": p}, batch.observations, 0.0, training=True)] *)
  actor_apply : Params -> Observations -> Dist;
  (** [get_deter] on a batch: one row of action components per example *)
  get_deter : Dist -> tensor2
}.

Section Body.
Context {P : BCPolicy}.

(** The fields of [Batch] that the function reads. *)
Record Batch : Type := {
  observations : Observations;
  actions : tensor2
}.

Record InfoDict : Type := {
  info_actor_loss : Qc
}.

(** Lines 14-21. *)
Definition actor_loss_fn (batch : Batch) (actor_params : Params)
  : res (Qc * InfoDict) :=
  let dist := actor_apply actor_params (observations batch) in
  let a := get_deter dist in
  d <- sub2 a (actions batch) ;;
  actor_loss <- mean2 (square2 d) ;;
  Ok (actor_loss, {| info_actor_loss := actor_loss |}).
End Body.

(** A small instance: the observations are rows of numbers and the policy
    plays them, scaled by its parameter. *)
Definition toy_bc : BCPolicy :=
  {| Observations := tensor2;
     Params := Qc;
     Dist := tensor2;
     actor_apply := fun p obs => map (map (fun x => p * x)) obs;
     get_deter := fun d => d |}.
End update_actor_bc.

(** ** [update_alpha] *)

Module update_alpha.

(** The temperature model: [sac_alpha.apply] returns the scalar
    [log_alpha]; [jnp_exp] is the exponential, which the info dictionary
    applies to it. *)
Class Temperature : Type := {
  Params : Type;
  (** [sac_alpha.apply({"params": p})] *)
  sac_alpha_apply : Params -> Qc;
  jnp_exp : Qc -> Qc
}.

Section Body.
Context {T : Temperature}.

Record InfoDict : Type := {
  info_alpha_loss : Qc;
  info_alpha : Qc
}.

(** Lines 30-35: [log_probs], one value per sampled action, is shifted by
    [target_entropy] before the loss is formed. *)
Definition alpha_loss_fn (log_probs : list Qc) (target_entropy : Qc)
  (alpha_params : Params) : res (Qc * InfoDict) :=
  let log_probs := map (fun x => x + target_entropy) log_probs in
  let log_alpha := sac_alpha_apply alpha_params in
  m <- mean1 (map (fun x => log_alpha * x) log_probs) ;;
  let alpha_loss := - m in
  Ok (alpha_loss,
      {| info_alpha_loss := alpha_loss;
         info_alpha := jnp_exp log_alpha |}).
End Body.

(** A small instance: the parameter is [log_alpha] itself (the
    exponential is replaced by a rational stand-in). *)
Definition toy_temperature : Temperature :=
  {| Params := Qc;
     sac_alpha_apply := fun p => p;
     jnp_exp := fun x => 1 + x |}.
End update_alpha.

(** ** [onestep_update_actor] *)

(** The critic evaluated on the arrays of a batch of rollouts: one value
    per step and example. *)
Class BatchCritic (C : Collaborators) : Type := {
  (** [critic(states0, actions)] *)
  critic_batch : list (list State) -> tensor3 -> tensor2
}.

Module onestep_update_actor.

(** The lists of the rollout, line 63. *)
Record lists_of (St Key : Type) : Type := {
  states : list St;
  rewards : list Qc;
  actions : list (list Qc);
  mask_weights : list Qc;
  keys : list Key
}.

Abbreviation lists := (lists_of State PRNGKey).

(** The outputs of the mapped forward pass, line 80. *)
Record foward_out_of (St : Type) : Type := {
  states0 : list (list St);
  actions0 : tensor3;
  mask_weights0 : tensor2
}.

Abbreviation foward_out := (foward_out_of State).

Section Body.
(** [P] stands here for the policy called as
    [actor.apply({"params": p}, states0)], line 83. *)
Context {C : Collaborators} {P : BatchPolicy C} {K : BatchCritic C}.
Variable H : nat.

(** Line 63. *)
Definition foward_init (Robs : State) (Ra : Action) (key0 : PRNGKey)
  : lists :=
  {| states := [Robs]; rewards := []; actions := [Ra];
     mask_weights := [1]; keys := [key0] |}.

(** Lines 65-71: one iteration; the terminal flag is read and dropped,
    and nothing is appended to [mask_weights]. *)
Definition foward_step (i : nat) (l : lists) : res lists :=
  k <- py_last (keys l) ;;
  let '(rng1, rng2, rng3, key0) := split4 k in
  s <- py_index (states l) i ;;
  a <- py_index (actions l) i ;;
  let '(s_next, rew, terminal, _) := model rng1 s a in
  let a_next := get_deter (actor s_next) in
  Ok {| states := states l ++ [s_next];
        rewards := rewards l ++ [rew];
        actions := actions l ++ [a_next];
        mask_weights := mask_weights l;
        keys := keys l ++ [key0] |}.

(** Lines 62-76. *)
Definition calculate_gae_foward (Robs : State) (Ra : Action)
  (key0 : PRNGKey) : res (list State * list Action * list Qc) :=
  l <- for_ (range H) foward_step (foward_init Robs Ra key0) ;;
  Ok (states l, actions l, mask_weights l).

(** [jax.vmap(func, in_axes=0, out_axes=1)(Robs, Ra, keys)], lines 79-80:
    the states and actions of every example have [H + 1] entries, its
    alive-mask has one. *)
Definition vmap_foward
  (func : State -> Action -> PRNGKey ->
          res (list State * list Action * list Qc))
  (Robs : list State) (Ra : list Action) (keys : list PRNGKey)
  : res foward_out :=
  if (length Robs =? length Ra) && (length Robs =? length keys)
  then
    outs <- mapM (fun x => func (fst (fst x)) (snd (fst x)) (snd x))
                 (combine (combine Robs Ra) keys) ;;
    Ok {| states0 := stack_axis1 (S H) (map (fun o => fst (fst o)) outs);
          actions0 := stack_axis1 (S H) (map (fun o => snd (fst o)) outs);
          mask_weights0 := stack_axis1 1 (map (fun o => snd o) outs) |}
  else Err ShapeError.

Record InfoDict : Type := {
  info_actor_loss : Qc;
  info_policy_std : Qc;
  info_abs_actions : Qc
}.

(** Lines 82-93. *)
Definition actor_loss_fn (fo : foward_out) (actor_params : Params)
  : res (Qc * InfoDict) :=
  let dist := actor_apply actor_params (states0 fo) in
  let actions := get_deter_batch dist in
  masked <- mul2 (mask_weights0 fo) (critic_batch (states0 fo) actions) ;;
  masked_mean <- mean2 masked ;;
  let actor_loss := - masked_mean in
  let policy_std := policy_scale dist in
  std_masked <- mul3 policy_std (expand_last (mask_weights0 fo)) ;;
  std_mean <- mean3 std_masked ;;
  mask_mean <- mean2 (mask_weights0 fo) ;;
  std <- jdiv std_mean mask_mean ;;
  abs_mean <- mean3 (abs3 (actions0 fo)) ;;
  Ok (actor_loss,
      {| info_actor_loss := actor_loss;
         info_policy_std := std;
         info_abs_actions := abs_mean |}).
End Body.
End onestep_update_actor.

(** The critic of the small instance on a batch of rollouts. *)
Definition toy_critic (term : Qc) : BatchCritic (toy term) :=
  {| critic_batch := fun (st : list (list (@State (toy term)))) ac =>
       zip_with (zip_with (fun (s : Qc) a => s + sum1 a)) st ac |}.

Section OnestepVocabulary.
Context {C : Collaborators}.

(** The lists [l1] of a one-step rollout hold the trajectory of the
    rollout [l] of the DPG rules, and an alive-mask that is still
    [[1.0]]. *)
Definition same_trajectory (l1 : onestep_update_actor.lists) (l : lists)
  : Prop :=
  onestep_update_actor.states l1 = states l /\
  onestep_update_actor.rewards l1 = rewards l /\
  onestep_update_actor.actions l1 = actions l /\
  onestep_update_actor.keys l1 = keys l /\
  onestep_update_actor.mask_weights l1 = [1].
End OnestepVocabulary.

(** ** The n-step returns of a rollout: vocabulary *)

Section NStepVocabulary.
Context {C : Collaborators}.
Variables (discount lamb : Qc).

(** The [n]-step return from step [i]: [n] masked, discounted rewards and
    then the critic's value at step [i + n]. *)
Fixpoint nstep_return (l : lists) (n i : nat) : Qc :=
  match n with
  | O => nth i (q_values l) 0
  | S n' =>
      nth i (mask_weights l) 0 * nth i (rewards l) 0
      + nth (i + 1) (mask_weights l) 0 * discount
        * nstep_return l n' (i + 1)
  end.

(** The sum of the [0]- to [k]-step returns from step [i], the [n]-step
    return weighted by [lamb ^ n]. *)
Definition lambda_mixture (l : lists) (k i : nat) : Qc :=
  sum1 (map (fun n => lamb ^ n * nstep_return l n i) (seq 0 (S k))).
End NStepVocabulary.

(** * Properties *)

Unset Implicit Arguments.

(** ** The monad, loops and Python lists *)

Lemma bind_Ok {A B : Type} (m : res A) (k : A -> res B) (b : B) :
  bind m k = Ok b -> exists a, m = Ok a /\ k a = Ok b.
Proof.
  destruct m as [a|e]; simpl; intros Hb; [exists a; auto | discriminate].
Qed.

Lemma for__app {T : Type} (r1 r2 : list nat) (body : nat -> T -> res T)
  (s : T) :
  for_ (r1 ++ r2) body s = (s' <- for_ r1 body s ;; for_ r2 body s').
Proof.
  revert s; induction r1 as [|i r1 IH]; intros s; simpl; [reflexivity|].
  destruct (body i s) as [s'|e]; simpl; auto.
Qed.

Lemma range_S (n : nat) : range (S n) = range n ++ [n].
Proof. unfold range. rewrite seq_S. reflexivity. Qed.

Lemma for__range_S {T : Type} (n : nat) (body : nat -> T -> res T) (s : T) :
  for_ (range (S n)) body s = (s' <- for_ (range n) body s ;; body n s').
Proof.
  rewrite range_S, for__app. destruct (for_ (range n) body s); simpl; auto.
  destruct (body n a); reflexivity.
Qed.

Lemma reversed_seq_S (a n : nat) :
  reversed (seq a (S n)) = reversed (seq (S a) n) ++ [a].
Proof. reflexivity. Qed.

Lemma for__ext {T : Type} (r : list nat) (f g : nat -> T -> res T) (s : T) :
  (forall i x, In i r -> f i x = g i x) -> for_ r f s = for_ r g s.
Proof.
  revert s; induction r as [|i r IH]; intros s Hfg; simpl; [reflexivity|].
  rewrite (Hfg i s) by (left; reflexivity).
  destruct (g i s); simpl; auto. apply IH. intros; apply Hfg; right; auto.
Qed.

Lemma py_index_nth_error {A : Type} {l : list A} {i : nat} {x : A} :
  nth_error l i = Some x -> py_index l i = Ok x.
Proof. unfold py_index; intros ->; reflexivity. Qed.

Lemma py_index_Ok {A : Type} {l : list A} {i : nat} {x : A} :
  py_index l i = Ok x -> nth_error l i = Some x.
Proof.
  unfold py_index; destruct (nth_error l i); intros E;
    [injection E as ->; reflexivity | discriminate].
Qed.

Lemma nth_error_lt {A : Type} (l : list A) (i : nat) :
  (i < length l)%nat -> exists x, nth_error l i = Some x.
Proof.
  intros Hi. destruct (nth_error l i) eqn:E; [eauto|].
  apply nth_error_None in E. lia.
Qed.

Lemma nth_error_snoc_old {A : Type} (l : list A) (x y : A) (i : nat) :
  nth_error l i = Some y -> nth_error (l ++ [x]) i = Some y.
Proof.
  intros E. rewrite nth_error_app1; auto.
  apply nth_error_Some. congruence.
Qed.

Lemma nth_error_snoc_new {A : Type} (l : list A) (x : A) (n : nat) :
  length l = n -> nth_error (l ++ [x]) n = Some x.
Proof.
  intros <-. rewrite nth_error_app2 by lia. rewrite Nat.sub_diag. reflexivity.
Qed.

Lemma py_last_snoc {A : Type} (l : list A) (x : A) :
  py_last (l ++ [x]) = Ok x.
Proof.
  destruct l as [|y l]; simpl; [reflexivity|]. rewrite last_last. reflexivity.
Qed.

Lemma py_last_nth_error {A : Type} {l : list A} {n : nat} {x : A} :
  length l = S n -> nth_error l n = Some x -> py_last l = Ok x.
Proof.
  intros Hl Hx. destruct (@exists_last _ l) as [l' [y ->]].
  { intros ->; discriminate. }
  rewrite py_last_snoc. rewrite length_app in Hl; simpl in Hl.
  rewrite nth_error_snoc_new in Hx by lia. congruence.
Qed.

Lemma nth_nth_error {A : Type} {l : list A} {i : nat} {x : A} (d : A) :
  nth_error l i = Some x -> nth i l d = x.
Proof. intros E. apply nth_error_nth. exact E. Qed.

Lemma nth_error_of_nth {A : Type} (l : list A) (i : nat) (d : A) :
  (i < length l)%nat -> nth_error l i = Some (nth i l d).
Proof. intros Hi. apply nth_error_nth'. exact Hi. Qed.

(** ** Arithmetic on [Qc] through [Q] *)


Lemma Qc_eq_bool_false (x y : Qc) : x <> y -> Qc_eq_bool x y = false.
Proof.
  intros Hxy. destruct (Qc_eq_bool x y) eqn:E; [|reflexivity].
  apply Qc_eq_bool_correct in E. contradiction.
Qed.

Lemma Qc_eq_bool_refl (x : Qc) : Qc_eq_bool x x = true.
Proof.
  unfold Qc_eq_bool. destruct (Qc_eq_dec x x); [reflexivity | congruence].
Qed.

Lemma jdiv_Ok (x y : Qc) : y <> 0 -> jdiv x y = Ok (x / y).
Proof. intros Hy. unfold jdiv. rewrite Qc_eq_bool_false; auto. Qed.

Lemma jdiv_zero (x : Qc) : jdiv x 0 = Err NonFinite.
Proof. unfold jdiv. rewrite Qc_eq_bool_refl. reflexivity. Qed.

Lemma jdiv_inv {x y z : Qc} : jdiv x y = Ok z -> y <> 0 /\ z = x / y.
Proof.
  unfold jdiv. destruct (Qc_eq_bool y 0) eqn:E; [discriminate|].
  intros Hz; injection Hz as <-. split; [|reflexivity].
  intros ->. rewrite Qc_eq_bool_refl in E. discriminate.
Qed.

Lemma Qc_ge1_neq0 (x : Qc) : 1 <= x -> x <> 0.
Proof. intros Hx ->. qc_to_q. lra. Qed.

Lemma divisor_ge1 (lamb w : Qc) : 0 <= lamb -> 1 <= w -> 1 <= 1 + lamb * w.
Proof. intros Hl Hw. qc_to_q. nra. Qed.

Lemma lamb_weight_after_ge1 (lamb : Qc) (n : nat) :
  0 <= lamb -> 1 <= lamb_weight_after lamb n.
Proof.
  intros Hl. induction n as [|n IH]; simpl.
  - qc_to_q. lra.
  - apply divisor_ge1; assumption.
Qed.

(** ** The rollout *)


Section RolloutFacts.
Context {C : Collaborators}.

Lemma shaped_reads {n : nat} {l : lists} :
  shaped n l ->
  exists k s a m,
    nth_error (keys l) n = Some k /\ nth_error (states l) n = Some s /\
    nth_error (actions l) n = Some a /\
    nth_error (mask_weights l) n = Some m.
Proof.
  intros [Hs _ Ha Hm Hk _].
  destruct (nth_error_lt (keys l) n) as [k Ek]; [lia|].
  destruct (nth_error_lt (states l) n) as [s Es]; [lia|].
  destruct (nth_error_lt (actions l) n) as [a Ea]; [lia|].
  destruct (nth_error_lt (mask_weights l) n) as [m Em]; [lia|].
  exists k, s, a, m. auto.
Qed.

Lemma foward_step_extend {n : nat} {l : lists} {k s a m} :
  shaped n l ->
  nth_error (keys l) n = Some k -> nth_error (states l) n = Some s ->
  nth_error (actions l) n = Some a ->
  nth_error (mask_weights l) n = Some m ->
  foward_step n l
  = Ok (extend l k s a m
          (get_deter (actor (s_next_of (model (rng1_of k) s a))))).
Proof.
  intros Hsh Ek Es Ea Em. unfold foward_step, extend, rng1_of, key0_of.
  rewrite (py_last_nth_error (shaped_keys Hsh) Ek).
  rewrite (py_index_nth_error Es), (py_index_nth_error Ea),
    (py_index_nth_error Em).
  simpl. destruct (split4 k) as [[[rng1 rng2] rng3] key0]. simpl.
  destruct (model rng1 s a) as [[[s_next rew] terminal] aux].
  reflexivity.
Qed.

Lemma backward_step_extend (delta_a : list Action) {n : nat} {l : lists}
  {k s a m} :
  shaped n l ->
  nth_error (keys l) n = Some k -> nth_error (states l) n = Some s ->
  nth_error (actions l) n = Some a ->
  nth_error (mask_weights l) n = Some m ->
  backward_step delta_a n l
  = (a_next <- next_action_backward delta_a n
                 (s_next_of (model (rng1_of k) s a)) ;;
     Ok (extend l k s a m a_next)).
Proof.
  intros Hsh Ek Es Ea Em.
  unfold backward_step, extend, rng1_of, key0_of, next_action_backward.
  rewrite (py_last_nth_error (shaped_keys Hsh) Ek).
  rewrite (py_index_nth_error Es), (py_index_nth_error Ea),
    (py_index_nth_error Em).
  simpl. destruct (split4 k) as [[[rng1 rng2] rng3] key0]. simpl.
  destruct (model rng1 s a) as [[[s_next rew] terminal] aux]. simpl.
  destruct (jnp_index delta_a (n + 1)) as [d|e]; simpl; [|reflexivity].
  destruct (jnp_add (get_deter (actor s_next)) d); reflexivity.
Qed.

Lemma shaped_extend (n : nat) (l : lists) k s a m a_next :
  shaped n l -> shaped (S n) (extend l k s a m a_next).
Proof.
  intros [Hs Hr Ha Hm Hk Hq].
  split; fields; rewrite length_app; simpl; lia.
Qed.

Lemma step_at_extend next_action (l : lists) (i : nat) k s a m a_next :
  step_at next_action l i ->
  step_at next_action (extend l k s a m a_next) i.
Proof.
  intros (k' & s' & a' & m' & a1 & Hk & Hs & Ha & Hm & Hn & Hk1 & Hs1
          & Hr & Ha1 & Hm1 & Hq1).
  exists k', s', a', m', a1. fields.
  repeat split; try assumption; apply nth_error_snoc_old; assumption.
Qed.

Lemma unrolled_extend next_action Robs a0 key0 (n : nat) (l : lists)
  k s a m a_next :
  unrolled next_action Robs a0 key0 n l ->
  nth_error (keys l) n = Some k -> nth_error (states l) n = Some s ->
  nth_error (actions l) n = Some a ->
  nth_error (mask_weights l) n = Some m ->
  next_action n (s_next_of (model (rng1_of k) s a)) = Ok a_next ->
  unrolled next_action Robs a0 key0 (S n) (extend l k s a m a_next).
Proof.
  intros [Hsh Hs0 Ha0 Hk0 Hm0 Hq0 Hst] Ek Es Ea Em En.
  pose proof Hsh as [Ls Lr La Lm Lk Lq].
  split.
  - apply shaped_extend; assumption.
  - fields. apply nth_error_snoc_old; assumption.
  - fields. apply nth_error_snoc_old; assumption.
  - fields. apply nth_error_snoc_old; assumption.
  - fields. apply nth_error_snoc_old; assumption.
  - fields. apply nth_error_snoc_old; assumption.
  - intros i Hi. destruct (Nat.eq_dec i n) as [->|Hne].
    + exists k, s, a, m, a_next. fields.
      repeat split;
        try (apply nth_error_snoc_old; assumption);
        try (apply nth_error_snoc_new; assumption);
        assumption.
    + apply step_at_extend. apply Hst. lia.
Qed.

Lemma foward_init_unrolled next_action Robs Ra key0 :
  unrolled next_action Robs Ra key0 0 (foward_init Robs Ra key0).
Proof.
  split; try reflexivity.
  - split; reflexivity.
  - intros i Hi. lia.
Qed.

Lemma for_foward_unrolled (n : nat) Robs Ra key0 :
  exists l,
    for_ (range n) foward_step (foward_init Robs Ra key0) = Ok l /\
    unrolled next_action_foward Robs Ra key0 n l.
Proof.
  induction n as [|n [l [El Hl]]].
  - exists (foward_init Robs Ra key0). split; [reflexivity|].
    apply foward_init_unrolled.
  - rewrite for__range_S, El. simpl.
    destruct (shaped_reads (unrolled_shaped Hl))
      as (k & s & a & m & Ek & Es & Ea & Em).
    rewrite (foward_step_extend (unrolled_shaped Hl) Ek Es Ea Em).
    eexists; split; [reflexivity|].
    apply unrolled_extend; auto.
Qed.

(** The forward rollout always returns, and its lists are those of [H]
    steps of policy and model. *)
Lemma imagine_foward_unrolled (H : nat) Robs Ra key0 :
  exists l,
    imagine_foward H Robs Ra key0 = Ok l /\
    unrolled next_action_foward Robs Ra key0 H l.
Proof. apply for_foward_unrolled. Qed.

Lemma for_backward_unrolled delta_a (n : nat) Robs a0 key0 l0 l :
  unrolled (next_action_backward delta_a) Robs a0 key0 0 l0 ->
  for_ (range n) (backward_step delta_a) l0 = Ok l ->
  unrolled (next_action_backward delta_a) Robs a0 key0 n l.
Proof.
  intros H0. revert l. induction n as [|n IH]; intros l El.
  - simpl in El. injection El as <-. assumption.
  - rewrite for__range_S in El. apply bind_Ok in El as (l' & El' & Est).
    specialize (IH l' El').
    destruct (shaped_reads (unrolled_shaped IH))
      as (k & s & a & m & Ek & Es & Ea & Em).
    rewrite (backward_step_extend delta_a (unrolled_shaped IH) Ek Es Ea Em)
      in Est.
    apply bind_Ok in Est as (a_next & En & Eext).
    injection Eext as <-. apply unrolled_extend; auto.
Qed.

(** When the perturbed rollout returns, its lists are those of [H] steps
    of perturbed policy and model. *)
Lemma imagine_backward_unrolled (H : nat) delta_a Robs Ra key0 l :
  imagine_backward H delta_a Robs Ra key0 = Ok l ->
  exists d0 a0,
    jnp_index delta_a 0 = Ok d0 /\ jnp_add Ra d0 = Ok a0 /\
    unrolled (next_action_backward delta_a) Robs a0 key0 H l.
Proof.
  unfold imagine_backward, backward_init. intros El.
  apply bind_Ok in El as (l0 & E0 & El).
  apply bind_Ok in E0 as (d0 & Ed & E0).
  apply bind_Ok in E0 as (a0 & Ea & E0). injection E0 as <-.
  exists d0, a0. split; [assumption|]. split; [assumption|].
  eapply for_backward_unrolled; [|exact El].
  apply (foward_init_unrolled (next_action_backward delta_a) Robs a0 key0).
Qed.
End RolloutFacts.

(** ** The return recursions *)

Lemma chained_snoc (G : nat -> Qc -> Qc) (n : nat) (q : list Qc) (z : Qc) :
  chained G n q -> z = G n (nth n q 0) -> chained G (S n) (q ++ [z]).
Proof.
  intros [Hlen Hq] Hz. split.
  - rewrite length_app. simpl. lia.
  - intros t Ht. destruct (Nat.eq_dec t n) as [->|Hne].
    + rewrite app_nth2 by lia. rewrite Hlen, Nat.sub_diag. simpl.
      rewrite app_nth1 by lia. exact Hz.
    + rewrite !app_nth1 by lia. apply Hq. lia.
Qed.

Lemma chained_head (G : nat -> Qc -> Qc) (n : nat) (q : list Qc) (z : Qc) :
  chained G n q -> nth 0 (q ++ [z]) 0 = nth 0 q 0.
Proof. intros [Hlen _]. rewrite app_nth1 by lia. reflexivity. Qed.

Lemma chained_reversed (G : nat -> Qc -> Qc) (n : nat) (q : list Qc) :
  chained G n q ->
  length (reversed q) = S n /\
  nth n (reversed q) 0 = nth 0 q 0 /\
  forall i, (i < n)%nat ->
    nth i (reversed q) 0 = G (n - 1 - i)%nat (nth (S i) (reversed q) 0).
Proof.
  intros [Hlen Hq]. unfold reversed. split; [|split].
  - rewrite length_rev. exact Hlen.
  - rewrite rev_nth by lia. rewrite Hlen. f_equal. lia.
  - intros i Hi. rewrite !rev_nth by lia. rewrite Hlen.
    replace (S n - S i)%nat with (S (n - 1 - i)) by lia.
    replace (S n - S (S i))%nat with (n - 1 - i)%nat by lia.
    apply Hq. lia.
Qed.

Lemma py_last_nth {A : Type} (l : list A) (n : nat) (d : A) :
  length l = S n -> py_last l = Ok (nth n l d).
Proof.
  intros Hl. apply (py_last_nth_error Hl). apply nth_error_of_nth. lia.
Qed.

Lemma py_index_nth {A : Type} (l : list A) (i : nat) (d : A) :
  (i < length l)%nat -> py_index l i = Ok (nth i l d).
Proof. intros Hi. apply py_index_nth_error. apply nth_error_of_nth. exact Hi. Qed.

Section ReturnFacts.
Context {C : Collaborators}.
Variables (discount lamb : Qc) (H : nat).

Lemma q_next_of_Ok (l : lists) (i n : nat) (q : list Qc) :
  shaped H l -> (i < H)%nat -> length q = S n ->
  q_next_of discount l i q = Ok (q_next_at discount l i (nth n q 0)).
Proof.
  intros [_ Hr _ Hm _ _] Hi Hq. unfold q_next_of, q_next_at.
  rewrite (py_index_nth (mask_weights l) i 0) by lia.
  rewrite (py_index_nth (rewards l) i 0) by lia.
  rewrite (py_index_nth (mask_weights l) (i + 1) 0) by lia.
  rewrite (py_last_nth q n 0 Hq). reflexivity.
Qed.

Local Abbreviation G_lambda := (lambda_appended discount lamb H).

Lemma lambda_step_inv (l : lists) (a n : nat) (q q' : list Qc)
  (w w' : Qc) :
  shaped H l -> (a + S n = H)%nat ->
  chained (G_lambda l) n q -> w = lamb_weight_after lamb n ->
  lambda_step discount lamb l a (q, w) = Ok (q', w') ->
  1 + lamb * w <> 0 /\
  q' = q ++ [G_lambda l n (nth n q 0)] /\
  w' = lamb_weight_after lamb (S n).
Proof.
  intros Hsh Han Hq Hw Est. unfold lambda_step in Est.
  rewrite (q_next_of_Ok l a n q Hsh ltac:(lia) (proj1 Hq)) in Est.
  rewrite (py_index_nth (q_values l) a 0) in Est
    by (rewrite (shaped_q_values Hsh); lia).
  simpl in Est. apply bind_Ok in Est as (z & Ez & Est).
  apply jdiv_inv in Ez as [Hnz ->]. injection Est as <- <-.
  split; [exact Hnz|]. split.
  - unfold G_lambda, next_value_at. subst w.
    replace (H - 1 - n)%nat with a by lia. reflexivity.
  - subst w. reflexivity.
Qed.

Lemma lambda_step_Ok (l : lists) (a n : nat) (q : list Qc) (w : Qc) :
  shaped H l -> (a + S n = H)%nat -> length q = S n ->
  1 + lamb * w <> 0 ->
  exists q' w', lambda_step discount lamb l a (q, w) = Ok (q', w').
Proof.
  intros Hsh Han Hq Hnz. unfold lambda_step.
  rewrite (q_next_of_Ok l a n q Hsh ltac:(lia) Hq).
  rewrite (py_index_nth (q_values l) a 0)
    by (rewrite (shaped_q_values Hsh); lia).
  simpl. rewrite (jdiv_Ok _ _ Hnz). simpl. eauto.
Qed.

Lemma lambda_loop_inv (l : lists) (n a : nat) (q : list Qc) (w : Qc) :
  shaped H l -> (a + n = H)%nat ->
  for_ (reversed (seq a n)) (lambda_step discount lamb l)
       ([nth H (q_values l) 0], 1) = Ok (q, w) ->
  chained (G_lambda l) n q /\ w = lamb_weight_after lamb n /\
  nth 0 q 0 = nth H (q_values l) 0.
Proof.
  intros Hsh. revert a q w. induction n as [|n IH]; intros a q w Han Eq.
  - simpl in Eq. injection Eq as <- <-. split; [|split]; try reflexivity.
    split; [reflexivity | intros t Ht; lia].
  - rewrite reversed_seq_S, for__app in Eq.
    apply bind_Ok in Eq as ([q1 w1] & E1 & Est).
    destruct (IH (S a) q1 w1 ltac:(lia) E1) as (Hch & Hw & Hhd).
    cbn [bind for_] in Est. apply bind_Ok in Est as ([q2 w2] & E2 & Eret).
    injection Eret as <- <-.
    destruct (lambda_step_inv l a n q1 q2 w1 w2 Hsh Han Hch Hw E2)
      as (_ & -> & ->).
    split; [|split].
    + apply chained_snoc; [assumption | reflexivity].
    + reflexivity.
    + rewrite (chained_head _ _ _ _ Hch). exact Hhd.
Qed.

Lemma lambda_loop_Ok (l : lists) (n a : nat) :
  0 <= lamb -> shaped H l -> (a + n = H)%nat ->
  exists q w,
    for_ (reversed (seq a n)) (lambda_step discount lamb l)
         ([nth H (q_values l) 0], 1) = Ok (q, w).
Proof.
  intros Hl Hsh. revert a. induction n as [|n IH]; intros a Han.
  - simpl. eauto.
  - rewrite reversed_seq_S, for__app.
    destruct (IH (S a) ltac:(lia)) as (q1 & w1 & E1). rewrite E1.
    cbn [bind for_].
    destruct (lambda_loop_inv l n (S a) q1 w1 Hsh ltac:(lia) E1)
      as ([Hlen _] & Hw & _).
    destruct (lambda_step_Ok l a n q1 w1 Hsh Han Hlen) as (q2 & w2 & E2).
    { apply Qc_ge1_neq0, divisor_ge1; [assumption|]. subst w1.
      apply lamb_weight_after_ge1; assumption. }
    rewrite E2. cbn [bind]. eauto.
Qed.

(** The result of the lambda recursion, when it returns. *)
Lemma lambda_returns_spec (l : lists) (q : list Qc) :
  shaped H l -> lambda_returns discount lamb H l = Ok q ->
  length q = S H /\
  nth H q 0 = nth H (q_values l) 0 /\
  forall i, (i < H)%nat ->
    nth i q 0
    = next_value_at lamb l i (lamb_weight_after lamb (H - 1 - i))
        (q_next_at discount l i (nth (S i) q 0)).
Proof.
  intros Hsh Eq. unfold lambda_returns in Eq.
  rewrite (py_last_nth (q_values l) H 0 (shaped_q_values Hsh)) in Eq.
  simpl in Eq. apply bind_Ok in Eq as ([q' w'] & Eloop & Eret).
  injection Eret as <-.
  destruct (lambda_loop_inv l H 0 q' w' Hsh ltac:(lia) Eloop)
    as (Hch & _ & Hhd).
  destruct (chained_reversed _ _ _ Hch) as (Hlen & Hlast & Hrec).
  split; [exact Hlen|]. split; [congruence|].
  intros i Hi. rewrite (Hrec i Hi). unfold G_lambda.
  replace (H - 1 - (H - 1 - i))%nat with i by lia. reflexivity.
Qed.

(** For a non-negative [lamb] the lambda recursion returns. *)
Lemma lambda_returns_Ok (l : lists) :
  0 <= lamb -> shaped H l ->
  exists q, lambda_returns discount lamb H l = Ok q.
Proof.
  intros Hl Hsh. unfold lambda_returns.
  rewrite (py_last_nth (q_values l) H 0 (shaped_q_values Hsh)). simpl.
  destruct (lambda_loop_Ok l H 0 Hl Hsh ltac:(lia)) as (q & w & E).
  unfold range. rewrite E. simpl. eauto.
Qed.
End ReturnFacts.


Section MultistepFacts.
Context {C : Collaborators}.
Variables (discount : Qc) (H : nat).

Local Abbreviation G_multistep := (multistep_appended discount H).

Lemma multistep_step_eq (l : lists) (a n : nat) (q : list Qc) (w : Qc) :
  shaped H l -> (a + S n = H)%nat -> length q = S n ->
  multistep_step discount l a (q, w)
  = Ok (q ++ [G_multistep l n (nth n q 0)], w).
Proof.
  intros Hsh Han Hq. unfold multistep_step.
  rewrite (q_next_of_Ok discount H l a n q Hsh ltac:(lia) Hq).
  cbn [bind]. unfold G_multistep.
  replace (H - 1 - n)%nat with a by lia. reflexivity.
Qed.

Lemma multistep_loop (l : lists) (n a : nat) :
  shaped H l -> (a + n = H)%nat ->
  exists q w,
    for_ (reversed (seq a n)) (multistep_step discount l)
         ([nth H (q_values l) 0], 1) = Ok (q, w) /\
    chained (G_multistep l) n q /\ nth 0 q 0 = nth H (q_values l) 0.
Proof.
  intros Hsh. revert a. induction n as [|n IH]; intros a Han.
  - exists [nth H (q_values l) 0], 1. split; [reflexivity|].
    split; [|reflexivity]. split; [reflexivity | intros t Ht; lia].
  - destruct (IH (S a) ltac:(lia)) as (q1 & w1 & E1 & Hch & Hhd).
    rewrite reversed_seq_S, for__app, E1. cbn [bind for_].
    rewrite (multistep_step_eq l a n q1 w1 Hsh Han (proj1 Hch)).
    cbn [bind]. eexists _, _. split; [reflexivity|]. split.
    + apply chained_snoc; [assumption | reflexivity].
    + rewrite (chained_head _ _ _ _ Hch). exact Hhd.
Qed.

(** The multi-step recursion returns, and this is its result. *)
Lemma multistep_returns_spec (l : lists) :
  shaped H l ->
  exists q,
    multistep_returns discount H l = Ok q /\
    length q = S H /\
    nth H q 0 = nth H (q_values l) 0 /\
    forall i, (i < H)%nat ->
      nth i q 0 = q_next_at discount l i (nth (S i) q 0).
Proof.
  intros Hsh. unfold multistep_returns.
  rewrite (py_last_nth (q_values l) H 0 (shaped_q_values Hsh)).
  cbn [bind]. destruct (multistep_loop l H 0 Hsh ltac:(lia))
    as (q' & w' & Eloop & Hch & Hhd).
  unfold range. rewrite Eloop. cbn [bind].
  destruct (chained_reversed _ _ _ Hch) as (Hlen & Hlast & Hrec).
  exists (reversed q'). split; [reflexivity|]. split; [exact Hlen|].
  split; [congruence|].
  intros i Hi. rewrite (Hrec i Hi). unfold G_multistep.
  replace (H - 1 - (H - 1 - i))%nat with i by lia. reflexivity.
Qed.
End MultistepFacts.

(** ** The asymmetric weights *)

Section WeightFacts.
Context {C : Collaborators}.
Variables (expectile : Qc) (H : nat).

Lemma weight_loop (q_rollout : list Qc) (l : lists) (n : nat) :
  (n <= H)%nat -> length q_rollout = S H -> shaped H l ->
  exists ep,
    for_ (range n) (weight_step expectile q_rollout l) [] = Ok ep /\
    length ep = n /\
    forall i, (i < n)%nat ->
      nth i ep 0 = where_ (gt (nth i q_rollout 0) (nth i (q_values l) 0))
                     expectile (1 - expectile).
Proof.
  intros Hn Hq Hsh. induction n as [|n IH].
  - exists []. split; [reflexivity|]. split; [reflexivity|].
    intros i Hi; lia.
  - destruct (IH ltac:(lia)) as (ep & Eep & Hlen & Hep).
    rewrite for__range_S, Eep. cbn [bind]. unfold weight_step.
    rewrite (py_index_nth q_rollout n 0) by lia.
    rewrite (py_index_nth (q_values l) n 0)
      by (rewrite (shaped_q_values Hsh); lia).
    cbn [bind]. eexists. split; [reflexivity|]. split.
    + rewrite length_app. simpl. lia.
    + intros i Hi. destruct (Nat.eq_dec i n) as [->|Hne].
      * rewrite app_nth2 by lia. rewrite Hlen, Nat.sub_diag. reflexivity.
      * rewrite app_nth1 by lia. apply Hep. lia.
Qed.

(** The weights are computed whenever the returns have [H + 1] entries. *)
Lemma asymmetric_weights_spec (q_rollout : list Qc) (l : lists) :
  length q_rollout = S H -> shaped H l ->
  exists ep_weights,
    asymmetric_weights expectile H q_rollout l = Ok ep_weights /\
    length ep_weights = S H /\
    nth H ep_weights 0 = half /\
    forall i, (i < H)%nat ->
      nth i ep_weights 0
      = where_ (gt (nth i q_rollout 0) (nth i (q_values l) 0))
          expectile (1 - expectile).
Proof.
  intros Hq Hsh. unfold asymmetric_weights.
  destruct (weight_loop q_rollout l H (le_n H) Hq Hsh)
    as (ep & Eep & Hlen & Hep).
  rewrite Eep. cbn [bind]. eexists. split; [reflexivity|]. split; [|split].
  - rewrite length_app. simpl. lia.
  - rewrite app_nth2 by lia. rewrite Hlen, Nat.sub_diag. reflexivity.
  - intros i Hi. rewrite app_nth1 by lia. apply Hep. exact Hi.
Qed.

Lemma gt_true (x y : Qc) : gt x y = true <-> y < x.
Proof.
  unfold gt. split.
  - destruct (x ?= y) eqn:E; try discriminate. intros _.
    apply Qcgt_alt. exact E.
  - intros Hxy. apply Qcgt_alt in Hxy. rewrite Hxy. reflexivity.
Qed.
End WeightFacts.

(** ** The forward pass of both update rules *)

Section FowardPass.
Context {C : Collaborators}.

Lemma unrolled_critic_values next_action Robs a0 key0 (n : nat)
  (l : lists) :
  unrolled next_action Robs a0 key0 n l -> critic_values n l.
Proof.
  intros [Hsh Hs0 Ha0 Hk0 Hm0 Hq0 Hst] i Hi. destruct i as [|i].
  - exists Robs, a0. auto.
  - destruct (Hst i ltac:(lia))
      as (k & s & a & m & a1 & _ & _ & _ & _ & _ & _ & Hs1 & _ & Ha1 & _
          & Hq1).
    eexists _, _. split; [exact Hs1|]. split; [exact Ha1 | exact Hq1].
Qed.

Lemma is_lambda_return_of_spec (discount lamb : Qc) (H : nat) (l : lists)
  (q : list Qc) :
  shaped H l -> lambda_returns discount lamb H l = Ok q ->
  is_lambda_return discount lamb H l q.
Proof.
  intros Hsh Eq.
  destruct (lambda_returns_spec discount lamb H l q Hsh Eq)
    as (Hlen & Hlast & Hrec).
  split; [exact Hlen|]. split; [exact Hlast|].
  intros i Hi. cbv zeta. rewrite (Hrec i Hi).
  unfold next_value_at, q_next_at. rewrite Nat.add_1_r. reflexivity.
Qed.

Lemma is_asymmetric_weight_of_spec (expectile : Qc) (H : nat) (l : lists)
  (q : list Qc) :
  length q = S H -> shaped H l ->
  exists ep_weights,
    asymmetric_weights expectile H q l = Ok ep_weights /\
    is_asymmetric_weight expectile H l q ep_weights.
Proof.
  intros Hq Hsh.
  destruct (asymmetric_weights_spec expectile H q l Hq Hsh)
    as (ep & Eep & Hlen & Hlast & Hw).
  exists ep. split; [exact Eep|]. split; [exact Hlen|].
  split; [exact Hlast|]. intros i Hi. rewrite (Hw i Hi). split.
  - intros Hgt. apply gt_true in Hgt. rewrite Hgt. reflexivity.
  - intros Hngt. destruct (gt (nth i q 0) (nth i (q_values l) 0)) eqn:E;
      [|reflexivity].
    apply gt_true in E. contradiction.
Qed.

(** The forward pass of the lambda rule returns for a non-negative
    [lamb]; its parts are the rollout, the lambda-returns and the
    weights. *)
Lemma lambda_foward_parts (discount lamb : Qc) (H : nat) (expectile : Qc)
  Robs Ra key0 :
  0 <= lamb ->
  exists l q_rollout ep_weights,
    imagine_foward H Robs Ra key0 = Ok l /\
    unrolled next_action_foward Robs Ra key0 H l /\
    lambda_returns discount lamb H l = Ok q_rollout /\
    is_lambda_return discount lamb H l q_rollout /\
    is_asymmetric_weight expectile H l q_rollout ep_weights /\
    DPG_lambda_update_actor.calculate_gae_foward
      discount lamb H expectile Robs Ra key0
    = Ok (states l, actions l, mask_weights l, q_rollout, ep_weights).
Proof.
  intros Hl.
  destruct (imagine_foward_unrolled H Robs Ra key0) as (l & El & Hun).
  pose proof (unrolled_shaped Hun) as Hsh.
  destruct (lambda_returns_Ok discount lamb H l Hl Hsh) as (q & Eq).
  pose proof (is_lambda_return_of_spec discount lamb H l q Hsh Eq) as Hret.
  destruct (is_asymmetric_weight_of_spec expectile H l q (proj1 Hret) Hsh)
    as (ep & Eep & Hep).
  exists l, q, ep. repeat (split; [assumption|]).
  unfold DPG_lambda_update_actor.calculate_gae_foward.
  rewrite El. cbn [bind]. rewrite Eq. cbn [bind]. rewrite Eep. reflexivity.
Qed.

(** The forward pass of the multi-step rule always returns. *)
Lemma multistep_foward_parts (discount : Qc) (H : nat) (expectile : Qc)
  Robs Ra key0 :
  exists l q_rollout ep_weights,
    imagine_foward H Robs Ra key0 = Ok l /\
    unrolled next_action_foward Robs Ra key0 H l /\
    multistep_returns discount H l = Ok q_rollout /\
    is_multistep_return discount H l q_rollout /\
    is_asymmetric_weight expectile H l q_rollout ep_weights /\
    DPG_multistep_update_actor.calculate_gae_foward
      discount H expectile Robs Ra key0
    = Ok (states l, actions l, mask_weights l, q_rollout, ep_weights).
Proof.
  destruct (imagine_foward_unrolled H Robs Ra key0) as (l & El & Hun).
  pose proof (unrolled_shaped Hun) as Hsh.
  destruct (multistep_returns_spec discount H l Hsh)
    as (q & Eq & Hlen & Hlast & Hrec).
  assert (Hret : is_multistep_return discount H l q).
  { split; [exact Hlen|]. split; [exact Hlast|]. intros i Hi.
    rewrite (Hrec i Hi). unfold q_next_at. rewrite Nat.add_1_r.
    reflexivity. }
  destruct (is_asymmetric_weight_of_spec expectile H l q Hlen Hsh)
    as (ep & Eep & Hep).
  exists l, q, ep. repeat (split; [assumption|]).
  unfold DPG_multistep_update_actor.calculate_gae_foward.
  rewrite El. cbn [bind]. rewrite Eq. cbn [bind]. rewrite Eep. reflexivity.
Qed.
End FowardPass.

(** ** The claims on the forward pass *)

Section FowardClaims.
Context {C : Collaborators}.

(** C1.  In the lambda-weighted return estimator, for every horizon,
    discount and lambda >= 0 and whatever rewards, masks and critic values
    the rollout produces: [q_rollout[H]] is the critic value at the final
    imagined state and action, and for [i] from [H - 1] down to 0,
    [q_rollout[i] = (critic_value[i] + lambda * lambda_weight * q_next)
                    / (1 + lambda * lambda_weight)]
    where [q_next = mask[i] * reward[i] + mask[i+1] * discount *
    q_rollout[i+1]] and [lambda_weight] has its value before the update of
    step [i] (1 at [i = H - 1], then [1 + lambda * lambda_weight]). *)
Theorem lambda_return_recursion (discount lamb : Qc) (H : nat)
  (expectile : Qc) (Robs : State) (Ra : Action) (key0 : PRNGKey) :
  0 <= lamb ->
  exists l q_rollout ep_weights,
    imagine_foward H Robs Ra key0 = Ok l /\
    DPG_lambda_update_actor.calculate_gae_foward
      discount lamb H expectile Robs Ra key0
    = Ok (states l, actions l, mask_weights l, q_rollout, ep_weights) /\
    critic_values H l /\
    is_lambda_return discount lamb H l q_rollout.
Proof.
  intros Hl.
  destruct (lambda_foward_parts discount lamb H expectile Robs Ra key0 Hl)
    as (l & q & ep & El & Hun & _ & Hret & _ & Ecalc).
  exists l, q, ep. split; [exact El|]. split; [exact Ecalc|].
  split; [|exact Hret]. exact (unrolled_critic_values _ _ _ _ _ _ Hun).
Qed.

(** C2.  In the multi-step return estimator, for every horizon and
    whatever rewards, masks and critic values the rollout produces:
    [q_rollout[H]] is the critic's estimate at the final imagined state and
    action, and for [i] from [H - 1] down to 0,
    [q_rollout[i] = mask[i] * reward[i] + mask[i+1] * discount *
    q_rollout[i+1]], with no critic value blended in. *)
Theorem multistep_return_recursion (discount : Qc) (H : nat)
  (expectile : Qc) (Robs : State) (Ra : Action) (key0 : PRNGKey) :
  exists l q_rollout ep_weights,
    imagine_foward H Robs Ra key0 = Ok l /\
    DPG_multistep_update_actor.calculate_gae_foward
      discount H expectile Robs Ra key0
    = Ok (states l, actions l, mask_weights l, q_rollout, ep_weights) /\
    critic_values H l /\
    is_multistep_return discount H l q_rollout.
Proof.
  destruct (multistep_foward_parts discount H expectile Robs Ra key0)
    as (l & q & ep & El & Hun & _ & Hret & _ & Ecalc).
  exists l, q, ep. split; [exact El|]. split; [exact Ecalc|].
  split; [|exact Hret]. exact (unrolled_critic_values _ _ _ _ _ _ Hun).
Qed.

(** C6.  In both update rules, at every step [i] below [H] the advantage
    weight is [expectile] when [q_rollout[i] > critic_value[i]] and
    [1 - expectile] otherwise, and the weight at index [H] is 0.5.  The
    forward pass is mapped over the batch, so this holds for every batch
    element. *)
Theorem advantage_weights (discount lamb : Qc) (H : nat) (expectile : Qc)
  (Robs : State) (Ra : Action) (key0 : PRNGKey) :
  0 <= lamb ->
  (exists l q_rollout ep_weights,
     imagine_foward H Robs Ra key0 = Ok l /\
     DPG_lambda_update_actor.calculate_gae_foward
       discount lamb H expectile Robs Ra key0
     = Ok (states l, actions l, mask_weights l, q_rollout, ep_weights) /\
     critic_values H l /\
     is_asymmetric_weight expectile H l q_rollout ep_weights) /\
  (exists l q_rollout ep_weights,
     imagine_foward H Robs Ra key0 = Ok l /\
     DPG_multistep_update_actor.calculate_gae_foward
       discount H expectile Robs Ra key0
     = Ok (states l, actions l, mask_weights l, q_rollout, ep_weights) /\
     critic_values H l /\
     is_asymmetric_weight expectile H l q_rollout ep_weights).
Proof.
  intros Hl. split.
  - destruct (lambda_foward_parts discount lamb H expectile Robs Ra key0 Hl)
      as (l & q & ep & El & Hun & _ & _ & Hw & Ecalc).
    exists l, q, ep. split; [exact El|]. split; [exact Ecalc|].
    split; [|exact Hw]. exact (unrolled_critic_values _ _ _ _ _ _ Hun).
  - destruct (multistep_foward_parts discount H expectile Robs Ra key0)
      as (l & q & ep & El & Hun & _ & _ & Hw & Ecalc).
    exists l, q, ep. split; [exact El|]. split; [exact Ecalc|].
    split; [|exact Hw]. exact (unrolled_critic_values _ _ _ _ _ _ Hun).
Qed.

Lemma blend_lambda_zero (v w q_next : Qc) :
  (v + 0 * w * q_next) / (1 + 0 * w) = v.
Proof. field. exact Q_apart_0_1. Qed.

(** C8.  With lambda = 0 the lambda-weighted estimator returns the
    critic's own values: [q_rollout[i] = critic_value[i]] for every [i]
    from 0 to [H], whatever the rewards, masks and critic values. *)
Theorem lambda_zero_returns_critic_values (discount : Qc) (H : nat)
  (expectile : Qc) (Robs : State) (Ra : Action) (key0 : PRNGKey) :
  exists l ep_weights,
    imagine_foward H Robs Ra key0 = Ok l /\
    DPG_lambda_update_actor.calculate_gae_foward
      discount 0 H expectile Robs Ra key0
    = Ok (states l, actions l, mask_weights l, q_values l, ep_weights) /\
    length (q_values l) = S H /\
    critic_values H l.
Proof.
  destruct (lambda_foward_parts discount 0 H expectile Robs Ra key0
              (Qcle_refl 0))
    as (l & q & ep & El & Hun & _ & (Hlen & Hlast & Hrec) & _ & Ecalc).
  pose proof (unrolled_shaped Hun) as Hsh.
  assert (Hq : q = q_values l).
  { apply (nth_ext q (q_values l) 0 0).
    - rewrite (shaped_q_values Hsh). exact Hlen.
    - intros i Hi. rewrite Hlen in Hi.
      destruct (Nat.eq_dec i H) as [->|Hne]; [exact Hlast|].
      rewrite (Hrec i ltac:(lia)). apply blend_lambda_zero. }
  subst q. exists l, ep. split; [exact El|]. split; [exact Ecalc|].
  split; [exact (shaped_q_values Hsh)|].
  exact (unrolled_critic_values _ _ _ _ _ _ Hun).
Qed.
End FowardClaims.

(** ** The alive-mask *)

Lemma mask_step_bounds (m t : Qc) :
  0 <= m -> m <= 1 -> 0 <= t -> t <= 1 ->
  0 <= m * (1 - t) /\ m * (1 - t) <= 1 /\ m * (1 - t) <= m.
Proof. intros Hm0 Hm1 Ht0 Ht1. qc_to_q. repeat split; nra. Qed.

Lemma alive_mask_of_recurrence (H : nat) (mask : list Qc) :
  nth 0 mask 0 = 1 ->
  (forall i, (i < H)%nat ->
     exists t, 0 <= t /\ t <= 1 /\
               nth (S i) mask 0 = nth i mask 0 * (1 - t)) ->
  alive_mask_invariant H mask.
Proof.
  intros H0 Hrec.
  assert (Hb : forall i, (i <= H)%nat ->
                 0 <= nth i mask 0 /\ nth i mask 0 <= 1).
  { induction i as [|i IH]; intros Hi.
    - rewrite H0. split; qc_to_q; lra.
    - destruct (IH ltac:(lia)) as [Hlo Hhi].
      destruct (Hrec i ltac:(lia)) as (t & Ht0 & Ht1 & ->).
      destruct (mask_step_bounds _ _ Hlo Hhi Ht0 Ht1) as (? & ? & ?).
      split; assumption. }
  split; [|split].
  - intros i Hi. destruct (Hb i ltac:(lia)) as [Hlo Hhi].
    destruct (Hrec i Hi) as (t & Ht0 & Ht1 & ->).
    apply (mask_step_bounds _ _ Hlo Hhi Ht0 Ht1).
  - exact Hb.
  - intros i j Hij. induction j as [|j IH]; intros Hj Hz; [lia|].
    destruct (Hrec j ltac:(lia)) as (t & _ & _ & ->).
    destruct (Nat.eq_dec i j) as [<-|Hne].
    + rewrite Hz. apply Qcmult_0_l.
    + rewrite (IH ltac:(lia) ltac:(lia) Hz). apply Qcmult_0_l.
Qed.

Section MaskClaims.
Context {C : Collaborators}.

Lemma unrolled_mask_recurrence next_action Robs a0 key0 (H : nat)
  (l : lists) :
  unrolled next_action Robs a0 key0 H l -> mask_recurrence H l.
Proof.
  intros [Hsh _ _ _ Hm0 _ Hst]. split; [exact (shaped_mask_weights Hsh)|].
  split; [exact (nth_nth_error 0 Hm0)|].
  intros i Hi.
  destruct (Hst i Hi)
    as (k & s & a & m & a1 & Hk & Hs & Ha & Hm & _ & _ & _ & _ & _ & Hm1
        & _).
  exists k, s, a. split; [exact Hk|]. split; [exact Hs|].
  split; [exact Ha|].
  rewrite (nth_nth_error 0 Hm1), (nth_nth_error 0 Hm). reflexivity.
Qed.

(** C7.  The alive-mask of the rollout starts at [mask[0] = 1] and follows
    [mask[i+1] = mask[i] * (1 - terminal_i)]; for every trajectory whose
    terminal flags lie in [[0, 1]] it never increases, stays in [[0, 1]],
    and once it is 0 it is 0 at every later step. *)
Theorem alive_mask_monotone (H : nat) (Robs : State) (Ra : Action)
  (key0 : PRNGKey) :
  exists l,
    imagine_foward H Robs Ra key0 = Ok l /\
    mask_recurrence H l /\
    (terminal_flags_in_unit H l -> alive_mask_invariant H (mask_weights l)).
Proof.
  destruct (imagine_foward_unrolled H Robs Ra key0) as (l & El & Hun).
  pose proof (unrolled_mask_recurrence _ _ _ _ _ _ Hun) as Hrec.
  exists l. split; [exact El|]. split; [exact Hrec|].
  intros Hterm. destruct Hrec as (_ & H0 & Hstep).
  apply alive_mask_of_recurrence; [exact H0|].
  intros i Hi. destruct (Hstep i Hi) as (k & s & a & Ek & Es & Ea & E).
  exists (terminal_of (model (rng1_of k) s a)).
  destruct (Hterm i k s a Hi Ek Es Ea) as [Ht0 Ht1].
  split; [exact Ht0|]. split; [exact Ht1 | exact E].
Qed.
End MaskClaims.

(** ** The divisor of the lambda recursion *)

Lemma firstn_reversed_range (H n : nat) :
  (n <= H)%nat -> firstn n (reversed (range H)) = reversed (seq (H - n) n).
Proof.
  intros Hn. unfold reversed, range.
  replace H with ((H - n) + n)%nat at 1 by lia.
  rewrite seq_app, rev_app_distr. simpl.
  rewrite firstn_app, length_rev, length_seq, Nat.sub_diag. simpl.
  rewrite app_nil_r. apply firstn_all2. rewrite length_rev, length_seq. lia.
Qed.

Section DivisorClaims.
Context {C : Collaborators}.

Lemma lambda_loop_prefix_ge1 (discount lamb : Qc) (H : nat) (l : lists)
  (n : nat) :
  0 <= lamb -> shaped H l -> (n <= H)%nat ->
  exists q_rollout lamb_weight,
    lambda_loop_prefix discount lamb H l n = Ok (q_rollout, lamb_weight) /\
    lamb_weight = lamb_weight_after lamb n /\
    1 <= lamb_weight /\ 1 <= 1 + lamb * lamb_weight.
Proof.
  intros Hl Hsh Hn. unfold lambda_loop_prefix.
  rewrite (py_last_nth (q_values l) H 0 (shaped_q_values Hsh)). cbn [bind].
  rewrite (firstn_reversed_range H n Hn).
  destruct (lambda_loop_Ok discount lamb H l n (H - n) Hl Hsh ltac:(lia))
    as (q & w & E).
  destruct (lambda_loop_inv discount lamb H l n (H - n) q w Hsh
              ltac:(lia) E) as (_ & Hw & _).
  exists q, w. split; [exact E|]. split; [exact Hw|]. subst w.
  pose proof (lamb_weight_after_ge1 lamb n Hl) as Hge.
  split; [exact Hge|]. apply divisor_ge1; assumption.
Qed.

(** C10.  For lambda >= 0 the accumulated weight [lamb_weight] is at least
    1 throughout the lambda recursion, in the forward pass and in its
    perturbed replay: it starts at 1 and every iteration maps it to
    [1 + lamb * lamb_weight].  So the divisor [1 + lamb * lamb_weight] is
    at least 1 and the recursion never divides by zero. *)
Theorem lamb_weight_at_least_one (discount lamb : Qc) (H : nat)
  (delta_a : list Action) (Robs : State) (Ra : Action) (key0 : PRNGKey)
  (l : lists) :
  0 <= lamb ->
  imagine_foward H Robs Ra key0 = Ok l \/
  imagine_backward H delta_a Robs Ra key0 = Ok l ->
  (forall n, (n <= H)%nat ->
     exists q_rollout lamb_weight,
       lambda_loop_prefix discount lamb H l n
       = Ok (q_rollout, lamb_weight) /\
       lamb_weight = lamb_weight_after lamb n /\
       1 <= lamb_weight /\ 1 <= 1 + lamb * lamb_weight) /\
  exists q_rollout, lambda_returns discount lamb H l = Ok q_rollout.
Proof.
  intros Hl Hrun.
  assert (Hsh : shaped H l).
  { destruct Hrun as [El|El].
    - destruct (imagine_foward_unrolled H Robs Ra key0) as (l' & El' & Hun).
      rewrite El in El'. injection El' as <-. exact (unrolled_shaped Hun).
    - destruct (imagine_backward_unrolled H delta_a Robs Ra key0 l El)
        as (d0 & a0 & _ & _ & Hun).
      exact (unrolled_shaped Hun). }
  split.
  - intros n Hn. apply lambda_loop_prefix_ge1; assumption.
  - apply lambda_returns_Ok; assumption.
Qed.
End DivisorClaims.

(** ** Replaying a rollout *)

Lemma firstn_S_snoc {A : Type} (l : list A) (n : nat) (x : A) :
  nth_error l n = Some x -> firstn (S n) l = firstn n l ++ [x].
Proof.
  revert n; induction l as [|y l IH]; intros [|n] E; simpl in *;
    try discriminate.
  - injection E as ->. reflexivity.
  - rewrite (IH n E). reflexivity.
Qed.

Lemma nth_error_firstn_lt {A : Type} (l : list A) (n i : nat) :
  (i < n)%nat -> nth_error (firstn n l) i = nth_error l i.
Proof.
  intros Hi. rewrite nth_error_firstn.
  destruct (Nat.ltb_spec i n); [reflexivity | lia].
Qed.

Lemma mapM_Ok_map {A B : Type} (f : A -> res B) (g : A -> B) (l : list A) :
  (forall x, In x l -> f x = Ok (g x)) -> mapM f l = Ok (map g l).
Proof.
  induction l as [|x l IH]; intros Hf; simpl; [reflexivity|].
  rewrite (Hf x) by (left; reflexivity). cbn [bind].
  rewrite IH by (intros y Hy; apply Hf; right; exact Hy). reflexivity.
Qed.

Lemma jnp_add_zeros (a : list Qc) : jnp_add a (zeros_like1 a) = Ok a.
Proof.
  unfold jnp_add, broadcast, zeros_like1.
  rewrite length_map, Nat.eqb_refl.
  rewrite (mapM_Ok_map _ (fun p => fst p + snd p)) by reflexivity.
  f_equal. induction a as [|x a IH]; simpl; [reflexivity|].
  rewrite Qcplus_0_r. f_equal. exact IH.
Qed.

Lemma jnp_index_in_range {A : Type} (a : list A) (i : nat) (x : A) :
  nth_error a i = Some x -> jnp_index a i = Ok x.
Proof.
  intros E. assert (Hi : (i < length a)%nat).
  { apply nth_error_Some. congruence. }
  unfold jnp_index. destruct a as [|y a]; [simpl in Hi; lia|].
  rewrite Nat.min_l by lia. f_equal. apply nth_error_nth. exact E.
Qed.

Lemma jnp_index_zeros_like2 (acts : list (list Qc)) (i : nat)
  (a : list Qc) :
  nth_error acts i = Some a ->
  jnp_index (zeros_like2 acts) i = Ok (zeros_like1 a).
Proof.
  intros E. apply jnp_index_in_range. unfold zeros_like2.
  rewrite nth_error_map, E. reflexivity.
Qed.

Section Replay.
Context {C : Collaborators}.

Lemma truncate_shaped (H n : nat) (l : lists) :
  shaped H l -> (n <= H)%nat -> shaped n (truncate n l).
Proof.
  intros [Hs Hr Ha Hm Hk Hq] Hn.
  split; unfold truncate; cbn [states rewards actions mask_weights keys
                                 q_values];
    rewrite length_firstn; lia.
Qed.

Lemma truncate_all (H : nat) (l : lists) : shaped H l -> truncate H l = l.
Proof.
  intros [Hs Hr Ha Hm Hk Hq]. destruct l as [st rw ac mw ks qv].
  unfold truncate. cbn [states rewards actions mask_weights keys q_values]
    in *.
  rewrite (firstn_all2 st), (firstn_all2 rw), (firstn_all2 ac),
    (firstn_all2 mw), (firstn_all2 ks), (firstn_all2 qv) by lia.
  reflexivity.
Qed.

Lemma truncate_extend next_action (H n : nat) (l : lists) k s a m a_next :
  (n < H)%nat -> shaped H l ->
  nth_error (keys l) n = Some k -> nth_error (states l) n = Some s ->
  nth_error (actions l) n = Some a ->
  nth_error (mask_weights l) n = Some m ->
  step_at next_action l n ->
  nth_error (actions l) (S n) = Some a_next ->
  extend (truncate n l) k s a m a_next = truncate (S n) l.
Proof.
  intros Hn Hsh Ek Es Ea Em
    (k' & s' & a' & m' & a1 & Hk & Hs & Ha & Hm & _ & Hk1 & Hs1 & Hr & Ha1
     & Hm1 & Hq1) Ea1.
  assert (k' = k) by congruence. assert (s' = s) by congruence.
  assert (a' = a) by congruence. assert (m' = m) by congruence.
  assert (a1 = a_next) by congruence. subst k' s' a' m' a1.
  unfold extend, truncate.
  cbn [states rewards actions mask_weights keys q_values].
  rewrite (firstn_S_snoc (states l) (S n) _ Hs1).
  rewrite (firstn_S_snoc (rewards l) n _ Hr).
  rewrite (firstn_S_snoc (actions l) (S n) _ Ha1).
  rewrite (firstn_S_snoc (mask_weights l) (S n) _ Hm1).
  rewrite (firstn_S_snoc (keys l) (S n) _ Hk1).
  rewrite (firstn_S_snoc (q_values l) (S n) _ Hq1).
  reflexivity.
Qed.

Lemma truncate_init next_action Robs a0 key0 (H : nat) (l : lists) :
  unrolled next_action Robs a0 key0 H l ->
  truncate 0 l = foward_init Robs a0 key0.
Proof.
  intros [_ Hs0 Ha0 Hk0 Hm0 Hq0 _]. unfold truncate, foward_init.
  rewrite (firstn_S_snoc _ 0 _ Hs0), (firstn_S_snoc _ 0 _ Ha0),
    (firstn_S_snoc _ 0 _ Hk0), (firstn_S_snoc _ 0 _ Hm0),
    (firstn_S_snoc _ 0 _ Hq0).
  reflexivity.
Qed.

(** Lists that satisfy the step relation of the perturbed rollout are the
    ones the perturbed rollout computes. *)
Lemma backward_replay delta_a Robs a0 key0 (H : nat) (l : lists) (n : nat) :
  unrolled (next_action_backward delta_a) Robs a0 key0 H l ->
  (n <= H)%nat ->
  for_ (range n) (backward_step delta_a) (foward_init Robs a0 key0)
  = Ok (truncate n l).
Proof.
  intros Hun. induction n as [|n IH]; intros Hn.
  - simpl. rewrite (truncate_init _ _ _ _ _ _ Hun). reflexivity.
  - rewrite for__range_S, (IH ltac:(lia)). cbn [bind].
    pose proof (unrolled_shaped Hun) as Hsh.
    pose proof (unrolled_steps Hun (i := n) ltac:(lia)) as Hstep.
    pose proof Hstep
      as (k & s & a & m & a1 & Hk & Hs & Ha & Hm & Hna & _ & _ & _ & Ha1
          & _).
    assert (Htr : shaped n (truncate n l)).
    { apply (truncate_shaped H); [assumption | lia]. }
    rewrite (@backward_step_extend _ delta_a n (truncate n l) k s a m Htr).
    + rewrite Hna. cbn [bind]. f_equal.
      apply (truncate_extend (next_action_backward delta_a) H); auto; lia.
    + unfold truncate; cbn [keys]. rewrite nth_error_firstn_lt by lia. auto.
    + unfold truncate; cbn [states]. rewrite nth_error_firstn_lt by lia.
      auto.
    + unfold truncate; cbn [actions]. rewrite nth_error_firstn_lt by lia.
      auto.
    + unfold truncate; cbn [mask_weights].
      rewrite nth_error_firstn_lt by lia. auto.
Qed.

(** The lists of the forward rollout satisfy the step relation of the
    rollout perturbed by zeros of the shape of its actions. *)
Lemma unrolled_zero_perturbation Robs Ra key0 (H : nat) (l : lists) :
  unrolled next_action_foward Robs Ra key0 H l ->
  unrolled (next_action_backward (zeros_like2 (actions l))) Robs Ra key0
    H l.
Proof.
  intros [Hsh Hs0 Ha0 Hk0 Hm0 Hq0 Hst].
  split; try assumption.
  intros i Hi.
  destruct (Hst i Hi)
    as (k & s & a & m & a1 & Hk & Hs & Ha & Hm & Hna & Hk1 & Hs1 & Hr & Ha1
        & Hm1 & Hq1).
  exists k, s, a, m, a1. repeat (split; [assumption|]).
  split; [|repeat (split; [assumption|]); assumption].
  unfold next_action_backward. rewrite Nat.add_1_r.
  rewrite (jnp_index_zeros_like2 _ _ _ Ha1). cbn [bind].
  unfold next_action_foward in Hna. injection Hna as ->.
  apply jnp_add_zeros.
Qed.

(** At the zero perturbation the perturbed rollout is the forward one. *)
Lemma imagine_backward_zeros (H : nat) Robs Ra key0 (l : lists) :
  imagine_foward H Robs Ra key0 = Ok l ->
  imagine_backward H (zeros_like2 (actions l)) Robs Ra key0 = Ok l.
Proof.
  intros El.
  destruct (imagine_foward_unrolled H Robs Ra key0) as (l' & El' & Hun).
  rewrite El in El'. injection El' as <-.
  pose proof (unrolled_zero_perturbation _ _ _ _ _ Hun) as Hun0.
  unfold imagine_backward, backward_init.
  rewrite (jnp_index_zeros_like2 _ _ _ (unrolled_action0 Hun)). cbn [bind].
  rewrite jnp_add_zeros. cbn [bind].
  change (for_ (range H) (backward_step (zeros_like2 (actions l)))
               (foward_init Robs Ra key0) = Ok l).
  rewrite (backward_replay _ _ _ _ H l H Hun0 (le_n H)).
  rewrite (truncate_all H l (unrolled_shaped Hun)). reflexivity.
Qed.

(** C5.  For every start state, start action and key, the perturbed
    rollout function evaluated at the all-zero perturbation (of the shape
    of the actions of the forward pass) returns exactly the [q_rollout] of
    the forward pass on the same inputs, in the lambda-weighted and in the
    multi-step rule. *)
Theorem zero_perturbation_replays_foward (discount lamb : Qc) (H : nat)
  (expectile : Qc) (Robs : State) (Ra : Action) (key0 : PRNGKey) :
  0 <= lamb ->
  (exists states actions mask_weights q_rollout ep_weights,
     DPG_lambda_update_actor.calculate_gae_foward
       discount lamb H expectile Robs Ra key0
     = Ok (states, actions, mask_weights, q_rollout, ep_weights) /\
     DPG_lambda_update_actor.calculate_gae_backward
       discount lamb H (zeros_like2 actions) Robs Ra key0
     = Ok q_rollout) /\
  (exists states actions mask_weights q_rollout ep_weights,
     DPG_multistep_update_actor.calculate_gae_foward
       discount H expectile Robs Ra key0
     = Ok (states, actions, mask_weights, q_rollout, ep_weights) /\
     DPG_multistep_update_actor.calculate_gae_backward
       discount H (zeros_like2 actions) Robs Ra key0
     = Ok q_rollout).
Proof.
  intros Hl. split.
  - destruct (lambda_foward_parts discount lamb H expectile Robs Ra key0 Hl)
      as (l & q & ep & El & _ & Eq & _ & _ & Ecalc).
    exists (states l), (actions l), (mask_weights l), q, ep.
    split; [exact Ecalc|].
    unfold DPG_lambda_update_actor.calculate_gae_backward.
    rewrite (imagine_backward_zeros H Robs Ra key0 l El). exact Eq.
  - destruct (multistep_foward_parts discount H expectile Robs Ra key0)
      as (l & q & ep & El & _ & Eq & _ & _ & Ecalc).
    exists (states l), (actions l), (mask_weights l), q, ep.
    split; [exact Ecalc|].
    unfold DPG_multistep_update_actor.calculate_gae_backward.
    rewrite (imagine_backward_zeros H Robs Ra key0 l El). exact Eq.
Qed.
End Replay.

(** ** Two perturbed rollouts that differ at one step *)

Lemma firstn_snoc_agree {A : Type} (m L : nat) (l1 l2 : list A)
  (x1 x2 : A) :
  length l1 = L -> length l2 = L -> firstn m l1 = firstn m l2 ->
  ((L < m)%nat -> x1 = x2) ->
  firstn m (l1 ++ [x1]) = firstn m (l2 ++ [x2]).
Proof.
  intros H1 H2 Hf Hx. rewrite !firstn_app, H1, H2, Hf.
  destruct (Nat.lt_ge_cases L m) as [Hlt|Hge].
  - rewrite (Hx Hlt). reflexivity.
  - replace (m - L)%nat with 0%nat by lia. reflexivity.
Qed.

Lemma firstn_agree_nth_error {A : Type} (m i : nat) (l1 l2 : list A) :
  firstn m l1 = firstn m l2 -> (i < m)%nat ->
  nth_error l1 i = nth_error l2 i.
Proof.
  intros Hf Hi. rewrite <- (nth_error_firstn_lt l1 m i Hi), Hf.
  apply nth_error_firstn_lt. exact Hi.
Qed.

Lemma firstn_agree_nth {A : Type} (m i : nat) (l1 l2 : list A) (d : A) :
  firstn m l1 = firstn m l2 -> (i < m)%nat -> nth i l1 d = nth i l2 d.
Proof.
  intros Hf Hi.
  assert (E : nth i (firstn m l1) d = nth i (firstn m l2) d)
    by (rewrite Hf; reflexivity).
  rewrite !nth_firstn in E.
  destruct (Nat.ltb_spec i m); [exact E | lia].
Qed.

Section TwoRuns.
Context {C : Collaborators}.

Lemma jnp_index_agree (H k i : nat) (delta1 delta2 : list Action) :
  length delta1 = S H -> length delta2 = S H ->
  (forall i, i <> k -> nth_error delta1 i = nth_error delta2 i) ->
  (i <= H)%nat -> i <> k ->
  jnp_index delta1 i = jnp_index delta2 i.
Proof.
  intros H1 H2 Hagree Hi Hne.
  destruct (nth_error_lt delta1 i ltac:(lia)) as [d Ed].
  rewrite (jnp_index_in_range _ _ _ Ed).
  rewrite (Hagree i Hne) in Ed.
  rewrite (jnp_index_in_range _ _ _ Ed). reflexivity.
Qed.

Lemma backward_step_agree (H k n : nat) (delta1 delta2 : list Action)
  (l1 l2 l1' l2' : lists) :
  length delta1 = S H -> length delta2 = S H ->
  (forall i, i <> k -> nth_error delta1 i = nth_error delta2 i) ->
  (n < H)%nat -> shaped n l1 -> shaped n l2 -> agree_before k l1 l2 ->
  backward_step delta1 n l1 = Ok l1' ->
  backward_step delta2 n l2 = Ok l2' ->
  agree_before k l1' l2'.
Proof.
  intros Hd1 Hd2 Hagree Hn Hsh1 Hsh2 [As Ar Aa Am Ak Aq] E1 E2.
  destruct (shaped_reads Hsh1) as (k1 & s1 & a1 & m1 & Ek1 & Es1 & Ea1 & Em1).
  destruct (shaped_reads Hsh2) as (k2 & s2 & a2 & m2 & Ek2 & Es2 & Ea2 & Em2).
  rewrite (backward_step_extend delta1 Hsh1 Ek1 Es1 Ea1 Em1) in E1.
  rewrite (backward_step_extend delta2 Hsh2 Ek2 Es2 Ea2 Em2) in E2.
  apply bind_Ok in E1 as (x1 & En1 & E1). injection E1 as <-.
  apply bind_Ok in E2 as (x2 & En2 & E2). injection E2 as <-.
  assert (k2 = k1) by congruence. subst k2.
  assert (Hlt : (n < k)%nat -> s2 = s1 /\ a2 = a1 /\ m2 = m1).
  { intros Hnk.
    pose proof (firstn_agree_nth_error (S k) n _ _ As ltac:(lia)) as Es.
    pose proof (firstn_agree_nth_error k n _ _ Aa Hnk) as Ea.
    pose proof (firstn_agree_nth_error (S k) n _ _ Am ltac:(lia)) as Em.
    repeat split; congruence. }
  assert (Hx : (S n < k)%nat -> x2 = x1).
  { intros Hnk. destruct (Hlt ltac:(lia)) as (-> & -> & ->).
    unfold next_action_backward in En1, En2.
    rewrite (jnp_index_agree H k (n + 1) delta1 delta2 Hd1 Hd2 Hagree)
      in En1 by lia.
    congruence. }
  destruct Hsh1 as [Ls1 Lr1 La1 Lm1 Lk1 Lq1].
  destruct Hsh2 as [Ls2 Lr2 La2 Lm2 Lk2 Lq2].
  split; fields.
  - apply (firstn_snoc_agree (S k) (S n)); auto. intros Hnk.
    destruct (Hlt ltac:(lia)) as (-> & -> & ->). reflexivity.
  - apply (firstn_snoc_agree k n); auto. intros Hnk.
    destruct (Hlt Hnk) as (-> & -> & ->). reflexivity.
  - apply (firstn_snoc_agree k (S n)); auto. intros Hnk.
    symmetry. apply Hx. exact Hnk.
  - apply (firstn_snoc_agree (S k) (S n)); auto. intros Hnk.
    destruct (Hlt ltac:(lia)) as (-> & -> & ->). reflexivity.
  - rewrite Ak. reflexivity.
  - apply (firstn_snoc_agree k (S n)); auto. intros Hnk.
    destruct (Hlt ltac:(lia)) as (-> & -> & ->).
    rewrite (Hx Hnk). reflexivity.
Qed.

Lemma backward_init_agree (H k : nat) (delta1 delta2 : list Action)
  Robs Ra key0 (l1 l2 : lists) :
  length delta1 = S H -> length delta2 = S H ->
  (forall i, i <> k -> nth_error delta1 i = nth_error delta2 i) ->
  backward_init delta1 Robs Ra key0 = Ok l1 ->
  backward_init delta2 Robs Ra key0 = Ok l2 ->
  shaped 0 l1 /\ shaped 0 l2 /\ agree_before k l1 l2.
Proof.
  intros Hd1 Hd2 Hagree E1 E2. unfold backward_init in E1, E2.
  apply bind_Ok in E1 as (d1 & Ed1 & E1).
  apply bind_Ok in E1 as (x1 & Ex1 & E1). injection E1 as <-.
  apply bind_Ok in E2 as (d2 & Ed2 & E2).
  apply bind_Ok in E2 as (x2 & Ex2 & E2). injection E2 as <-.
  split; [split; reflexivity|]. split; [split; reflexivity|].
  assert (Hx : (0 < k)%nat -> x1 = x2).
  { intros Hk.
    rewrite (jnp_index_agree H k 0 delta1 delta2 Hd1 Hd2 Hagree) in Ed1
      by lia.
    congruence. }
  split; cbn [states rewards actions mask_weights keys q_values];
    try reflexivity.
  - apply (firstn_snoc_agree k 0 [] []); auto.
  - apply (firstn_snoc_agree k 0 [] []); auto.
    intros Hk. rewrite (Hx Hk). reflexivity.
Qed.

Lemma for_backward_shaped delta_a (n : nat) (l0 l : lists) :
  shaped 0 l0 ->
  for_ (range n) (backward_step delta_a) l0 = Ok l -> shaped n l.
Proof.
  intros H0. revert l. induction n as [|n IH]; intros l El.
  - simpl in El. injection El as <-. exact H0.
  - rewrite for__range_S in El. apply bind_Ok in El as (l' & El' & Est).
    specialize (IH l' El').
    destruct (shaped_reads IH) as (k & s & a & m & Ek & Es & Ea & Em).
    rewrite (backward_step_extend delta_a IH Ek Es Ea Em) in Est.
    apply bind_Ok in Est as (a_next & _ & Eext). injection Eext as <-.
    apply shaped_extend. exact IH.
Qed.

Lemma for_backward_agree (H k n : nat) (delta1 delta2 : list Action)
  (l01 l02 l1 l2 : lists) :
  length delta1 = S H -> length delta2 = S H ->
  (forall i, i <> k -> nth_error delta1 i = nth_error delta2 i) ->
  (n <= H)%nat -> shaped 0 l01 -> shaped 0 l02 -> agree_before k l01 l02 ->
  for_ (range n) (backward_step delta1) l01 = Ok l1 ->
  for_ (range n) (backward_step delta2) l02 = Ok l2 ->
  agree_before k l1 l2.
Proof.
  intros Hd1 Hd2 Hagree Hn Hs1 Hs2 H0. revert l1 l2.
  induction n as [|n IH]; intros l1 l2 E1 E2.
  - simpl in E1, E2. injection E1 as <-. injection E2 as <-. exact H0.
  - rewrite for__range_S in E1, E2.
    apply bind_Ok in E1 as (l1' & E1' & Est1).
    apply bind_Ok in E2 as (l2' & E2' & Est2).
    apply (backward_step_agree H k n delta1 delta2 l1' l2'); auto; try lia.
    + exact (for_backward_shaped delta1 n l01 l1' Hs1 E1').
    + exact (for_backward_shaped delta2 n l02 l2' Hs2 E2').
    + apply IH; auto. lia.
Qed.

(** Two perturbed rollouts whose perturbations differ only in row [k]
    coincide before step [k]. *)
Lemma imagine_backward_agree (H k : nat) (delta1 delta2 : list Action)
  Robs Ra key0 (l1 l2 : lists) :
  length delta1 = S H -> length delta2 = S H ->
  (forall i, i <> k -> nth_error delta1 i = nth_error delta2 i) ->
  imagine_backward H delta1 Robs Ra key0 = Ok l1 ->
  imagine_backward H delta2 Robs Ra key0 = Ok l2 ->
  shaped H l1 /\ shaped H l2 /\ agree_before k l1 l2.
Proof.
  intros Hd1 Hd2 Hagree E1 E2. unfold imagine_backward in E1, E2.
  apply bind_Ok in E1 as (l01 & E01 & E1).
  apply bind_Ok in E2 as (l02 & E02 & E2).
  destruct (backward_init_agree H k delta1 delta2 Robs Ra key0 l01 l02
              Hd1 Hd2 Hagree E01 E02) as (Hs1 & Hs2 & H0).
  split; [exact (for_backward_shaped delta1 H l01 l1 Hs1 E1)|].
  split; [exact (for_backward_shaped delta2 H l02 l2 Hs2 E2)|].
  exact (for_backward_agree H k H delta1 delta2 l01 l02 l1 l2 Hd1 Hd2
           Hagree (le_n H) Hs1 Hs2 H0 E1 E2).
Qed.
End TwoRuns.

Section TwoRunsReturns.
Context {C : Collaborators}.

Lemma lambda_return_agree (discount lamb : Qc) (H k : nat) (l1 l2 : lists)
  (q1 q2 : list Qc) :
  (k <= H)%nat -> agree_before k l1 l2 ->
  is_lambda_return discount lamb H l1 q1 ->
  is_lambda_return discount lamb H l2 q2 ->
  nth k q1 0 = nth k q2 0 ->
  forall j, (j < k)%nat -> nth j q1 0 = nth j q2 0.
Proof.
  intros Hk [_ Ar _ Am _ Aq] (_ & _ & R1) (_ & _ & R2) Ek.
  assert (Hd : forall d, (d <= k)%nat ->
                 nth (k - d) q1 0 = nth (k - d) q2 0).
  { induction d as [|d IH]; intros Hdk.
    - rewrite Nat.sub_0_r. exact Ek.
    - specialize (IH ltac:(lia)).
      rewrite (R1 (k - S d)%nat ltac:(lia)), (R2 (k - S d)%nat ltac:(lia)).
      cbv zeta. replace (k - S d + 1)%nat with (k - d)%nat by lia.
      rewrite IH.
      rewrite (firstn_agree_nth k (k - S d) _ _ 0 Aq ltac:(lia)).
      rewrite (firstn_agree_nth k (k - S d) _ _ 0 Ar ltac:(lia)).
      rewrite (firstn_agree_nth (S k) (k - S d) _ _ 0 Am ltac:(lia)).
      rewrite (firstn_agree_nth (S k) (k - d) _ _ 0 Am ltac:(lia)).
      reflexivity. }
  intros j Hj. replace j with (k - (k - j))%nat by lia. apply Hd. lia.
Qed.

Lemma multistep_return_agree (discount : Qc) (H k : nat) (l1 l2 : lists)
  (q1 q2 : list Qc) :
  (k <= H)%nat -> agree_before k l1 l2 ->
  is_multistep_return discount H l1 q1 ->
  is_multistep_return discount H l2 q2 ->
  nth k q1 0 = nth k q2 0 ->
  forall j, (j < k)%nat -> nth j q1 0 = nth j q2 0.
Proof.
  intros Hk [_ Ar _ Am _ _] (_ & _ & R1) (_ & _ & R2) Ek.
  assert (Hd : forall d, (d <= k)%nat ->
                 nth (k - d) q1 0 = nth (k - d) q2 0).
  { induction d as [|d IH]; intros Hdk.
    - rewrite Nat.sub_0_r. exact Ek.
    - specialize (IH ltac:(lia)).
      rewrite (R1 (k - S d)%nat ltac:(lia)), (R2 (k - S d)%nat ltac:(lia)).
      replace (k - S d + 1)%nat with (k - d)%nat by lia.
      rewrite IH.
      rewrite (firstn_agree_nth k (k - S d) _ _ 0 Ar ltac:(lia)).
      rewrite (firstn_agree_nth (S k) (k - S d) _ _ 0 Am ltac:(lia)).
      rewrite (firstn_agree_nth (S k) (k - d) _ _ 0 Am ltac:(lia)).
      reflexivity. }
  intros j Hj. replace j with (k - (k - j))%nat by lia. apply Hd. lia.
Qed.

(** C4, as the code has it.  Two runs of [calculate_gae_backward] that
    differ only in the perturbation [delta_a[k]] have the same imagined
    trajectory before step [k]: the same states and alive-masks up to
    index [k], the same actions, rewards and critic values below [k].
    The returns [q_rollout[j]] for [j < k] can differ only through
    [q_rollout[k]]: when the two runs have the same [q_rollout[k]], they
    have the same [q_rollout[j]] for every [j < k]. *)
Theorem perturbation_spares_earlier_steps (discount lamb : Qc) (H k : nat)
  (delta1 delta2 : list Action) (Robs : State) (Ra : Action)
  (key0 : PRNGKey) :
  (k <= H)%nat -> length delta1 = S H -> length delta2 = S H ->
  (forall i, i <> k -> nth_error delta1 i = nth_error delta2 i) ->
  (forall l1 l2,
     imagine_backward H delta1 Robs Ra key0 = Ok l1 ->
     imagine_backward H delta2 Robs Ra key0 = Ok l2 ->
     agree_before k l1 l2) /\
  (forall q1 q2,
     DPG_lambda_update_actor.calculate_gae_backward
       discount lamb H delta1 Robs Ra key0 = Ok q1 ->
     DPG_lambda_update_actor.calculate_gae_backward
       discount lamb H delta2 Robs Ra key0 = Ok q2 ->
     nth k q1 0 = nth k q2 0 ->
     forall j, (j < k)%nat -> nth j q1 0 = nth j q2 0) /\
  (forall q1 q2,
     DPG_multistep_update_actor.calculate_gae_backward
       discount H delta1 Robs Ra key0 = Ok q1 ->
     DPG_multistep_update_actor.calculate_gae_backward
       discount H delta2 Robs Ra key0 = Ok q2 ->
     nth k q1 0 = nth k q2 0 ->
     forall j, (j < k)%nat -> nth j q1 0 = nth j q2 0).
Proof.
  intros Hk Hd1 Hd2 Hagree. split; [|split].
  - intros l1 l2 E1 E2.
    apply (imagine_backward_agree H k delta1 delta2 Robs Ra key0 l1 l2
             Hd1 Hd2 Hagree E1 E2).
  - intros q1 q2 E1 E2.
    unfold DPG_lambda_update_actor.calculate_gae_backward in E1, E2.
    apply bind_Ok in E1 as (l1 & El1 & Eq1).
    apply bind_Ok in E2 as (l2 & El2 & Eq2).
    destruct (imagine_backward_agree H k delta1 delta2 Robs Ra key0 l1 l2
                Hd1 Hd2 Hagree El1 El2) as (Hs1 & Hs2 & Hag).
    apply (lambda_return_agree discount lamb H k l1 l2 q1 q2 Hk Hag).
    + apply is_lambda_return_of_spec; assumption.
    + apply is_lambda_return_of_spec; assumption.
  - intros q1 q2 E1 E2.
    unfold DPG_multistep_update_actor.calculate_gae_backward in E1, E2.
    apply bind_Ok in E1 as (l1 & El1 & Eq1).
    apply bind_Ok in E2 as (l2 & El2 & Eq2).
    destruct (imagine_backward_agree H k delta1 delta2 Robs Ra key0 l1 l2
                Hd1 Hd2 Hagree El1 El2) as (Hs1 & Hs2 & Hag).
    apply (multistep_return_agree discount H k l1 l2 q1 q2 Hk Hag).
    + destruct (multistep_returns_spec discount H l1 Hs1)
        as (q & Eq & Hlen & Hlast & Hrec).
      rewrite Eq1 in Eq. injection Eq as <-.
      split; [exact Hlen|]. split; [exact Hlast|]. intros i Hi.
      rewrite (Hrec i Hi). unfold q_next_at. rewrite Nat.add_1_r.
      reflexivity.
    + destruct (multistep_returns_spec discount H l2 Hs2)
        as (q & Eq & Hlen & Hlast & Hrec).
      rewrite Eq2 in Eq. injection Eq as <-.
      split; [exact Hlen|]. split; [exact Hlast|]. intros i Hi.
      rewrite (Hrec i Hi). unfold q_next_at. rewrite Nat.add_1_r.
      reflexivity.
Qed.
End TwoRunsReturns.

(** C4 as stated fails.  On the small instance with horizon 1, discount 1
    and lambda 1/2, two perturbations that differ only at step 1 give
    different values of [q_rollout[0]]: 3 and 10/3 in the lambda rule, 5
    and 6 in the multi-step rule. *)
Lemma later_perturbation_changes_earlier_return :
  let delta1 := [[0]; [0]] in
  let delta2 := [[0]; [1]] in
  (forall i, i <> 1%nat -> nth_error delta1 i = nth_error delta2 i) /\
  (exists q1 q2,
     @DPG_lambda_update_actor.calculate_gae_backward (toy 0)
       1 half 1 delta1 1 [1] 0%nat = Ok q1 /\
     @DPG_lambda_update_actor.calculate_gae_backward (toy 0)
       1 half 1 delta2 1 [1] 0%nat = Ok q2 /\
     map this q1 = [3 # 1; 4 # 1]%Q /\
     map this q2 = [10 # 3; 5 # 1]%Q /\
     nth 0 q1 0 <> nth 0 q2 0) /\
  (exists q1 q2,
     @DPG_multistep_update_actor.calculate_gae_backward (toy 0)
       1 1 delta1 1 [1] 0%nat = Ok q1 /\
     @DPG_multistep_update_actor.calculate_gae_backward (toy 0)
       1 1 delta2 1 [1] 0%nat = Ok q2 /\
     map this q1 = [5 # 1; 4 # 1]%Q /\
     map this q2 = [6 # 1; 5 # 1]%Q /\
     nth 0 q1 0 <> nth 0 q2 0).
Proof.
  cbv zeta. split; [|split].
  - intros [|[|i]] Hi; [reflexivity | contradiction | reflexivity].
  - eexists _, _. split; [vm_compute; reflexivity|].
    split; [vm_compute; reflexivity|].
    split; [vm_compute; reflexivity|].
    split; [vm_compute; reflexivity|].
    intros E. apply (f_equal this) in E. vm_compute in E. discriminate.
  - eexists _, _. split; [vm_compute; reflexivity|].
    split; [vm_compute; reflexivity|].
    split; [vm_compute; reflexivity|].
    split; [vm_compute; reflexivity|].
    intros E. apply (f_equal this) in E. vm_compute in E. discriminate.
Qed.

(** ** Sums, products and means of arrays *)

Lemma Qc_of_nat_mul (n m : nat) :
  Qc_of_nat (n * m) = Qc_of_nat n * Qc_of_nat m.
Proof.
  unfold Qc_of_nat, Qcmult. apply Q2Qc_eq_iff.
  unfold Q2Qc. cbn [this]. rewrite !Qred_correct.
  rewrite Nat2Z.inj_mul, inject_Z_mult. reflexivity.
Qed.

Lemma Qc_of_nat_add (n m : nat) :
  Qc_of_nat (n + m) = Qc_of_nat n + Qc_of_nat m.
Proof.
  unfold Qc_of_nat, Qcplus. apply Q2Qc_eq_iff.
  unfold Q2Qc. cbn [this]. rewrite !Qred_correct.
  rewrite Nat2Z.inj_add, inject_Z_plus. reflexivity.
Qed.

Lemma Qc_of_nat_pos (n : nat) : (0 < n)%nat -> 0 < Qc_of_nat n.
Proof.
  intros Hn. unfold Qc_of_nat. qc_to_q.
  change 0%Q with (inject_Z 0). rewrite <- Zlt_Qlt. lia.
Qed.

Lemma Qc_of_nat_neq0 (n : nat) : (0 < n)%nat -> Qc_of_nat n <> 0.
Proof.
  intros Hn E. pose proof (Qc_of_nat_pos n Hn) as Hp. rewrite E in Hp.
  revert Hp. qc_to_q. lra.
Qed.

Lemma sum1_app (a b : list Qc) : sum1 (a ++ b) = sum1 a + sum1 b.
Proof.
  induction a as [|x a IH]; simpl.
  - rewrite Qcplus_0_l. reflexivity.
  - rewrite IH. ring.
Qed.

Lemma sum1_div (v : list Qc) (c : Qc) :
  sum1 (map (fun s => s / c) v) = sum1 v / c.
Proof.
  induction v as [|x v IH]; simpl.
  - unfold Qcdiv. rewrite Qcmult_0_l. reflexivity.
  - rewrite IH. unfold Qcdiv. ring.
Qed.

Lemma sum1_vadd (a b : list Qc) :
  length a = length b -> sum1 (vadd a b) = sum1 a + sum1 b.
Proof.
  revert b; induction a as [|x a IH]; intros [|y b] Hlen; simpl in *;
    try discriminate.
  - ring.
  - unfold vadd in IH. rewrite IH by lia. ring.
Qed.

Lemma length_vadd (a b : list Qc) :
  length a = length b -> length (vadd a b) = length a.
Proof.
  intros Hlen. unfold vadd. rewrite length_map, length_combine. lia.
Qed.

Lemma sum1_fold_vadd (rs : list (list Qc)) (r : list Qc) :
  rect2 (length r) rs -> sum1 (fold_left vadd rs r) = sum1 r + sum2 rs.
Proof.
  revert r; induction rs as [|r' rs IH]; intros r Hrect; simpl.
  - unfold sum2. simpl. ring.
  - inversion Hrect as [|? ? Hr' Hrs]; subst.
    rewrite IH by (rewrite length_vadd by auto; exact Hrs).
    rewrite sum1_vadd by auto. unfold sum2. simpl. ring.
Qed.

(** The mean of the rows of a matrix with at least one row. *)
Lemma mean_rows_Ok (A : nat) (m : tensor2) :
  (0 < length m)%nat -> rect2 A m ->
  exists v, mean_rows m = Ok v /\ sum1 v = sum2 m / Qc_of_nat (length m).
Proof.
  intros Hlen Hrect. destruct m as [|r rs]; [simpl in Hlen; lia|].
  unfold mean_rows.
  rewrite (mapM_Ok_map _ (fun s => s / Qc_of_nat (length (r :: rs)))).
  - eexists. split; [reflexivity|]. rewrite sum1_div. f_equal.
    inversion Hrect as [|? ? Hr Hrs]; subst.
    rewrite sum1_fold_vadd by exact Hrs. reflexivity.
  - intros s _. apply jdiv_Ok. apply Qc_of_nat_neq0. exact Hlen.
Qed.

Lemma mean_axis1_Ok (B A : nat) (t : tensor3) :
  (0 < B)%nat -> rect3 B A t ->
  exists m, mean_axis1 t = Ok m /\
            sum2 m = sum_over_horizon_of_batch_mean t.
Proof.
  intros HB Hrect. unfold mean_axis1, sum_over_horizon_of_batch_mean.
  induction t as [|x t IH]; simpl.
  - exists []. split; reflexivity.
  - inversion Hrect as [|? ? [Hx Hxr] Ht]; subst.
    destruct (mean_rows_Ok A x ltac:(lia) Hxr) as (v & Ev & Hv).
    destruct (IH Ht) as (m & Em & Hm).
    rewrite Ev. cbn [bind]. rewrite Em. cbn [bind].
    eexists. split; [reflexivity|]. unfold sum2 in *. simpl.
    rewrite Hv, Hm. reflexivity.
Qed.

Lemma zip_with_map_l {A A' B D : Type} (f : A' -> B -> D) (h : A -> A')
  (l1 : list A) (l2 : list B) :
  zip_with f (map h l1) l2 = zip_with (fun x y => f (h x) y) l1 l2.
Proof.
  unfold zip_with. revert l2; induction l1 as [|x l1 IH]; intros [|y l2];
    simpl; try reflexivity.
  rewrite IH. reflexivity.
Qed.

Lemma length_zip_with {A B D : Type} (f : A -> B -> D) (l1 : list A)
  (l2 : list B) :
  length l1 = length l2 -> length (zip_with f l1 l2) = length l1.
Proof.
  intros Hlen. unfold zip_with. rewrite length_map, length_combine. lia.
Qed.

Lemma Forall_zip_with {A B D : Type} (f : A -> B -> D) (P : D -> Prop)
  (l1 : list A) (l2 : list B) :
  (forall x y, In x l1 -> In y l2 -> P (f x y)) ->
  Forall P (zip_with f l1 l2).
Proof.
  intros Hf. unfold zip_with. apply Forall_forall. intros d Hd.
  apply in_map_iff in Hd as ([x y] & <- & Hin).
  apply Hf; [eapply in_combine_l | eapply in_combine_r]; exact Hin.
Qed.

Lemma broadcast_same_length {A B D : Type} (f : A -> B -> res D)
  (g : A -> B -> D) (l1 : list A) (l2 : list B) :
  length l1 = length l2 ->
  (forall x y, In x l1 -> In y l2 -> f x y = Ok (g x y)) ->
  broadcast f l1 l2 = Ok (zip_with g l1 l2).
Proof.
  intros Hlen Hf. unfold broadcast, zip_with.
  rewrite Hlen, Nat.eqb_refl.
  apply mapM_Ok_map. intros [x y] Hin. cbn [fst snd].
  apply Hf; [eapply in_combine_l | eapply in_combine_r]; exact Hin.
Qed.

Lemma mul1_same (a b : list Qc) :
  length a = length b -> mul1 a b = Ok (zip_with Qcmult a b).
Proof.
  intros Hlen. apply broadcast_same_length; [exact Hlen | reflexivity].
Qed.

Lemma mul1_scalar (w : Qc) (g : list Qc) :
  mul1 [w] g = Ok (map (Qcmult w) g).
Proof.
  unfold mul1, broadcast. destruct (length [w] =? length g) eqn:E.
  - destruct g as [|g0 [|g1 g]]; simpl in E; try discriminate. reflexivity.
  - apply mapM_Ok_map. reflexivity.
Qed.

Lemma mul2_same (A : nat) (a b : tensor2) :
  length a = length b -> rect2 A a -> rect2 A b ->
  mul2 a b = Ok (zip_with (zip_with Qcmult) a b).
Proof.
  intros Hlen Ha Hb. apply broadcast_same_length; [exact Hlen|].
  intros x y Hx Hy. apply mul1_same.
  rewrite (proj1 (Forall_forall _ _) Ha x Hx).
  rewrite (proj1 (Forall_forall _ _) Hb y Hy). reflexivity.
Qed.

Lemma mul3_same (B A : nat) (a b : tensor3) :
  length a = length b -> rect3 B A a -> rect3 B A b ->
  mul3 a b = Ok (zip_with (zip_with (zip_with Qcmult)) a b).
Proof.
  intros Hlen Ha Hb. apply broadcast_same_length; [exact Hlen|].
  intros x y Hx Hy.
  destruct (proj1 (Forall_forall _ _) Ha x Hx) as [Lx Rx].
  destruct (proj1 (Forall_forall _ _) Hb y Hy) as [Ly Ry].
  apply (mul2_same A); [congruence | assumption | assumption].
Qed.

Lemma mul2_expand (wrow : list Qc) (grow : tensor2) :
  length wrow = length grow ->
  mul2 (map (fun x => [x]) wrow) grow
  = Ok (zip_with (fun w g => map (Qcmult w) g) wrow grow).
Proof.
  intros Hlen.
  rewrite (broadcast_same_length mul1
             (fun wl g => map (Qcmult (hd 0 wl)) g)).
  - rewrite zip_with_map_l. reflexivity.
  - rewrite length_map. exact Hlen.
  - intros wl g Hwl _. apply in_map_iff in Hwl as (w & <- & _).
    apply mul1_scalar.
Qed.

Lemma mul3_expand (B : nat) (w : tensor2) (g : tensor3) :
  length w = length g -> rect2 B w ->
  Forall (fun m => length m = B) g ->
  mul3 (expand_last w) g
  = Ok (zip_with (zip_with (fun w g => map (Qcmult w) g)) w g).
Proof.
  intros Hlen Hw Hg. unfold expand_last.
  rewrite (broadcast_same_length mul2
             (fun wl m =>
                zip_with (fun w g => map (Qcmult (hd 0 w)) g) wl m)).
  - rewrite zip_with_map_l. f_equal. unfold zip_with at 1 3.
    apply map_ext. intros [wrow m]. cbn [fst snd].
    rewrite zip_with_map_l. reflexivity.
  - rewrite length_map. exact Hlen.
  - intros wl m Hwl Hm. apply in_map_iff in Hwl as (wrow & <- & Hwrow).
    rewrite mul2_expand.
    + rewrite zip_with_map_l. reflexivity.
    + rewrite (proj1 (Forall_forall _ _) Hw wrow Hwrow).
      rewrite (proj1 (Forall_forall _ _) Hg m Hm). reflexivity.
Qed.

(** The value of the loss expression on arrays of shapes
    [(n, B)], [(n, B, A)] and [(n, B, A)] with a non-empty batch axis. *)
Lemma dpg_loss_value (n B A : nat) (ep_weights : tensor2)
  (grad_gae actions_grad : tensor3) :
  (0 < B)%nat ->
  length ep_weights = n -> rect2 B ep_weights ->
  length grad_gae = n -> rect3 B A grad_gae ->
  length actions_grad = n -> rect3 B A actions_grad ->
  rect3 B A (weighted ep_weights grad_gae actions_grad) /\
  length (weighted ep_weights grad_gae actions_grad) = n /\
  dpg_loss ep_weights grad_gae actions_grad
  = Ok (- sum_over_horizon_of_batch_mean
            (weighted ep_weights grad_gae actions_grad)).
Proof.
  intros HB Lw Rw Lg Rg La Ra.
  set (wg := zip_with (zip_with (fun w g => map (Qcmult w) g))
               ep_weights grad_gae).
  assert (Lwg : length wg = n).
  { unfold wg. rewrite length_zip_with; congruence. }
  assert (Rwg : rect3 B A wg).
  { unfold wg. apply Forall_zip_with. intros wrow m Hwrow Hm.
    pose proof (proj1 (Forall_forall _ _) Rw wrow Hwrow) as Lwrow.
    destruct (proj1 (Forall_forall _ _) Rg m Hm) as [Lm Rm].
    split.
    - rewrite length_zip_with; congruence.
    - apply Forall_zip_with. intros w g _ Hg. rewrite length_map.
      exact (proj1 (Forall_forall _ _) Rm g Hg). }
  assert (Rx : rect3 B A (weighted ep_weights grad_gae actions_grad)).
  { unfold weighted. fold wg. apply Forall_zip_with. intros m1 m2 H1 H2.
    destruct (proj1 (Forall_forall _ _) Rwg m1 H1) as [L1 R1].
    destruct (proj1 (Forall_forall _ _) Ra m2 H2) as [L2 R2].
    split.
    - rewrite length_zip_with; congruence.
    - apply Forall_zip_with. intros r1 r2 Hr1 Hr2.
      rewrite length_zip_with.
      + exact (proj1 (Forall_forall _ _) R1 r1 Hr1).
      + rewrite (proj1 (Forall_forall _ _) R1 r1 Hr1).
        rewrite (proj1 (Forall_forall _ _) R2 r2 Hr2). reflexivity. }
  split; [exact Rx|]. split.
  { unfold weighted. fold wg. rewrite length_zip_with; congruence. }
  unfold dpg_loss.
  assert (Hg1 : Forall (fun m : tensor2 => length m = B) grad_gae).
  { eapply Forall_impl; [|exact Rg]. intros m [Hm _]. exact Hm. }
  rewrite (mul3_expand B ep_weights grad_gae ltac:(congruence) Rw Hg1).
  cbn [bind]. fold wg.
  rewrite (mul3_same B A wg actions_grad ltac:(congruence) Rwg Ra).
  cbn [bind].
  change (zip_with (zip_with (zip_with Qcmult)) wg actions_grad)
    with (weighted ep_weights grad_gae actions_grad).
  destruct (mean_axis1_Ok B A _ HB Rx) as (m & Em & Hm).
  rewrite Em. cbn [bind]. rewrite Hm. reflexivity.
Qed.

Lemma size2_rect {X : Type} (B : nat) (m : list (list X)) :
  rect2 B m -> size2 m = (length m * B)%nat.
Proof.
  intros Hrect. induction Hrect as [|row m Hrow _ IH]; simpl; [reflexivity|].
  rewrite IH, Hrow. lia.
Qed.

Lemma sum_of_batch_means_scaled (n B A : nat) (x : tensor3) :
  (0 < n)%nat -> (0 < B)%nat -> length x = n -> rect3 B A x ->
  sum_over_horizon_of_batch_mean x
  = Qc_of_nat n * mean_over_horizon_and_batch x.
Proof.
  intros Hn HB Lx Rx.
  unfold sum_over_horizon_of_batch_mean, mean_over_horizon_and_batch.
  assert (Hs : size2 x = (n * B)%nat).
  { rewrite <- Lx. apply size2_rect. eapply Forall_impl; [|exact Rx].
    intros m [Hm _]. exact Hm. }
  rewrite Hs, Qc_of_nat_mul.
  assert (Hsum : sum1 (map (fun m : tensor2 => sum2 m / Qc_of_nat (length m))
                         x)
                 = sum3 x / Qc_of_nat B).
  { clear Lx Hs. induction Rx as [|m x [Hm _] _ IH]; simpl.
    - unfold sum3, Qcdiv. simpl. rewrite Qcmult_0_l. reflexivity.
    - rewrite IH, Hm. unfold sum3. simpl. unfold Qcdiv. ring. }
  rewrite Hsum. field.
  split; [apply Qc_of_nat_neq0; exact HB | apply Qc_of_nat_neq0; exact Hn].
Qed.

(** ** The actor loss *)

Section LossClaims.
Context {C : Collaborators} {P : BatchPolicy C}.

Lemma lambda_actor_loss_fn_loss (lamb : Qc) (fo : foward_out)
  (grad_gae : tensor3) (actor_params : Params) (loss : Qc)
  (info : DPG_lambda_update_actor.InfoDict) :
  DPG_lambda_update_actor.actor_loss_fn lamb fo grad_gae actor_params
  = Ok (loss, info) ->
  dpg_loss (ep_weights0 fo) grad_gae
    (get_deter_batch (actor_apply actor_params (states0 fo))) = Ok loss /\
  DPG_lambda_update_actor.info_actor_loss info = loss.
Proof.
  unfold DPG_lambda_update_actor.actor_loss_fn. cbv zeta. intros E.
  apply bind_Ok in E as (x & Ex & E). split; [|].
  - rewrite Ex. f_equal.
    repeat (apply bind_Ok in E as (? & _ & E)). congruence.
  - repeat (apply bind_Ok in E as (? & _ & E)).
    injection E as <- <-. reflexivity.
Qed.

Lemma multistep_actor_loss_fn_loss (fo : foward_out) (grad_gae : tensor3)
  (actor_params : Params) (loss : Qc)
  (info : DPG_multistep_update_actor.InfoDict) :
  DPG_multistep_update_actor.actor_loss_fn fo grad_gae actor_params
  = Ok (loss, info) ->
  dpg_loss (ep_weights0 fo) grad_gae
    (get_deter_batch (actor_apply actor_params (states0 fo))) = Ok loss /\
  DPG_multistep_update_actor.info_actor_loss info = loss.
Proof.
  unfold DPG_multistep_update_actor.actor_loss_fn. cbv zeta. intros E.
  apply bind_Ok in E as (x & Ex & E). split; [|].
  - rewrite Ex. f_equal.
    repeat (apply bind_Ok in E as (? & _ & E)). congruence.
  - repeat (apply bind_Ok in E as (? & _ & E)).
    injection E as <- <-. reflexivity.
Qed.

(** C3, as the code has it.  On arrays of shapes [(n, B)], [(n, B, A)] and
    [(n, B, A)] with a non-empty batch axis, the actor loss of both update
    rules is the negative of the sum, over the horizon axis (and the
    action components), of the mean over the batch axis of
    [weight * value_gradient * policy_action].  That is [n] times the
    negative mean over horizon and batch, not the mean itself. *)
Theorem actor_loss_sums_batch_means (lamb : Qc) (fo : foward_out)
  (grad_gae : tensor3) (actor_params : Params) (n B A : nat) :
  let ep_weights := ep_weights0 fo in
  let actions_grad :=
    get_deter_batch (actor_apply actor_params (states0 fo)) in
  let x := weighted ep_weights grad_gae actions_grad in
  (0 < B)%nat ->
  length ep_weights = n -> rect2 B ep_weights ->
  length grad_gae = n -> rect3 B A grad_gae ->
  length actions_grad = n -> rect3 B A actions_grad ->
  dpg_loss ep_weights grad_gae actions_grad
  = Ok (- sum_over_horizon_of_batch_mean x) /\
  (forall loss info,
     DPG_lambda_update_actor.actor_loss_fn lamb fo grad_gae actor_params
     = Ok (loss, info) ->
     loss = - sum_over_horizon_of_batch_mean x /\
     DPG_lambda_update_actor.info_actor_loss info = loss) /\
  (forall loss info,
     DPG_multistep_update_actor.actor_loss_fn fo grad_gae actor_params
     = Ok (loss, info) ->
     loss = - sum_over_horizon_of_batch_mean x /\
     DPG_multistep_update_actor.info_actor_loss info = loss) /\
  ((0 < n)%nat ->
   sum_over_horizon_of_batch_mean x
   = Qc_of_nat n * mean_over_horizon_and_batch x).
Proof.
  intros ep_weights actions_grad x HB Lw Rw Lg Rg La Ra.
  destruct (dpg_loss_value n B A ep_weights grad_gae actions_grad
              HB Lw Rw Lg Rg La Ra) as (Rx & Lx & Eloss).
  split; [exact Eloss|]. split; [|split].
  - intros loss info E.
    destruct (lambda_actor_loss_fn_loss lamb fo grad_gae actor_params
                loss info E) as [El Ei].
    split; [|exact Ei]. fold ep_weights actions_grad in El.
    rewrite Eloss in El. injection El as <-. reflexivity.
  - intros loss info E.
    destruct (multistep_actor_loss_fn_loss fo grad_gae actor_params
                loss info E) as [El Ei].
    split; [|exact Ei]. fold ep_weights actions_grad in El.
    rewrite Eloss in El. injection El as <-. reflexivity.
  - intros Hn. apply (sum_of_batch_means_scaled n B A); assumption.
Qed.
End LossClaims.

(** C3 as stated fails.  On the small instance with horizon 1 and a batch
    of one, with a value gradient of ones, the loss of both update rules
    is -3/2, while the negative mean over horizon and batch of
    [weight * value_gradient * policy_action] is -3/4. *)
Lemma actor_loss_is_not_the_mean :
  let grad_gae := [[[1]]; [[1]]] in
  (exists fo loss info,
     vmap_foward 1
       (@DPG_lambda_update_actor.calculate_gae_foward (toy 0) 1 half 1 half)
       [1] [[1]] [0%nat] = Ok fo /\
     @DPG_lambda_update_actor.actor_loss_fn (toy 0) (toy_policy 0)
       half fo grad_gae tt = Ok (loss, info) /\
     this loss = (-3 # 2)%Q /\
     this (- mean_over_horizon_and_batch
               (weighted (ep_weights0 fo) grad_gae
                  (@get_deter_batch _ (toy_policy 0)
                     (@actor_apply _ (toy_policy 0) tt (states0 fo)))))
     = (-3 # 4)%Q /\
     loss <> - mean_over_horizon_and_batch
                 (weighted (ep_weights0 fo) grad_gae
                    (@get_deter_batch _ (toy_policy 0)
                       (@actor_apply _ (toy_policy 0) tt (states0 fo))))) /\
  (exists fo loss info,
     vmap_foward 1
       (@DPG_multistep_update_actor.calculate_gae_foward (toy 0) 1 1 half)
       [1] [[1]] [0%nat] = Ok fo /\
     @DPG_multistep_update_actor.actor_loss_fn (toy 0) (toy_policy 0)
       fo grad_gae tt = Ok (loss, info) /\
     this loss = (-3 # 2)%Q /\
     this (- mean_over_horizon_and_batch
               (weighted (ep_weights0 fo) grad_gae
                  (@get_deter_batch _ (toy_policy 0)
                     (@actor_apply _ (toy_policy 0) tt (states0 fo)))))
     = (-3 # 4)%Q /\
     loss <> - mean_over_horizon_and_batch
                 (weighted (ep_weights0 fo) grad_gae
                    (@get_deter_batch _ (toy_policy 0)
                       (@actor_apply _ (toy_policy 0) tt (states0 fo))))).
Proof.
  cbv zeta. split.
  - eexists _, _, _. split; [vm_compute; reflexivity|].
    split; [vm_compute; reflexivity|].
    split; [vm_compute; reflexivity|].
    split; [vm_compute; reflexivity|].
    intros E. apply (f_equal this) in E. vm_compute in E. discriminate.
  - eexists _, _, _. split; [vm_compute; reflexivity|].
    split; [vm_compute; reflexivity|].
    split; [vm_compute; reflexivity|].
    split; [vm_compute; reflexivity|].
    intros E. apply (f_equal this) in E. vm_compute in E. discriminate.
Qed.

(** ** The mean alive-mask of a batch *)

Lemma mapM_Forall {A B : Type} (f : A -> res B) (P : B -> Prop)
  (l : list A) :
  (forall x, In x l -> exists y, f x = Ok y /\ P y) ->
  exists ys, mapM f l = Ok ys /\ length ys = length l /\ Forall P ys.
Proof.
  induction l as [|x l IH]; intros Hf.
  - exists []. repeat split. constructor.
  - destruct (Hf x (or_introl eq_refl)) as (y & Ey & Hy).
    destruct (IH (fun z Hz => Hf z (or_intror Hz))) as (ys & Eys & Hlen & Hys).
    exists (y :: ys). simpl. rewrite Ey. cbn [bind]. rewrite Eys.
    repeat split; [simpl; lia | constructor; assumption].
Qed.

Lemma stack_column {A : Type} (d : A) (i : nat) (outs : list (list A)) :
  Forall (fun o => (i < length o)%nat) outs ->
  flat_map (fun o => match nth_error o i with
                     | Some x => [x]
                     | None => []
                     end) outs
  = map (fun o => nth i o d) outs.
Proof.
  intros Hall. induction Hall as [|o outs Ho _ IH]; simpl; [reflexivity|].
  rewrite IH, (nth_error_of_nth o i d Ho). reflexivity.
Qed.

Lemma stack_axis1_rows {A : Type} (d : A) (n : nat)
  (outs : list (list A)) :
  Forall (fun o => length o = n) outs ->
  stack_axis1 n outs = map (fun i => map (fun o => nth i o d) outs) (seq 0 n).
Proof.
  intros Hall. unfold stack_axis1. apply map_ext_in. intros i Hi.
  apply in_seq in Hi. apply stack_column.
  eapply Forall_impl; [|exact Hall]. intros o Ho. cbv beta in Ho. lia.
Qed.

Lemma Qc_of_nat_S (n : nat) : Qc_of_nat (S n) = 1 + Qc_of_nat n.
Proof. change (S n) with (1 + n)%nat. apply Qc_of_nat_add. Qed.

Lemma sum2_cons (r : list Qc) (m : tensor2) :
  sum2 (r :: m) = sum1 r + sum2 m.
Proof. reflexivity. Qed.

Lemma sum1_nonneg (v : list Qc) :
  Forall (fun x => 0 <= x) v -> 0 <= sum1 v.
Proof.
  intros Hv. induction Hv as [|x v Hx _ IH]; simpl.
  - apply Qcle_refl.
  - qc_to_q. lra.
Qed.

Lemma sum2_nonneg (m : tensor2) :
  Forall (Forall (fun x => 0 <= x)) m -> 0 <= sum2 m.
Proof.
  intros Hm. unfold sum2. apply sum1_nonneg.
  apply Forall_map. eapply Forall_impl; [|exact Hm].
  intros row Hrow. apply sum1_nonneg. exact Hrow.
Qed.

Lemma sum1_ones {X : Type} (f : X -> Qc) (l : list X) :
  Forall (fun x => f x = 1) l -> sum1 (map f l) = Qc_of_nat (length l).
Proof.
  intros Hl. induction Hl as [|x l Hx _ IH]; simpl length.
  - reflexivity.
  - rewrite Qc_of_nat_S. simpl. rewrite Hx, IH. reflexivity.
Qed.

Lemma ratio_ge1 (s b : Qc) : 0 < b -> b <= s -> 1 <= s / b.
Proof.
  intros Hb Hs. apply (Qcmult_lt_0_le_reg_r _ _ b Hb).
  replace (s / b * b) with s.
  - rewrite Qcmult_1_l. exact Hs.
  - field. intros E. rewrite E in Hb. revert Hb. qc_to_q. lra.
Qed.

(** A batch of alive-masks, each of [H + 1] non-negative entries starting
    with 1, stacked along axis 1: the mean is at least [1 / (H + 1)]. *)
Lemma mean2_stacked_masks (H : nat) (masks : list (list Qc)) :
  (0 < length masks)%nat ->
  Forall (fun mask =>
            length mask = S H /\ nth 0 mask 0 = 1 /\
            forall i, (i <= H)%nat -> 0 <= nth i mask 0) masks ->
  exists m,
    mean2 (stack_axis1 (S H) masks) = Ok m /\
    0 < m /\ 1 <= Qc_of_nat (S H) * m /\
    forall x, jdiv x m = Ok (x / m).
Proof.
  intros HB Hmasks.
  rewrite (stack_axis1_rows 0 (S H) masks)
    by (eapply Forall_impl; [|exact Hmasks]; intros o [Ho _]; exact Ho).
  set (rows := map (fun i => map (fun o => nth i o 0) masks) (seq 0 (S H))).
  assert (Hsize : size2 rows = (S H * length masks)%nat).
  { rewrite (size2_rect (length masks)).
    - unfold rows. rewrite length_map, length_seq. reflexivity.
    - unfold rows. apply Forall_map. apply Forall_forall. intros i _.
      apply length_map. }
  assert (Hsum : Qc_of_nat (length masks) <= sum2 rows).
  { unfold rows. rewrite <- cons_seq, map_cons, sum2_cons.
    rewrite (sum1_ones (fun o => nth 0 o 0) masks)
      by (eapply Forall_impl; [|exact Hmasks]; intros o (_ & Ho & _);
          exact Ho).
    assert (Hrest : 0 <= sum2 (map (fun i => map (fun o => nth i o 0) masks)
                                  (seq 1 H))).
    { apply sum2_nonneg. apply Forall_map. apply Forall_forall.
      intros i Hi. apply in_seq in Hi. apply Forall_map.
      eapply Forall_impl; [|exact Hmasks]. intros o (_ & _ & Ho).
      apply Ho. lia. }
    revert Hrest.
    generalize (sum2 (map (fun i => map (fun o => nth i o 0) masks)
                        (seq 1 H))).
    intros r Hr. qc_to_q. lra. }
  pose proof (Qc_of_nat_pos (length masks) HB) as Hb.
  pose proof (Qc_of_nat_pos (S H) (Nat.lt_0_succ H)) as Hn.
  assert (Hd : Qc_of_nat (S H * length masks) <> 0).
  { apply Qc_of_nat_neq0. lia. }
  unfold mean2. rewrite Hsize, (jdiv_Ok _ _ Hd).
  set (m := sum2 rows / Qc_of_nat (S H * length masks)).
  assert (Hge : 1 <= Qc_of_nat (S H) * m).
  { replace (Qc_of_nat (S H) * m)
      with (sum2 rows / Qc_of_nat (length masks)).
    - apply ratio_ge1; assumption.
    - unfold m. rewrite Qc_of_nat_mul. field. split.
      + intros E. rewrite E in Hb. revert Hb. qc_to_q. lra.
      + intros E. rewrite E in Hn. revert Hn. qc_to_q. lra. }
  assert (Hpos : 0 < m).
  { revert Hge Hn. generalize (Qc_of_nat (S H)). generalize m.
    intros x y Hge Hy. qc_to_q. nra. }
  exists m. split; [reflexivity|]. split; [exact Hpos|].
  split; [exact Hge|]. intros x. apply jdiv_Ok.
  intros E. rewrite E in Hpos. revert Hpos. qc_to_q. lra.
Qed.

Section MaskMeanClaims.
Context {C : Collaborators}.

Lemma unrolled_alive_mask next_action Robs a0 key0 (H : nat) (l : lists) :
  (forall k s a,
     0 <= terminal_of (model k s a) /\ terminal_of (model k s a) <= 1) ->
  unrolled next_action Robs a0 key0 H l ->
  length (mask_weights l) = S H /\ nth 0 (mask_weights l) 0 = 1 /\
  forall i, (i <= H)%nat -> 0 <= nth i (mask_weights l) 0.
Proof.
  intros Hterm Hun.
  destruct (unrolled_mask_recurrence _ _ _ _ _ _ Hun) as (Hlen & H0 & Hstep).
  split; [exact Hlen|]. split; [exact H0|].
  assert (Hinv : alive_mask_invariant H (mask_weights l)).
  { apply alive_mask_of_recurrence; [exact H0|].
    intros i Hi. destruct (Hstep i Hi) as (k & s & a & _ & _ & _ & E).
    exists (terminal_of (model (rng1_of k) s a)).
    destruct (Hterm (rng1_of k) s a) as [Ht0 Ht1].
    split; [exact Ht0|]. split; [exact Ht1 | exact E]. }
  destruct Hinv as (_ & Hb & _). intros i Hi. apply (Hb i Hi).
Qed.


End MaskMeanClaims.

(** ** The theorems at work on the small instance *)

Lemma lambda_return_recursion_witness :
  0 <= half /\
  exists l q_rollout ep_weights,
    @imagine_foward (toy 0) 2 1 [1] 0%nat = Ok l /\
    @DPG_lambda_update_actor.calculate_gae_foward (toy 0)
      1 half 2 half 1 [1] 0%nat
    = Ok (states l, actions l, mask_weights l, q_rollout, ep_weights) /\
    critic_values 2 l /\
    is_lambda_return 1 half 2 l q_rollout.
Proof.
  split; [qc_to_q; lra|].
  apply (@lambda_return_recursion (toy 0) 1 half 2 half 1 [1] 0%nat).
  qc_to_q; lra.
Defined.

Lemma advantage_weights_witness :
  0 <= half /\
  (exists l q_rollout ep_weights,
     @imagine_foward (toy 0) 2 1 [1] 0%nat = Ok l /\
     @DPG_lambda_update_actor.calculate_gae_foward (toy 0)
       1 half 2 half 1 [1] 0%nat
     = Ok (states l, actions l, mask_weights l, q_rollout, ep_weights) /\
     critic_values 2 l /\
     is_asymmetric_weight half 2 l q_rollout ep_weights) /\
  (exists l q_rollout ep_weights,
     @imagine_foward (toy 0) 2 1 [1] 0%nat = Ok l /\
     @DPG_multistep_update_actor.calculate_gae_foward (toy 0)
       1 2 half 1 [1] 0%nat
     = Ok (states l, actions l, mask_weights l, q_rollout, ep_weights) /\
     critic_values 2 l /\
     is_asymmetric_weight half 2 l q_rollout ep_weights).
Proof.
  split; [qc_to_q; lra|].
  apply (@advantage_weights (toy 0) 1 half 2 half 1 [1] 0%nat).
  qc_to_q; lra.
Defined.

Lemma zero_perturbation_replays_foward_witness :
  0 <= half /\
  (exists states actions mask_weights q_rollout ep_weights,
     @DPG_lambda_update_actor.calculate_gae_foward (toy 0)
       1 half 2 half 1 [1] 0%nat
     = Ok (states, actions, mask_weights, q_rollout, ep_weights) /\
     @DPG_lambda_update_actor.calculate_gae_backward (toy 0)
       1 half 2 (zeros_like2 actions) 1 [1] 0%nat
     = Ok q_rollout) /\
  (exists states actions mask_weights q_rollout ep_weights,
     @DPG_multistep_update_actor.calculate_gae_foward (toy 0)
       1 2 half 1 [1] 0%nat
     = Ok (states, actions, mask_weights, q_rollout, ep_weights) /\
     @DPG_multistep_update_actor.calculate_gae_backward (toy 0)
       1 2 (zeros_like2 actions) 1 [1] 0%nat
     = Ok q_rollout).
Proof.
  split; [qc_to_q; lra|].
  apply (@zero_perturbation_replays_foward (toy 0) 1 half 2 half 1 [1]
           0%nat).
  qc_to_q; lra.
Defined.

Lemma alive_mask_monotone_witness :
  exists l,
    @imagine_foward (toy half) 3 1 [1] 0%nat = Ok l /\
    terminal_flags_in_unit 3 l /\
    alive_mask_invariant 3 (mask_weights l).
Proof.
  destruct (@alive_mask_monotone (toy half) 3 1 [1] 0%nat)
    as (l & El & _ & Hinv).
  assert (Hterm : terminal_flags_in_unit 3 l).
  { intros i k s a _ _ _ _. cbn [terminal_of model toy].
    split; qc_to_q; lra. }
  exists l. split; [exact El|]. split; [exact Hterm | exact (Hinv Hterm)].
Defined.

Lemma lamb_weight_at_least_one_witness :
  0 <= half /\
  exists l,
    @imagine_foward (toy 0) 2 1 [1] 0%nat = Ok l /\
    (forall n, (n <= 2)%nat ->
       exists q_rollout lamb_weight,
         lambda_loop_prefix 1 half 2 l n = Ok (q_rollout, lamb_weight) /\
         lamb_weight = lamb_weight_after half n /\
         1 <= lamb_weight /\ 1 <= 1 + half * lamb_weight) /\
    exists q_rollout, lambda_returns 1 half 2 l = Ok q_rollout.
Proof.
  split; [qc_to_q; lra|].
  eexists. split; [vm_compute; reflexivity|].
  apply (@lamb_weight_at_least_one (toy 0) 1 half 2 [] 1 [1] 0%nat).
  - qc_to_q; lra.
  - left. vm_compute. reflexivity.
Defined.

Lemma perturbation_spares_earlier_steps_witness :
  let delta1 := [[0]; [0]] in
  let delta2 := [[0]; [1]] in
  (1 <= 1)%nat /\ length delta1 = 2%nat /\ length delta2 = 2%nat /\
  (forall i, i <> 1%nat -> nth_error delta1 i = nth_error delta2 i) /\
  exists l1 l2,
    @imagine_backward (toy 0) 1 delta1 1 [1] 0%nat = Ok l1 /\
    @imagine_backward (toy 0) 1 delta2 1 [1] 0%nat = Ok l2 /\
    agree_before 1 l1 l2.
Proof.
  cbv zeta.
  assert (Hagree : forall i, i <> 1%nat ->
            nth_error [[0]; [0]] i = nth_error [[0]; [1]] i).
  { intros [|[|i]] Hi; [reflexivity | contradiction | reflexivity]. }
  split; [lia|]. split; [reflexivity|]. split; [reflexivity|].
  split; [exact Hagree|].
  eexists _, _. split; [vm_compute; reflexivity|].
  split; [vm_compute; reflexivity|].
  apply (proj1 (@perturbation_spares_earlier_steps (toy 0) 1 half 1 1
                  [[0]; [0]] [[0]; [1]] 1 [1] 0%nat
                  (le_n 1) eq_refl eq_refl Hagree)).
  - vm_compute. reflexivity.
  - vm_compute. reflexivity.
Defined.

Lemma actor_loss_sums_batch_means_witness :
  let fo : foward_out_of Qc :=
    {| states0 := [[1]; [1 + 1]];
       actions0 := [[[1]]; [[1 + 1]]];
       mask_weights0 := [[1]; [1]];
       q_rollout0 := [[1]; [1]];
       ep_weights0 := [[half]; [half]] |} in
  let grad_gae := [[[1]]; [[1]]] in
  let actions_grad :=
    @get_deter_batch _ (toy_policy 0)
      (@actor_apply _ (toy_policy 0) tt (states0 fo)) in
  let x := weighted (ep_weights0 fo) grad_gae actions_grad in
  ((0 < 1)%nat /\
   length (ep_weights0 fo) = 2%nat /\ rect2 1 (ep_weights0 fo) /\
   length grad_gae = 2%nat /\ rect3 1 1 grad_gae /\
   length actions_grad = 2%nat /\ rect3 1 1 actions_grad) /\
  dpg_loss (ep_weights0 fo) grad_gae actions_grad
  = Ok (- sum_over_horizon_of_batch_mean x) /\
  sum_over_horizon_of_batch_mean x
  = Qc_of_nat 2 * mean_over_horizon_and_batch x.
Proof.
  cbv zeta.
  set (fo := {| states0 := [[1]; [1 + 1]];
                actions0 := [[[1]]; [[1 + 1]]];
                mask_weights0 := [[1]; [1]];
                q_rollout0 := [[1]; [1]];
                ep_weights0 := [[half]; [half]] |} : foward_out_of Qc).
  assert (R2 : rect2 1 (ep_weights0 fo)) by (repeat constructor).
  assert (R3 : rect3 1 1 [[[1]]; [[1]]]) by (repeat constructor).
  assert (R3' : rect3 1 1 (@get_deter_batch _ (toy_policy 0)
                             (@actor_apply _ (toy_policy 0) tt
                                (states0 fo))))
    by (repeat constructor).
  split; [repeat split; auto|].
  destruct (@actor_loss_sums_batch_means (toy 0) (toy_policy 0) half fo
              [[[1]]; [[1]]] tt 2 1 1 (Nat.lt_0_succ 0) eq_refl R2
              eq_refl R3 eq_refl R3') as (Eloss & _ & _ & Hscale).
  split; [exact Eloss | apply Hscale; lia].
Defined.



(** * Further properties of the update rules *)

(** ** Shapes of the forward pass and the key stream *)

Section ShapeFacts.
Context {C : Collaborators}.

Lemma is_asymmetric_weight_length (expectile : Qc) (H : nat) (l : lists)
  (q ep : list Qc) :
  is_asymmetric_weight expectile H l q ep -> length ep = S H.
Proof. intros [Hlen _]. exact Hlen. Qed.

Lemma unrolled_action_lengths (A H : nat) Robs Ra key0 (l : lists) :
  length Ra = A -> (forall s, length (get_deter (actor s)) = A) ->
  unrolled next_action_foward Robs Ra key0 H l ->
  Forall (fun a => length a = A) (actions l).
Proof.
  intros HRa Hact Hun. apply Forall_forall. intros a Ha.
  apply In_nth_error in Ha as (i & Hi).
  destruct i as [|i].
  - rewrite (unrolled_action0 Hun) in Hi. injection Hi as <-. exact HRa.
  - assert (Hlt : (i < H)%nat).
    { assert (Hb : (S i < length (actions l))%nat).
      { apply nth_error_Some. rewrite Hi. discriminate. }
      rewrite (shaped_actions (unrolled_shaped Hun)) in Hb. lia. }
    destruct (unrolled_steps Hun (i := i) Hlt)
      as (k & s & a' & m & a1 & _ & _ & _ & _ & Enext & _ & _ & _ & Ha1 & _).
    rewrite Ha1 in Hi. injection Hi as <-.
    unfold next_action_foward in Enext. injection Enext as <-. apply Hact.
Qed.

(** X1.  When the start action and every action of the policy have [A]
    components (as in the enclosing functions, where the start action is
    the policy's action at the start state), the forward pass of both
    update rules returns five sequences of [H + 1] entries each, and every
    action of the rollout has [A] components, so that the actions stack to
    an array of shape [(H + 1, A)]; the first state, action and mask are
    the start state, the start action and 1. *)
Theorem foward_output_shapes (discount lamb : Qc) (H A : nat)
  (expectile : Qc) (Robs : State) (Ra : Action) (key0 : PRNGKey) :
  0 <= lamb ->
  length Ra = A ->
  (forall s, length (get_deter (actor s)) = A) ->
  (exists st ac mw q ep,
     DPG_lambda_update_actor.calculate_gae_foward
       discount lamb H expectile Robs Ra key0 = Ok (st, ac, mw, q, ep) /\
     length st = S H /\ length ac = S H /\ length mw = S H /\
     length q = S H /\ length ep = S H /\
     Forall (fun a => length a = A) ac /\
     nth_error st 0 = Some Robs /\ nth_error ac 0 = Some Ra /\
     nth_error mw 0 = Some 1) /\
  (exists st ac mw q ep,
     DPG_multistep_update_actor.calculate_gae_foward
       discount H expectile Robs Ra key0 = Ok (st, ac, mw, q, ep) /\
     length st = S H /\ length ac = S H /\ length mw = S H /\
     length q = S H /\ length ep = S H /\
     Forall (fun a => length a = A) ac /\
     nth_error st 0 = Some Robs /\ nth_error ac 0 = Some Ra /\
     nth_error mw 0 = Some 1).
Proof.
  intros Hl HRa Hact. split.
  - destruct (lambda_foward_parts discount lamb H expectile Robs Ra key0 Hl)
      as (l & q & ep & _ & Hun & _ & (Hq & _) & Hep & Ecalc).
    pose proof (unrolled_action_lengths A H _ _ _ _ HRa Hact Hun) as Hlen.
    destruct Hun as [[Ls Lr La Lm Lk Lq] Hs0 Ha0 _ Hm0 _ _].
    exists (states l), (actions l), (mask_weights l), q, ep.
    split; [exact Ecalc|].
    pose proof (is_asymmetric_weight_length _ _ _ _ _ Hep).
    repeat split; assumption.
  - destruct (multistep_foward_parts discount H expectile Robs Ra key0)
      as (l & q & ep & _ & Hun & _ & (Hq & _) & Hep & Ecalc).
    pose proof (unrolled_action_lengths A H _ _ _ _ HRa Hact Hun) as Hlen.
    destruct Hun as [[Ls Lr La Lm Lk Lq] Hs0 Ha0 _ Hm0 _ _].
    exists (states l), (actions l), (mask_weights l), q, ep.
    split; [exact Ecalc|].
    pose proof (is_asymmetric_weight_length _ _ _ _ _ Hep).
    repeat split; assumption.
Qed.

Lemma unrolled_key_at next_action Robs a0 key0 (H : nat) (l : lists)
  (i : nat) :
  unrolled next_action Robs a0 key0 H l -> (i <= H)%nat ->
  nth_error (keys l) i = Some (key_after key0 i).
Proof.
  intros Hun. induction i as [|i IH]; intros Hi.
  - exact (unrolled_key0 Hun).
  - specialize (IH ltac:(lia)).
    destruct (unrolled_steps Hun (i := i) ltac:(lia))
      as (k & s & a & m & a1 & Hk & _ & _ & _ & _ & Hk1 & _).
    rewrite Hk1. simpl. congruence.
Qed.

Lemma unrolled_keys next_action Robs a0 key0 (H : nat) (l : lists) :
  unrolled next_action Robs a0 key0 H l ->
  keys l = map (key_after key0) (seq 0 (S H)).
Proof.
  intros Hun. apply nth_error_ext. intros i.
  destruct (Nat.le_gt_cases i H) as [Hi|Hi].
  - rewrite (unrolled_key_at _ _ _ _ _ _ i Hun Hi).
    rewrite nth_error_map, (nth_error_of_nth (seq 0 (S H)) i 0%nat)
      by (rewrite length_seq; lia).
    rewrite seq_nth by lia. reflexivity.
  - rewrite (proj2 (nth_error_None _ _))
      by (rewrite (shaped_keys (unrolled_shaped Hun)); lia).
    symmetry. apply nth_error_None. rewrite length_map, length_seq. lia.
Qed.

(** X2.  The keys of the rollout are the start key split again and again:
    [keys[i]] is the continuation key after [i] splits.  The key stream
    depends on nothing else: the perturbed replay, whatever the
    perturbation, uses the same keys as the forward pass. *)
Theorem rollout_key_stream (H : nat) (Robs : State) (Ra : Action)
  (key0 : PRNGKey) :
  exists l,
    imagine_foward H Robs Ra key0 = Ok l /\
    keys l = map (key_after key0) (seq 0 (S H)) /\
    forall delta_a l',
      imagine_backward H delta_a Robs Ra key0 = Ok l' -> keys l' = keys l.
Proof.
  destruct (imagine_foward_unrolled H Robs Ra key0) as (l & El & Hun).
  exists l. split; [exact El|].
  split; [exact (unrolled_keys _ _ _ _ _ _ Hun)|].
  intros delta_a l' El'.
  destruct (imagine_backward_unrolled H delta_a Robs Ra key0 l' El')
    as (d0 & a0 & _ & _ & Hun').
  rewrite (unrolled_keys _ _ _ _ _ _ Hun).
  exact (unrolled_keys _ _ _ _ _ _ Hun').
Qed.
End ShapeFacts.

Lemma foward_output_shapes_witness :
  0 <= half /\ length [1] = 1%nat /\
  (forall s, length (@get_deter (toy 0) (actor s)) = 1%nat) /\
  exists st ac mw q ep,
    @DPG_lambda_update_actor.calculate_gae_foward (toy 0)
      1 half 2 half 1 [1] 0%nat = Ok (st, ac, mw, q, ep) /\
    length st = 3%nat /\ length ac = 3%nat /\ length mw = 3%nat /\
    length q = 3%nat /\ length ep = 3%nat /\
    Forall (fun a : list Qc => length a = 1%nat) ac /\
    nth_error st 0 = Some 1 /\ nth_error ac 0 = Some [1] /\
    nth_error mw 0 = Some 1.
Proof.
  assert (Hl : 0 <= half) by (qc_to_q; lra).
  assert (Hact : forall s, length (@get_deter (toy 0) (actor s)) = 1%nat)
    by reflexivity.
  split; [exact Hl|]. split; [reflexivity|]. split; [exact Hact|].
  apply (proj1 (@foward_output_shapes (toy 0) 1 half 2 1 half 1 [1] 0%nat
                  Hl eq_refl Hact)).
Defined.

(** ** Rewards, flags and masks along the rollout *)

Section AlongTheRollout.
Context {C : Collaborators}.

Lemma unrolled_reward_at next_action Robs a0 key0 (H : nat) (l : lists)
  (i : nat) (r : Qc) :
  unrolled next_action Robs a0 key0 H l -> (i < H)%nat ->
  reward_at l i r -> nth i (rewards l) 0 = r.
Proof.
  intros Hun Hi (k & s & a & Ek & Es & Ea & <-).
  destruct (unrolled_steps Hun (i := i) Hi)
    as (k' & s' & a' & m & a1 & Hk & Hs & Ha & _ & _ & _ & _ & Hr & _).
  assert (k' = k) by congruence. assert (s' = s) by congruence.
  assert (a' = a) by congruence. subst.
  exact (nth_nth_error 0 Hr).
Qed.

Lemma unrolled_mask_step next_action Robs a0 key0 (H : nat) (l : lists)
  (i : nat) (t : Qc) :
  unrolled next_action Robs a0 key0 H l -> (i < H)%nat ->
  terminal_flag_at l i t ->
  nth (S i) (mask_weights l) 0 = nth i (mask_weights l) 0 * (1 - t).
Proof.
  intros Hun Hi (k & s & a & Ek & Es & Ea & <-).
  destruct (unrolled_mask_recurrence _ _ _ _ _ _ Hun) as (_ & _ & Hstep).
  destruct (Hstep i Hi) as (k' & s' & a' & Hk & Hs & Ha & E).
  assert (k' = k) by congruence. assert (s' = s) by congruence.
  assert (a' = a) by congruence. subst. exact E.
Qed.

Lemma unrolled_mask_zero_stays next_action Robs a0 key0 (H : nat)
  (l : lists) (i j : nat) :
  unrolled next_action Robs a0 key0 H l ->
  (i <= j)%nat -> (j <= H)%nat ->
  nth i (mask_weights l) 0 = 0 -> nth j (mask_weights l) 0 = 0.
Proof.
  intros Hun Hij. induction Hij as [|j Hij IH]; intros Hj Hz; [exact Hz|].
  destruct (unrolled_mask_recurrence _ _ _ _ _ _ Hun) as (_ & _ & Hstep).
  destruct (Hstep j ltac:(lia)) as (k & s & a & _ & _ & _ & ->).
  rewrite (IH ltac:(lia) Hz). apply Qcmult_0_l.
Qed.

Lemma unrolled_mask_after_termination next_action Robs a0 key0 (H : nat)
  (l : lists) (j i : nat) :
  unrolled next_action Robs a0 key0 H l -> (j < H)%nat ->
  terminal_flag_at l j 1 -> (j < i)%nat -> (i <= H)%nat ->
  nth i (mask_weights l) 0 = 0.
Proof.
  intros Hun Hj Hflag Hji Hi.
  apply (unrolled_mask_zero_stays _ _ _ _ _ _ (S j) i Hun); try lia.
  rewrite (unrolled_mask_step _ _ _ _ _ _ j 1 Hun Hj Hflag). ring.
Qed.

Lemma unrolled_mask_all_ones next_action Robs a0 key0 (H : nat)
  (l : lists) :
  unrolled next_action Robs a0 key0 H l ->
  (forall i, (i < H)%nat -> terminal_flag_at l i 0) ->
  forall i, (i <= H)%nat -> nth i (mask_weights l) 0 = 1.
Proof.
  intros Hun Hflags. induction i as [|i IH]; intros Hi.
  - exact (nth_nth_error 0 (unrolled_mask0 Hun)).
  - rewrite (unrolled_mask_step _ _ _ _ _ _ i 0 Hun ltac:(lia)
               (Hflags i ltac:(lia))).
    rewrite (IH ltac:(lia)). ring.
Qed.
End AlongTheRollout.

(** ** The multi-step return under zero rewards and under termination *)

Section MultistepProperties.
Context {C : Collaborators}.

(** X3.  On a trajectory with zero rewards and zero terminal flags the
    multi-step return decays geometrically from the critic's last value:
    [q_rollout[i] = discount ^ (H - i) * critic_value[H]]. *)
Theorem multistep_geometric_decay (discount : Qc) (H : nat)
  (expectile : Qc) (Robs : State) (Ra : Action) (key0 : PRNGKey) :
  exists l q_rollout ep_weights,
    imagine_foward H Robs Ra key0 = Ok l /\
    DPG_multistep_update_actor.calculate_gae_foward
      discount H expectile Robs Ra key0
    = Ok (states l, actions l, mask_weights l, q_rollout, ep_weights) /\
    ((forall i, (i < H)%nat -> reward_at l i 0 /\ terminal_flag_at l i 0) ->
     forall i, (i <= H)%nat ->
       nth i q_rollout 0 = discount ^ (H - i) * nth H (q_values l) 0).
Proof.
  destruct (multistep_foward_parts discount H expectile Robs Ra key0)
    as (l & q & ep & El & Hun & _ & (Hlen & Hlast & Hrec) & _ & Ecalc).
  exists l, q, ep. split; [exact El|]. split; [exact Ecalc|].
  intros Hzero.
  assert (Hones : forall i, (i <= H)%nat -> nth i (mask_weights l) 0 = 1).
  { apply (unrolled_mask_all_ones _ _ _ _ _ _ Hun).
    intros i Hi. apply (Hzero i Hi). }
  assert (Hd : forall d, (d <= H)%nat ->
                 nth (H - d) q 0 = discount ^ d * nth H (q_values l) 0).
  { induction d as [|d IH]; intros HdH.
    - rewrite Nat.sub_0_r, Hlast. simpl. ring.
    - rewrite (Hrec (H - S d)%nat ltac:(lia)).
      replace (H - S d + 1)%nat with (H - d)%nat by lia.
      rewrite (IH ltac:(lia)).
      rewrite (unrolled_reward_at _ _ _ _ _ _ (H - S d) 0 Hun ltac:(lia)
                 (proj1 (Hzero (H - S d)%nat ltac:(lia)))).
      rewrite (Hones (H - S d)%nat ltac:(lia)), (Hones (H - d)%nat ltac:(lia)).
      simpl. ring. }
  intros i Hi. replace i with (H - (H - i))%nat at 1 by lia.
  rewrite (Hd (H - i)%nat ltac:(lia)). reflexivity.
Qed.

(** X4.  In the multi-step rule a terminal flag of exactly 1 at step [j]
    cuts the return: the alive-mask is 0 at every later index,
    [q_rollout[j]] is the masked reward of step [j] alone, and
    [q_rollout[i]] is 0 at every later step [i < H]. *)
Theorem multistep_termination_cuts_return (discount : Qc) (H : nat)
  (expectile : Qc) (Robs : State) (Ra : Action) (key0 : PRNGKey) :
  exists l q_rollout ep_weights,
    imagine_foward H Robs Ra key0 = Ok l /\
    DPG_multistep_update_actor.calculate_gae_foward
      discount H expectile Robs Ra key0
    = Ok (states l, actions l, mask_weights l, q_rollout, ep_weights) /\
    forall j, (j < H)%nat -> terminal_flag_at l j 1 ->
      (forall i, (j < i)%nat -> (i <= H)%nat ->
         nth i (mask_weights l) 0 = 0) /\
      nth j q_rollout 0 = nth j (mask_weights l) 0 * nth j (rewards l) 0 /\
      (forall i, (j < i)%nat -> (i < H)%nat -> nth i q_rollout 0 = 0).
Proof.
  destruct (multistep_foward_parts discount H expectile Robs Ra key0)
    as (l & q & ep & El & Hun & _ & (Hlen & Hlast & Hrec) & _ & Ecalc).
  exists l, q, ep. split; [exact El|]. split; [exact Ecalc|].
  intros j Hj Hflag.
  assert (Hmask : forall i, (j < i)%nat -> (i <= H)%nat ->
                    nth i (mask_weights l) 0 = 0).
  { intros i Hji Hi.
    exact (unrolled_mask_after_termination _ _ _ _ _ _ j i Hun Hj Hflag
             Hji Hi). }
  split; [exact Hmask|]. split.
  - rewrite (Hrec j Hj), (Hmask (j + 1)%nat ltac:(lia) ltac:(lia)). ring.
  - intros i Hji Hi.
    rewrite (Hrec i Hi), (Hmask i Hji ltac:(lia)),
      (Hmask (i + 1)%nat ltac:(lia) ltac:(lia)).
    ring.
Qed.
End MultistepProperties.

Lemma multistep_geometric_decay_witness :
  exists l q_rollout ep_weights,
    @imagine_foward (toy_reward 0 0) 3 1 [1] 0%nat = Ok l /\
    @DPG_multistep_update_actor.calculate_gae_foward (toy_reward 0 0)
      half 3 half 1 [1] 0%nat
    = Ok (states l, actions l, mask_weights l, q_rollout, ep_weights) /\
    (forall i, (i < 3)%nat -> reward_at l i 0 /\ terminal_flag_at l i 0) /\
    nth 0 q_rollout 0 = half ^ 3 * nth 3 (q_values l) 0.
Proof.
  destruct (@multistep_geometric_decay (toy_reward 0 0) half 3 half 1 [1]
              0%nat) as (l & q & ep & El & Ecalc & Hdecay).
  assert (Hzero : forall i, (i < 3)%nat ->
                    reward_at l i 0 /\ terminal_flag_at l i 0).
  { intros i Hi.
    destruct (@imagine_foward_unrolled (toy_reward 0 0) 3 1 [1] 0%nat)
      as (l' & El' & Hun).
    rewrite El in El'. injection El' as <-.
    destruct (unrolled_steps Hun (i := i) Hi)
      as (k & s & a & m & a1 & Hk & Hs & Ha & _).
    split; exists k, s, a; repeat split; assumption. }
  exists l, q, ep. split; [exact El|]. split; [exact Ecalc|].
  split; [exact Hzero|]. exact (Hdecay Hzero 0%nat ltac:(lia)).
Defined.

Lemma multistep_termination_cuts_return_witness :
  exists l q_rollout ep_weights,
    @imagine_foward (toy 1) 3 1 [1] 0%nat = Ok l /\
    @DPG_multistep_update_actor.calculate_gae_foward (toy 1)
      half 3 half 1 [1] 0%nat
    = Ok (states l, actions l, mask_weights l, q_rollout, ep_weights) /\
    terminal_flag_at l 1 1 /\
    nth 1 q_rollout 0 = nth 1 (mask_weights l) 0 * nth 1 (rewards l) 0 /\
    nth 2 q_rollout 0 = 0.
Proof.
  destruct (@multistep_termination_cuts_return (toy 1) half 3 half 1 [1]
              0%nat) as (l & q & ep & El & Ecalc & Hcut).
  assert (Hflag : terminal_flag_at l 1 1).
  { destruct (@imagine_foward_unrolled (toy 1) 3 1 [1] 0%nat)
      as (l' & El' & Hun).
    rewrite El in El'. injection El' as <-.
    destruct (unrolled_steps Hun (i := 1%nat) ltac:(lia))
      as (k & s & a & m & a1 & Hk & Hs & Ha & _).
    exists k, s, a. repeat split; assumption. }
  destruct (Hcut 1%nat ltac:(lia) Hflag) as (_ & Hj & Hafter).
  exists l, q, ep. split; [exact El|]. split; [exact Ecalc|].
  split; [exact Hflag|]. split; [exact Hj|].
  exact (Hafter 2%nat ltac:(lia) ltac:(lia)).
Defined.

(** ** The lambda return: termination, bounds and divisors *)

Lemma blend_between (v q_next c : Qc) :
  0 <= c ->
  (v <= q_next ->
   v <= (v + c * q_next) / (1 + c) /\ (v + c * q_next) / (1 + c) <= q_next) /\
  (q_next <= v ->
   q_next <= (v + c * q_next) / (1 + c) /\ (v + c * q_next) / (1 + c) <= v).
Proof.
  intros Hc.
  assert (Hpos : 0 < 1 + c) by (qc_to_q; lra).
  assert (Hnz : 1 + c <> 0).
  { intros E. rewrite E in Hpos. revert Hpos. qc_to_q. lra. }
  assert (E : (v + c * q_next) / (1 + c) * (1 + c) = v + c * q_next)
    by (field; exact Hnz).
  revert E. generalize ((v + c * q_next) / (1 + c)). intros x E.
  assert (EQ : (this (x * (1 + c)) == this (v + c * q_next))%Q)
    by (rewrite E; reflexivity).
  clear E Hnz. split; intros Hle; qc_to_q; split; nra.
Qed.

Lemma lamb_weight_geometric (lamb : Qc) (n : nat) :
  (1 - lamb) * lamb_weight_after lamb n = 1 - lamb ^ (S n).
Proof.
  induction n as [|n IH].
  - simpl. ring.
  - change (lamb_weight_after lamb (S n))
      with (1 + lamb * lamb_weight_after lamb n).
    change (lamb ^ S (S n)) with (lamb * lamb ^ S n).
    replace ((1 - lamb) * (1 + lamb * lamb_weight_after lamb n))
      with ((1 - lamb) + lamb * ((1 - lamb) * lamb_weight_after lamb n))
      by ring.
    rewrite IH. ring.
Qed.

Lemma lamb_weight_one (n : nat) : lamb_weight_after 1 n = Qc_of_nat (S n).
Proof.
  induction n as [|n IH].
  - reflexivity.
  - change (lamb_weight_after 1 (S n)) with (1 + 1 * lamb_weight_after 1 n).
    rewrite IH, (Qc_of_nat_S (S n)). ring.
Qed.

Section LambdaProperties.
Context {C : Collaborators}.

(** X5.  In the lambda rule a terminal flag of exactly 1 at step [j] does
    not zero the later returns: at every later step [i < H] the target
    [q_next] is 0 and [q_rollout[i]] is the critic's value of that step
    divided by [1 + lamb * lamb_weight]; at step [j] the target is the
    masked reward of step [j] alone. *)
Theorem lambda_return_after_termination (discount lamb : Qc) (H : nat)
  (expectile : Qc) (Robs : State) (Ra : Action) (key0 : PRNGKey) :
  0 <= lamb ->
  exists l q_rollout ep_weights,
    imagine_foward H Robs Ra key0 = Ok l /\
    DPG_lambda_update_actor.calculate_gae_foward
      discount lamb H expectile Robs Ra key0
    = Ok (states l, actions l, mask_weights l, q_rollout, ep_weights) /\
    forall j, (j < H)%nat -> terminal_flag_at l j 1 ->
      nth j q_rollout 0
      = (nth j (q_values l) 0
         + lamb * lamb_weight_after lamb (H - 1 - j)
           * (nth j (mask_weights l) 0 * nth j (rewards l) 0))
        / divisor_at lamb (H - 1 - j) /\
      (forall i, (j < i)%nat -> (i < H)%nat ->
         nth i q_rollout 0
         = nth i (q_values l) 0 / divisor_at lamb (H - 1 - i)).
Proof.
  intros Hl.
  destruct (lambda_foward_parts discount lamb H expectile Robs Ra key0 Hl)
    as (l & q & ep & El & Hun & _ & (Hlen & Hlast & Hrec) & _ & Ecalc).
  exists l, q, ep. split; [exact El|]. split; [exact Ecalc|].
  intros j Hj Hflag.
  assert (Hmask : forall i, (j < i)%nat -> (i <= H)%nat ->
                    nth i (mask_weights l) 0 = 0).
  { intros i Hji Hi.
    exact (unrolled_mask_after_termination _ _ _ _ _ _ j i Hun Hj Hflag
             Hji Hi). }
  unfold divisor_at. split.
  - rewrite (Hrec j Hj). cbv zeta.
    rewrite (Hmask (j + 1)%nat ltac:(lia) ltac:(lia)).
    f_equal. ring.
  - intros i Hji Hi. rewrite (Hrec i Hi). cbv zeta.
    rewrite (Hmask i Hji ltac:(lia)),
      (Hmask (i + 1)%nat ltac:(lia) ltac:(lia)).
    f_equal. ring.
Qed.

(** X6.  For lambda >= 0 every lambda return lies between the critic's
    value of its step and the one-step target
    [q_next = mask[i] * reward[i] + mask[i+1] * discount * q_rollout[i+1]]:
    it is a weighted average of the two. *)
Theorem lambda_return_between (discount lamb : Qc) (H : nat)
  (expectile : Qc) (Robs : State) (Ra : Action) (key0 : PRNGKey) :
  0 <= lamb ->
  exists l q_rollout ep_weights,
    imagine_foward H Robs Ra key0 = Ok l /\
    DPG_lambda_update_actor.calculate_gae_foward
      discount lamb H expectile Robs Ra key0
    = Ok (states l, actions l, mask_weights l, q_rollout, ep_weights) /\
    forall i, (i < H)%nat ->
      let v := nth i (q_values l) 0 in
      let q_next :=
        nth i (mask_weights l) 0 * nth i (rewards l) 0
        + nth (i + 1) (mask_weights l) 0 * discount
          * nth (i + 1) q_rollout 0 in
      (v <= q_next -> v <= nth i q_rollout 0 /\ nth i q_rollout 0 <= q_next)
      /\
      (q_next <= v -> q_next <= nth i q_rollout 0 /\ nth i q_rollout 0 <= v).
Proof.
  intros Hl.
  destruct (lambda_foward_parts discount lamb H expectile Robs Ra key0 Hl)
    as (l & q & ep & El & Hun & _ & (Hlen & Hlast & Hrec) & _ & Ecalc).
  exists l, q, ep. split; [exact El|]. split; [exact Ecalc|].
  intros i Hi. cbv zeta. rewrite (Hrec i Hi). cbv zeta.
  apply blend_between.
  assert (Hw : 1 <= lamb_weight_after lamb (H - 1 - i))
    by (apply lamb_weight_after_ge1; exact Hl).
  revert Hw. generalize (lamb_weight_after lamb (H - 1 - i)). intros w Hw.
  qc_to_q. nra.
Qed.

(** X7.  After [n] iterations of the lambda recursion the accumulated
    weight is the geometric sum [1 + lamb + ... + lamb ^ n]:
    [(1 - lamb) * lamb_weight = 1 - lamb ^ (n + 1)], and for [lamb = 1] it
    is [n + 1]. *)
Theorem lamb_weight_is_geometric_sum (discount lamb : Qc) (H : nat)
  (Robs : State) (Ra : Action) (key0 : PRNGKey) :
  0 <= lamb ->
  exists l,
    imagine_foward H Robs Ra key0 = Ok l /\
    forall n, (n <= H)%nat ->
      exists q_rollout lamb_weight,
        lambda_loop_prefix discount lamb H l n
        = Ok (q_rollout, lamb_weight) /\
        (1 - lamb) * lamb_weight = 1 - lamb ^ (S n) /\
        (lamb = 1 -> lamb_weight = Qc_of_nat (S n)).
Proof.
  intros Hl.
  destruct (imagine_foward_unrolled H Robs Ra key0) as (l & El & Hun).
  exists l. split; [exact El|]. intros n Hn.
  destruct (lambda_loop_prefix_ge1 discount lamb H l n Hl
              (unrolled_shaped Hun) Hn) as (q & w & E & Hw & _).
  exists q, w. split; [exact E|]. subst w. split.
  - apply lamb_weight_geometric.
  - intros ->. apply lamb_weight_one.
Qed.
End LambdaProperties.

Lemma lambda_return_after_termination_witness :
  0 <= half /\
  exists l q_rollout ep_weights,
    @imagine_foward (toy 1) 3 1 [1] 0%nat = Ok l /\
    @DPG_lambda_update_actor.calculate_gae_foward (toy 1)
      1 half 3 half 1 [1] 0%nat
    = Ok (states l, actions l, mask_weights l, q_rollout, ep_weights) /\
    terminal_flag_at l 0 1 /\
    nth 1 q_rollout 0 = nth 1 (q_values l) 0 / divisor_at half 1.
Proof.
  split; [qc_to_q; lra|].
  destruct (@lambda_return_after_termination (toy 1) 1 half 3 half 1 [1]
              0%nat ltac:(qc_to_q; lra)) as (l & q & ep & El & Ecalc & Hcut).
  assert (Hflag : terminal_flag_at l 0 1).
  { destruct (@imagine_foward_unrolled (toy 1) 3 1 [1] 0%nat)
      as (l' & El' & Hun).
    rewrite El in El'. injection El' as <-.
    destruct (unrolled_steps Hun (i := 0%nat) ltac:(lia))
      as (k & s & a & m & a1 & Hk & Hs & Ha & _).
    exists k, s, a. repeat split; assumption. }
  destruct (Hcut 0%nat ltac:(lia) Hflag) as (_ & Hafter).
  exists l, q, ep. split; [exact El|]. split; [exact Ecalc|].
  split; [exact Hflag|].
  exact (Hafter 1%nat ltac:(lia) ltac:(lia)).
Defined.

Lemma lambda_return_between_witness :
  0 <= half /\
  exists l q_rollout ep_weights,
    @imagine_foward (toy 0) 2 1 [1] 0%nat = Ok l /\
    @DPG_lambda_update_actor.calculate_gae_foward (toy 0)
      1 half 2 half 1 [1] 0%nat
    = Ok (states l, actions l, mask_weights l, q_rollout, ep_weights) /\
    forall i, (i < 2)%nat ->
      let v := nth i (q_values l) 0 in
      let q_next :=
        nth i (mask_weights l) 0 * nth i (rewards l) 0
        + nth (i + 1) (mask_weights l) 0 * 1
          * nth (i + 1) q_rollout 0 in
      (v <= q_next -> v <= nth i q_rollout 0 /\ nth i q_rollout 0 <= q_next)
      /\
      (q_next <= v -> q_next <= nth i q_rollout 0 /\ nth i q_rollout 0 <= v).
Proof.
  split; [qc_to_q; lra|].
  apply (@lambda_return_between (toy 0) 1 half 2 half 1 [1] 0%nat).
  qc_to_q; lra.
Defined.

Lemma lamb_weight_is_geometric_sum_witness :
  0 <= half /\
  exists l,
    @imagine_foward (toy 0) 2 1 [1] 0%nat = Ok l /\
    forall n, (n <= 2)%nat ->
      exists q_rollout lamb_weight,
        lambda_loop_prefix 1 half 2 l n = Ok (q_rollout, lamb_weight) /\
        (1 - half) * lamb_weight = 1 - half ^ (S n) /\
        (half = 1 -> lamb_weight = Qc_of_nat (S n)).
Proof.
  split; [qc_to_q; lra|].
  apply (@lamb_weight_is_geometric_sum (toy 0) 1 half 2 1 [1] 0%nat).
  qc_to_q; lra.
Defined.

(** ** When the lambda recursion divides by zero *)

Section LambdaDivisors.
Context {C : Collaborators}.
Variables (discount lamb : Qc) (H : nat).

Lemma lambda_step_NonFinite (l : lists) (a n : nat) (q : list Qc) (w : Qc) :
  shaped H l -> (a + S n = H)%nat -> length q = S n ->
  1 + lamb * w = 0 ->
  lambda_step discount lamb l a (q, w) = Err NonFinite.
Proof.
  intros Hsh Han Hq Hz. unfold lambda_step.
  rewrite (q_next_of_Ok discount H l a n q Hsh ltac:(lia) Hq).
  rewrite (py_index_nth (q_values l) a 0)
    by (rewrite (shaped_q_values Hsh); lia).
  cbn [bind]. rewrite Hz, jdiv_zero. reflexivity.
Qed.

Lemma lambda_loop_outcome (l : lists) (n a : nat) :
  shaped H l -> (a + n = H)%nat ->
  ((forall t, (t < n)%nat -> divisor_at lamb t <> 0) /\
   exists q w,
     for_ (reversed (seq a n)) (lambda_step discount lamb l)
          ([nth H (q_values l) 0], 1) = Ok (q, w)) \/
  ((exists t, (t < n)%nat /\ divisor_at lamb t = 0) /\
   for_ (reversed (seq a n)) (lambda_step discount lamb l)
        ([nth H (q_values l) 0], 1) = Err NonFinite).
Proof.
  intros Hsh. revert a. induction n as [|n IH]; intros a Han.
  - left. split; [intros t Ht; lia | simpl; eauto].
  - rewrite reversed_seq_S, for__app.
    destruct (IH (S a) ltac:(lia)) as [[Hnz (q1 & w1 & E1)] | [Hz E1]].
    + rewrite E1. cbn [bind for_].
      destruct (lambda_loop_inv discount lamb H l n (S a) q1 w1 Hsh
                  ltac:(lia) E1) as ([Hlen _] & Hw & _).
      destruct (Qc_eq_dec (divisor_at lamb n) 0) as [Hd|Hd].
      * right. split; [exists n; split; [lia | exact Hd]|].
        unfold divisor_at in Hd. rewrite <- Hw in Hd.
        rewrite (lambda_step_NonFinite l a n q1 w1 Hsh Han Hlen Hd).
        reflexivity.
      * left. split.
        -- intros t Ht. destruct (Nat.eq_dec t n) as [->|Hne];
             [exact Hd | apply Hnz; lia].
        -- unfold divisor_at in Hd. rewrite <- Hw in Hd.
           destruct (lambda_step_Ok discount lamb H l a n q1 w1 Hsh Han
                       Hlen Hd) as (q2 & w2 & E2).
           rewrite E2. cbn [bind]. eauto.
    + right. split.
      * destruct Hz as (t & Ht & Hd). exists t. split; [lia | exact Hd].
      * rewrite E1. reflexivity.
Qed.

(** X8.  The forward pass of the lambda rule returns exactly when none of
    the [H] divisors [1 + lamb * lamb_weight] is zero; when one of them is
    zero (as for [lamb = -1] and [H >= 1]) its outcome is non-finite,
    whatever the model, the policy and the critic. *)
Theorem lambda_foward_returns_iff (expectile : Qc) (Robs : State)
  (Ra : Action) (key0 : PRNGKey) :
  ((forall n, (n < H)%nat -> divisor_at lamb n <> 0) ->
   exists out,
     DPG_lambda_update_actor.calculate_gae_foward
       discount lamb H expectile Robs Ra key0 = Ok out) /\
  ((exists n, (n < H)%nat /\ divisor_at lamb n = 0) ->
   DPG_lambda_update_actor.calculate_gae_foward
     discount lamb H expectile Robs Ra key0 = Err NonFinite).
Proof.
  destruct (imagine_foward_unrolled H Robs Ra key0) as (l & El & Hun).
  pose proof (unrolled_shaped Hun) as Hsh.
  unfold DPG_lambda_update_actor.calculate_gae_foward.
  rewrite El. cbn [bind]. unfold lambda_returns.
  rewrite (py_last_nth (q_values l) H 0 (shaped_q_values Hsh)). cbn [bind].
  unfold range.
  destruct (lambda_loop_outcome l H 0 Hsh ltac:(lia))
    as [[Hnz (q & w & E)] | [Hz E]].
  - split.
    + intros _. rewrite E. cbn [bind].
      destruct (lambda_loop_inv discount lamb H l H 0 q w Hsh ltac:(lia) E)
        as (Hch & _ & _).
      destruct (chained_reversed _ _ _ Hch) as (Hlen & _ & _).
      destruct (asymmetric_weights_spec expectile H (reversed q) l Hlen Hsh)
        as (ep & Eep & _).
      rewrite Eep. cbn [bind]. eauto.
    + intros (n & Hn & Hd). exfalso. exact (Hnz n Hn Hd).
  - split.
    + intros Hnz. exfalso. destruct Hz as (n & Hn & Hd).
      exact (Hnz n Hn Hd).
    + intros _. rewrite E. reflexivity.
Qed.
End LambdaDivisors.

Lemma lambda_foward_returns_iff_witness :
  (exists n, (n < 2)%nat /\ divisor_at (- (1)) n = 0) /\
  @DPG_lambda_update_actor.calculate_gae_foward (toy 0)
    1 (- (1)) 2 half 1 [1] 0%nat = Err NonFinite.
Proof.
  assert (Hz : exists n, (n < 2)%nat /\ divisor_at (- (1)) n = 0).
  { exists 0%nat. split; [lia|]. apply Qc_is_canon. reflexivity. }
  split; [exact Hz|].
  apply (proj2 (@lambda_foward_returns_iff (toy 0) 1 (- (1)) 2 half 1 [1]
                  0%nat) Hz).
Defined.

(** ** The perturbed replay on perturbations of the actions' shape *)

Lemma jnp_index_In {A : Type} (a : list A) (i : nat) :
  a <> [] -> exists x, jnp_index a i = Ok x /\ In x a.
Proof.
  intros Ha. destruct a as [|y a]; [contradiction|].
  unfold jnp_index. eexists. split; [reflexivity|].
  apply nth_In. simpl length. lia.
Qed.

Lemma jnp_add_same_length (a b : list Qc) :
  length a = length b ->
  exists c, jnp_add a b = Ok c /\ length c = length a.
Proof.
  intros Hlen. unfold jnp_add.
  rewrite (broadcast_same_length (fun x y => Ok (x + y)) Qcplus a b Hlen)
    by reflexivity.
  eexists. split; [reflexivity|]. apply length_zip_with. exact Hlen.
Qed.

Section BackwardReturns.
Context {C : Collaborators}.

Lemma next_action_backward_Ok (A : nat) (delta_a : list Action) (i : nat)
  (s : State) :
  delta_a <> [] -> Forall (fun d => length d = A) delta_a ->
  (forall s', length (get_deter (actor s')) = A) ->
  exists a_next, next_action_backward delta_a i s = Ok a_next.
Proof.
  intros Hne Hrows Hact. unfold next_action_backward.
  destruct (jnp_index_In delta_a (i + 1) Hne) as (d & Ed & Hd).
  rewrite Ed. cbn [bind].
  destruct (jnp_add_same_length (get_deter (actor s)) d) as (c & Ec & _).
  - rewrite (Hact s). symmetry.
    exact (proj1 (Forall_forall _ _) Hrows d Hd).
  - eauto.
Qed.

Lemma for_backward_Ok (A : nat) (delta_a : list Action) (n : nat)
  (l0 : lists) :
  delta_a <> [] -> Forall (fun d => length d = A) delta_a ->
  (forall s', length (get_deter (actor s')) = A) ->
  shaped 0 l0 ->
  exists l, for_ (range n) (backward_step delta_a) l0 = Ok l /\ shaped n l.
Proof.
  intros Hne Hrows Hact H0. induction n as [|n (l & El & Hsh)].
  - exists l0. split; [reflexivity | exact H0].
  - rewrite for__range_S, El. cbn [bind].
    destruct (shaped_reads Hsh) as (k & s & a & m & Ek & Es & Ea & Em).
    rewrite (backward_step_extend delta_a Hsh Ek Es Ea Em).
    destruct (next_action_backward_Ok A delta_a n
                (s_next_of (model (rng1_of k) s a)) Hne Hrows Hact)
      as (a_next & En).
    rewrite En. cbn [bind]. eexists. split; [reflexivity|].
    apply shaped_extend. exact Hsh.
Qed.

Lemma imagine_backward_Ok (A H : nat) (delta_a : list Action)
  (Robs : State) (Ra : Action) (key0 : PRNGKey) :
  delta_a <> [] -> Forall (fun d => length d = A) delta_a ->
  length Ra = A ->
  (forall s', length (get_deter (actor s')) = A) ->
  exists l, imagine_backward H delta_a Robs Ra key0 = Ok l /\ shaped H l.
Proof.
  intros Hne Hrows HRa Hact. unfold imagine_backward, backward_init.
  destruct (jnp_index_In delta_a 0 Hne) as (d0 & Ed & Hd).
  rewrite Ed. cbn [bind].
  destruct (jnp_add_same_length Ra d0) as (a0 & Ea & _).
  { rewrite HRa. symmetry. exact (proj1 (Forall_forall _ _) Hrows d0 Hd). }
  rewrite Ea. cbn [bind].
  apply (for_backward_Ok A); try assumption. split; reflexivity.
Qed.

(** X9.  The perturbed rollout function returns [H + 1] returns for every
    non-empty perturbation whose rows have the shape of the actions (the
    start action and every action of the policy have [A] components).  On
    an empty perturbation it raises an index error. *)
Theorem calculate_gae_backward_returns (discount lamb : Qc) (H A : nat)
  (delta_a : list Action) (Robs : State) (Ra : Action) (key0 : PRNGKey) :
  0 <= lamb ->
  length Ra = A ->
  (forall s, length (get_deter (actor s)) = A) ->
  (delta_a <> [] -> Forall (fun d => length d = A) delta_a ->
   (exists q,
      DPG_lambda_update_actor.calculate_gae_backward
        discount lamb H delta_a Robs Ra key0 = Ok q /\
      length q = S H) /\
   (exists q,
      DPG_multistep_update_actor.calculate_gae_backward
        discount H delta_a Robs Ra key0 = Ok q /\
      length q = S H)) /\
  DPG_lambda_update_actor.calculate_gae_backward
    discount lamb H [] Robs Ra key0 = Err IndexError /\
  DPG_multistep_update_actor.calculate_gae_backward
    discount H [] Robs Ra key0 = Err IndexError.
Proof.
  intros Hl HRa Hact. split; [|split; reflexivity].
  intros Hne Hrows.
  destruct (imagine_backward_Ok A H delta_a Robs Ra key0 Hne Hrows HRa Hact)
    as (l & El & Hsh).
  split.
  - destruct (lambda_returns_Ok discount lamb H l Hl Hsh) as (q & Eq).
    exists q. unfold DPG_lambda_update_actor.calculate_gae_backward.
    rewrite El. cbn [bind]. split; [exact Eq|].
    exact (proj1 (lambda_returns_spec discount lamb H l q Hsh Eq)).
  - destruct (multistep_returns_spec discount H l Hsh)
      as (q & Eq & Hlen & _).
    exists q. unfold DPG_multistep_update_actor.calculate_gae_backward.
    rewrite El. cbn [bind]. split; [exact Eq | exact Hlen].
Qed.
End BackwardReturns.

Lemma calculate_gae_backward_returns_witness :
  0 <= half /\ length [1] = 1%nat /\
  (forall s, length (@get_deter (toy 0) (actor s)) = 1%nat) /\
  [[1]; [half]; [0]] <> [] /\
  Forall (fun d : list Qc => length d = 1%nat) [[1]; [half]; [0]] /\
  (exists q,
     @DPG_lambda_update_actor.calculate_gae_backward (toy 0)
       1 half 2 [[1]; [half]; [0]] 1 [1] 0%nat = Ok q /\
     length q = 3%nat) /\
  (exists q,
     @DPG_multistep_update_actor.calculate_gae_backward (toy 0)
       1 2 [[1]; [half]; [0]] 1 [1] 0%nat = Ok q /\
     length q = 3%nat).
Proof.
  assert (Hl : 0 <= half) by (qc_to_q; lra).
  assert (Hact : forall s, length (@get_deter (toy 0) (actor s)) = 1%nat)
    by reflexivity.
  assert (Hne : [[1]; [half]; [0]] <> ([] : list (list Qc)))
    by discriminate.
  assert (Hrows : Forall (fun d : list Qc => length d = 1%nat)
                    [[1]; [half]; [0]]) by (repeat constructor).
  split; [exact Hl|]. split; [reflexivity|]. split; [exact Hact|].
  split; [exact Hne|]. split; [exact Hrows|].
  apply (proj1 (@calculate_gae_backward_returns (toy 0) 1 half 2 1
                  [[1]; [half]; [0]] 1 [1] 0%nat Hl eq_refl Hact)
           Hne Hrows).
Defined.

(** ** The mapped forward pass is a transposition *)

Lemma mapM_nth_error {A B : Type} (f : A -> res B) (l : list A)
  (ys : list B) (b : nat) (x : A) :
  mapM f l = Ok ys -> nth_error l b = Some x ->
  exists y, f x = Ok y /\ nth_error ys b = Some y.
Proof.
  revert ys b. induction l as [|x0 l IH]; intros ys b E Hb.
  - destruct b; discriminate.
  - simpl in E. apply bind_Ok in E as (y0 & Ey0 & E).
    apply bind_Ok in E as (ys' & Eys & E). injection E as <-.
    destruct b as [|b].
    + simpl in Hb. injection Hb as <-. exists y0. split; [exact Ey0|].
      reflexivity.
    + simpl in Hb. destruct (IH ys' b Eys Hb) as (y & Ey & Hy).
      exists y. split; [exact Ey | exact Hy].
Qed.

Lemma mapM_length {A B : Type} (f : A -> res B) (l : list A) (ys : list B) :
  mapM f l = Ok ys -> length ys = length l.
Proof.
  revert ys. induction l as [|x l IH]; intros ys E.
  - simpl in E. injection E as <-. reflexivity.
  - simpl in E. apply bind_Ok in E as (y0 & _ & E).
    apply bind_Ok in E as (ys' & Eys & E). injection E as <-.
    simpl. rewrite (IH ys' Eys). reflexivity.
Qed.

Lemma stack_column_nth_error {A : Type} (i : nat) (outs : list (list A))
  (b : nat) :
  Forall (fun o => (i < length o)%nat) outs ->
  nth_error
    (flat_map (fun o => match nth_error o i with
                        | Some x => [x]
                        | None => []
                        end) outs) b
  = match nth_error outs b with
    | Some o => nth_error o i
    | None => None
    end.
Proof.
  intros Hall. revert b. induction Hall as [|o outs Ho _ IH]; intros b.
  - destruct b; reflexivity.
  - simpl flat_map. destruct (nth_error_lt o i Ho) as [x Ex]. rewrite Ex.
    destruct b as [|b]; simpl; [symmetry; exact Ex | apply IH].
Qed.

Lemma stack_column_length {A : Type} (i : nat) (outs : list (list A)) :
  Forall (fun o => (i < length o)%nat) outs ->
  length
    (flat_map (fun o => match nth_error o i with
                        | Some x => [x]
                        | None => []
                        end) outs)
  = length outs.
Proof.
  intros Hall. induction Hall as [|o outs Ho _ IH]; simpl; [reflexivity|].
  destruct (nth_error_lt o i Ho) as [x Ex]. rewrite Ex. simpl.
  rewrite IH. reflexivity.
Qed.

(** Stacking [B] sequences of [n] entries along axis 1 gives [n] rows of
    [B] entries, row [i] holding entry [i] of every sequence. *)
Lemma stack_axis1_transposes {A : Type} (n : nat) (outs : list (list A)) :
  Forall (fun o => length o = n) outs ->
  length (stack_axis1 n outs) = n /\
  rect2 (length outs) (stack_axis1 n outs) /\
  forall i b o,
    (i < n)%nat -> nth_error outs b = Some o ->
    nth_error (nth i (stack_axis1 n outs) []) b = nth_error o i.
Proof.
  intros Hall. unfold stack_axis1. split; [|split].
  - rewrite length_map, length_seq. reflexivity.
  - apply Forall_map. apply Forall_forall. intros i Hi.
    apply in_seq in Hi. apply stack_column_length.
    eapply Forall_impl; [|exact Hall]. intros o Ho. cbv beta in Ho. lia.
  - intros i b o Hi Hb.
    rewrite (nth_indep _ [] (flat_map (fun o' => match nth_error o' 0%nat with
                                              | Some x => [x]
                                              | None => []
                                              end) outs))
      by (rewrite length_map, length_seq; exact Hi).
    rewrite (map_nth (fun i0 =>
                        flat_map (fun o' => match nth_error o' i0 with
                                            | Some x => [x]
                                            | None => []
                                            end) outs) (seq 0 n) 0%nat i).
    rewrite seq_nth by exact Hi. simpl plus.
    rewrite stack_column_nth_error, Hb; [reflexivity|].
    eapply Forall_impl; [|exact Hall]. intros o' Ho'. cbv beta in Ho'. lia.
Qed.

Lemma nth_error_combine {A B : Type} (l1 : list A) (l2 : list B) (b : nat)
  (x : A) (y : B) :
  nth_error l1 b = Some x -> nth_error l2 b = Some y ->
  nth_error (combine l1 l2) b = Some (x, y).
Proof.
  revert l2 b. induction l1 as [|x0 l1 IH]; intros [|y0 l2] [|b] H1 H2;
    simpl in *; try discriminate.
  - congruence.
  - apply IH; assumption.
Qed.

Section VmapFacts.
Context {C : Collaborators}.

Lemma vmap_foward_stacked (H : nat)
  (func : State -> Action -> PRNGKey ->
          res (list State * list Action * list Qc * list Qc * list Qc))
  (Robs : list State) (Ra : list Action) (keys : list PRNGKey) :
  (forall o a k,
     exists st ac mw q ep,
       func o a k = Ok (st, ac, mw, q, ep) /\
       length st = S H /\ length ac = S H /\ length mw = S H /\
       length q = S H /\ length ep = S H) ->
  length Ra = length Robs -> length keys = length Robs ->
  exists fo,
    vmap_foward H func Robs Ra keys = Ok fo /\
    stacked_from H func Robs Ra keys fo.
Proof.
  intros Hfunc HRa Hkeys. unfold vmap_foward.
  rewrite HRa, Hkeys, !Nat.eqb_refl. cbn [andb].
  destruct (mapM_Forall
              (fun x => func (fst (fst x)) (snd (fst x)) (snd x))
              (fun out =>
                 length (fst (fst (fst (fst out)))) = S H /\
                 length (snd (fst (fst (fst out)))) = S H /\
                 length (snd (fst (fst out))) = S H /\
                 length (snd (fst out)) = S H /\
                 length (snd out) = S H)
              (combine (combine Robs Ra) keys))
    as (outs & Eouts & Hlen & Houts).
  { intros [[o a] k] _. cbn [fst snd].
    destruct (Hfunc o a k) as (st & ac & mw & q & ep & E & Hl).
    eexists. split; [exact E|]. cbn [fst snd]. exact Hl. }
  rewrite Eouts. cbn [bind]. eexists. split; [reflexivity|].
  assert (HB : length outs = length Robs).
  { rewrite Hlen, !length_combine. lia. }
  assert (Hst : Forall (fun o => length o = S H)
                  (map (fun o => fst (fst (fst (fst o)))) outs)).
  { apply Forall_map. eapply Forall_impl; [|exact Houts].
    intros out Hout. exact (proj1 Hout). }
  assert (Hac : Forall (fun o => length o = S H)
                  (map (fun o => snd (fst (fst (fst o)))) outs)).
  { apply Forall_map. eapply Forall_impl; [|exact Houts].
    intros out Hout. exact (proj1 (proj2 Hout)). }
  assert (Hmw : Forall (fun o => length o = S H)
                  (map (fun o => snd (fst (fst o))) outs)).
  { apply Forall_map. eapply Forall_impl; [|exact Houts].
    intros out Hout. exact (proj1 (proj2 (proj2 Hout))). }
  assert (Hq : Forall (fun o => length o = S H)
                 (map (fun o => snd (fst o)) outs)).
  { apply Forall_map. eapply Forall_impl; [|exact Houts].
    intros out Hout. exact (proj1 (proj2 (proj2 (proj2 Hout)))). }
  assert (Hep : Forall (fun o => length o = S H)
                  (map (fun o => snd o) outs)).
  { apply Forall_map. eapply Forall_impl; [|exact Houts].
    intros out Hout. exact (proj2 (proj2 (proj2 (proj2 Hout)))). }
  destruct (stack_axis1_transposes (S H) _ Hst) as (Lst & Rst & Cst).
  destruct (stack_axis1_transposes (S H) _ Hac) as (Lac & Rac & Cac).
  destruct (stack_axis1_transposes (S H) _ Hmw) as (Lmw & Rmw & Cmw).
  destruct (stack_axis1_transposes (S H) _ Hq) as (Lq & Rq & Cq).
  destruct (stack_axis1_transposes (S H) _ Hep) as (Lep & Rep & Cep).
  rewrite length_map, HB in Rst, Rac, Rmw, Rq, Rep.
  unfold stacked_from. cbn [states0 actions0 mask_weights0 q_rollout0
                              ep_weights0].
  split; [split; assumption|]. split; [split; assumption|].
  split; [split; assumption|]. split; [split; assumption|].
  split; [split; assumption|].
  intros b o a k Ho Ha Hk.
  pose proof (nth_error_combine _ _ b _ _
                (nth_error_combine _ _ b _ _ Ho Ha) Hk) as Hin.
  destruct (mapM_nth_error _ _ _ b _ Eouts Hin) as (out & Eout & Hout).
  cbn [fst snd] in Eout.
  destruct out as [[[[st ac] mw] q] ep].
  exists st, ac, mw, q, ep. split; [exact Eout|].
  intros i Hi.
  rewrite (Cst i b st ltac:(lia)) by (rewrite nth_error_map, Hout; reflexivity).
  rewrite (Cac i b ac ltac:(lia)) by (rewrite nth_error_map, Hout; reflexivity).
  rewrite (Cmw i b mw ltac:(lia)) by (rewrite nth_error_map, Hout; reflexivity).
  rewrite (Cq i b q ltac:(lia)) by (rewrite nth_error_map, Hout; reflexivity).
  rewrite (Cep i b ep ltac:(lia)) by (rewrite nth_error_map, Hout; reflexivity).
  repeat split; reflexivity.
Qed.

Lemma lambda_foward_lengths (discount lamb : Qc) (H : nat) (expectile : Qc)
  (Robs : State) (Ra : Action) (key0 : PRNGKey) :
  0 <= lamb ->
  exists st ac mw q ep,
    DPG_lambda_update_actor.calculate_gae_foward
      discount lamb H expectile Robs Ra key0 = Ok (st, ac, mw, q, ep) /\
    length st = S H /\ length ac = S H /\ length mw = S H /\
    length q = S H /\ length ep = S H.
Proof.
  intros Hl.
  destruct (lambda_foward_parts discount lamb H expectile Robs Ra key0 Hl)
    as (l & q & ep & _ & Hun & _ & (Hq & _) & (Hep & _) & Ecalc).
  destruct (unrolled_shaped Hun) as [Ls Lr La Lm Lk Lq].
  exists (states l), (actions l), (mask_weights l), q, ep.
  repeat split; assumption.
Qed.

Lemma multistep_foward_lengths (discount : Qc) (H : nat) (expectile : Qc)
  (Robs : State) (Ra : Action) (key0 : PRNGKey) :
  exists st ac mw q ep,
    DPG_multistep_update_actor.calculate_gae_foward
      discount H expectile Robs Ra key0 = Ok (st, ac, mw, q, ep) /\
    length st = S H /\ length ac = S H /\ length mw = S H /\
    length q = S H /\ length ep = S H.
Proof.
  destruct (multistep_foward_parts discount H expectile Robs Ra key0)
    as (l & q & ep & _ & Hun & _ & (Hq & _) & (Hep & _) & Ecalc).
  destruct (unrolled_shaped Hun) as [Ls Lr La Lm Lk Lq].
  exists (states l), (actions l), (mask_weights l), q, ep.
  repeat split; assumption.
Qed.

(** X10.  The forward pass mapped over a batch of [B] examples, with start
    actions and keys of the same number, returns arrays of [H + 1] rows of
    [B] entries each, and entry [(i, b)] of every array is entry [i] of
    the forward pass on example [b]: the batch axis is axis 1. *)
Theorem vmap_foward_stacks_along_axis1 (discount lamb : Qc) (H : nat)
  (expectile : Qc) (Robs : list State) (Ra : list Action)
  (keys : list PRNGKey) :
  0 <= lamb -> length Ra = length Robs -> length keys = length Robs ->
  (exists fo,
     vmap_foward H
       (DPG_lambda_update_actor.calculate_gae_foward
          discount lamb H expectile) Robs Ra keys = Ok fo /\
     stacked_from H
       (DPG_lambda_update_actor.calculate_gae_foward
          discount lamb H expectile) Robs Ra keys fo) /\
  (exists fo,
     vmap_foward H
       (DPG_multistep_update_actor.calculate_gae_foward
          discount H expectile) Robs Ra keys = Ok fo /\
     stacked_from H
       (DPG_multistep_update_actor.calculate_gae_foward
          discount H expectile) Robs Ra keys fo).
Proof.
  intros Hl HRa Hkeys. split.
  - apply vmap_foward_stacked; try assumption.
    intros o a k. apply lambda_foward_lengths. exact Hl.
  - apply vmap_foward_stacked; try assumption.
    intros o a k. apply multistep_foward_lengths.
Qed.
End VmapFacts.

Lemma vmap_foward_stacks_along_axis1_witness :
  0 <= half /\ length [[1]; [1 + 1]] = length [1; 1 + 1] /\
  length [0%nat; 1%nat] = length [1; 1 + 1] /\
  exists fo,
    vmap_foward 2
      (@DPG_multistep_update_actor.calculate_gae_foward (toy 0) 1 2 half)
      [1; 1 + 1] [[1]; [1 + 1]] [0%nat; 1%nat] = Ok fo /\
    stacked_from 2
      (@DPG_multistep_update_actor.calculate_gae_foward (toy 0) 1 2 half)
      [1; 1 + 1] [[1]; [1 + 1]] [0%nat; 1%nat] fo.
Proof.
  split; [qc_to_q; lra|]. split; [reflexivity|]. split; [reflexivity|].
  apply (proj2 (@vmap_foward_stacks_along_axis1 (toy 0) 1 half 2 half
                  [1; 1 + 1] [[1]; [1 + 1]] [0%nat; 1%nat]
                  ltac:(qc_to_q; lra) eq_refl eq_refl)).
Defined.

(** ** The loss function on the output of the forward pass *)

Lemma zip_with_map_r {A B B' D : Type} (f : A -> B' -> D) (h : B -> B')
  (l1 : list A) (l2 : list B) :
  zip_with f l1 (map h l2) = zip_with (fun a b => f a (h b)) l1 l2.
Proof.
  unfold zip_with. revert l2.
  induction l1 as [|x l1 IH]; intros [|y l2]; simpl; try reflexivity.
  f_equal. apply IH.
Qed.

Lemma mul1_scalar_r (g : list Qc) (w : Qc) :
  mul1 g [w] = Ok (map (fun a => a * w) g).
Proof.
  unfold mul1, broadcast. destruct (length g =? length [w]) eqn:E.
  - destruct g as [|g0 [|g1 g]]; simpl in E; try discriminate. reflexivity.
  - destruct g as [|g0 [|g1 g]]; simpl in E; try discriminate.
    + reflexivity.
    + apply mapM_Ok_map. reflexivity.
Qed.

Lemma mul2_expand_r (prow : tensor2) (wrow : list Qc) :
  length prow = length wrow ->
  mul2 prow (map (fun x => [x]) wrow)
  = Ok (zip_with (fun g w => map (fun a => a * w) g) prow wrow).
Proof.
  intros Hlen.
  rewrite (broadcast_same_length mul1
             (fun g wl => map (fun a => a * hd 0 wl) g)).
  - rewrite zip_with_map_r. reflexivity.
  - rewrite length_map. exact Hlen.
  - intros g wl _ Hwl. apply in_map_iff in Hwl as (w & <- & _).
    apply mul1_scalar_r.
Qed.

Lemma mul3_expand_r (B : nat) (p : tensor3) (w : tensor2) :
  length p = length w ->
  Forall (fun m => length m = B) p -> rect2 B w ->
  mul3 p (expand_last w)
  = Ok (zip_with (zip_with (fun g w => map (fun a => a * w) g)) p w).
Proof.
  intros Hlen Hp Hw. unfold expand_last.
  rewrite (broadcast_same_length mul2
             (fun m wl =>
                zip_with (fun g w => map (fun a => a * hd 0 w) g) m wl)).
  - rewrite zip_with_map_r. f_equal. unfold zip_with at 1 3.
    apply map_ext. intros [m wrow]. cbn [fst snd].
    rewrite zip_with_map_r. reflexivity.
  - rewrite length_map. exact Hlen.
  - intros m wl Hm Hwl. apply in_map_iff in Hwl as (wrow & <- & Hwrow).
    rewrite mul2_expand_r.
    + rewrite zip_with_map_r. reflexivity.
    + rewrite (proj1 (Forall_forall _ _) Hw wrow Hwrow).
      rewrite (proj1 (Forall_forall _ _) Hp m Hm). reflexivity.
Qed.

Lemma size3_rect {X : Type} (B A : nat) (t : list (list (list X))) :
  rect3 B A t -> size3 t = (length t * B * A)%nat.
Proof.
  intros Hrect. induction Hrect as [|m t [Lm Rm] _ IH]; simpl;
    [reflexivity|].
  rewrite IH, (size2_rect A m Rm), Lm. lia.
Qed.

Lemma size3_abs3 (t : tensor3) : size3 (abs3 t) = size3 t.
Proof.
  unfold abs3. induction t as [|m t IH]; simpl; [reflexivity|].
  rewrite IH. f_equal.
  induction m as [|r m IHm]; simpl; [reflexivity|].
  rewrite IHm, length_map. reflexivity.
Qed.

Lemma mean2_Ok (m : tensor2) :
  (0 < size2 m)%nat -> mean2 m = Ok (sum2 m / Qc_of_nat (size2 m)).
Proof.
  intros Hs. unfold mean2. apply jdiv_Ok. apply Qc_of_nat_neq0. exact Hs.
Qed.

Lemma mean3_Ok (t : tensor3) :
  (0 < size3 t)%nat -> mean3 t = Ok (sum3 t / Qc_of_nat (size3 t)).
Proof.
  intros Hs. unfold mean3. apply jdiv_Ok. apply Qc_of_nat_neq0. exact Hs.
Qed.

Lemma stack_axis1_entries {A : Type} (P : A -> Prop) (n : nat)
  (outs : list (list A)) :
  Forall (Forall P) outs -> Forall (Forall P) (stack_axis1 n outs).
Proof.
  intros Hall. unfold stack_axis1. apply Forall_map, Forall_forall.
  intros i _. apply Forall_flat_map.
  eapply Forall_impl; [|exact Hall]. intros o Ho. cbv beta.
  destruct (nth_error o i) as [x|] eqn:E; [|constructor].
  constructor; [|constructor].
  exact (proj1 (Forall_forall _ _) Ho x (nth_error_In _ _ E)).
Qed.

Lemma Forall_nth_nonneg (H : nat) (mask : list Qc) :
  length mask = S H ->
  (forall i, (i <= H)%nat -> 0 <= nth i mask 0) ->
  Forall (fun m => 0 <= m) mask.
Proof.
  intros Hlen Hnn. apply Forall_forall. intros x Hx.
  destruct (In_nth _ _ 0 Hx) as (i & Hi & <-). apply Hnn. lia.
Qed.

Section FowardPassFacts.
Context {C : Collaborators}.

Lemma asymmetric_weight_values (expectile : Qc) (H : nat) (l : lists)
  (q ep : list Qc) :
  is_asymmetric_weight expectile H l q ep ->
  Forall (fun w => w = expectile \/ w = 1 - expectile \/ w = half) ep.
Proof.
  intros (Hlen & Hlast & Hw). apply Forall_forall. intros w Hin.
  destruct (In_nth _ _ 0 Hin) as (i & Hi & <-).
  destruct (Nat.eq_dec i H) as [-> | Hne].
  - right. right. exact Hlast.
  - destruct (Hw i ltac:(lia)) as [Hgt Hngt].
    destruct (Qclt_le_dec (nth i (q_values l) 0) (nth i q 0)) as [Hlt | Hle].
    + left. exact (Hgt Hlt).
    + right. left. apply Hngt. apply Qcle_not_lt. exact Hle.
Qed.

Lemma lambda_foward_example (discount lamb : Qc) (H A : nat)
  (expectile : Qc) Robs Ra key0 :
  0 <= lamb ->
  (forall k s a,
     0 <= terminal_of (model k s a) /\ terminal_of (model k s a) <= 1) ->
  length Ra = A -> (forall s, length (get_deter (actor s)) = A) ->
  exists out,
    DPG_lambda_update_actor.calculate_gae_foward
      discount lamb H expectile Robs Ra key0 = Ok out /\
    foward_example H A expectile out.
Proof.
  intros Hl Hterm HRa Hact.
  destruct (lambda_foward_parts discount lamb H expectile Robs Ra key0 Hl)
    as (l & q & ep & _ & Hun & _ & (Hq & _) & Hep & Ecalc).
  destruct (unrolled_shaped Hun) as [Ls Lr La Lm Lk Lq].
  eexists. split; [exact Ecalc|]. unfold foward_example. cbn [fst snd].
  split; [exact Ls|].
  split; [split; [exact La | exact (unrolled_action_lengths A H _ _ _ _
                                      HRa Hact Hun)]|].
  split; [exact (unrolled_alive_mask _ _ _ _ _ _ Hterm Hun)|].
  split; [exact Hq|].
  split; [exact (proj1 Hep) | exact (asymmetric_weight_values _ _ _ _ _ Hep)].
Qed.

Lemma multistep_foward_example (discount : Qc) (H A : nat)
  (expectile : Qc) Robs Ra key0 :
  (forall k s a,
     0 <= terminal_of (model k s a) /\ terminal_of (model k s a) <= 1) ->
  length Ra = A -> (forall s, length (get_deter (actor s)) = A) ->
  exists out,
    DPG_multistep_update_actor.calculate_gae_foward
      discount H expectile Robs Ra key0 = Ok out /\
    foward_example H A expectile out.
Proof.
  intros Hterm HRa Hact.
  destruct (multistep_foward_parts discount H expectile Robs Ra key0)
    as (l & q & ep & _ & Hun & _ & (Hq & _) & Hep & Ecalc).
  destruct (unrolled_shaped Hun) as [Ls Lr La Lm Lk Lq].
  eexists. split; [exact Ecalc|]. unfold foward_example. cbn [fst snd].
  split; [exact Ls|].
  split; [split; [exact La | exact (unrolled_action_lengths A H _ _ _ _
                                      HRa Hact Hun)]|].
  split; [exact (unrolled_alive_mask _ _ _ _ _ _ Hterm Hun)|].
  split; [exact Hq|].
  split; [exact (proj1 Hep) | exact (asymmetric_weight_values _ _ _ _ _ Hep)].
Qed.

Lemma vmap_foward_examples (H A : nat) (expectile : Qc)
  (func : State -> Action -> PRNGKey ->
          res (list State * list Action * list Qc * list Qc * list Qc))
  (Robs : list State) (Ra : list Action) (keys : list PRNGKey) :
  (forall o a k,
     In a Ra ->
     exists out, func o a k = Ok out /\ foward_example H A expectile out) ->
  (0 < length Robs)%nat -> length Ra = length Robs ->
  length keys = length Robs ->
  exists fo,
    vmap_foward H func Robs Ra keys = Ok fo /\
    foward_pass_shaped H (length Robs) A expectile fo.
Proof.
  intros Hfunc HB HRa Hkeys. unfold vmap_foward.
  rewrite HRa, Hkeys, !Nat.eqb_refl. cbn [andb].
  destruct (mapM_Forall
              (fun x => func (fst (fst x)) (snd (fst x)) (snd x))
              (foward_example H A expectile)
              (combine (combine Robs Ra) keys))
    as (outs & Eouts & Hlen & Houts).
  { intros [[o a] k] Hin. cbn [fst snd]. apply Hfunc.
    apply in_combine_l in Hin. apply in_combine_r in Hin. exact Hin. }
  rewrite Eouts. cbn [bind]. eexists. split; [reflexivity|].
  assert (HBo : length outs = length Robs).
  { rewrite Hlen, !length_combine. lia. }
  assert (Hst : Forall (fun o => length o = S H)
                  (map (fun o => fst (fst (fst (fst o)))) outs)).
  { apply Forall_map. eapply Forall_impl; [|exact Houts].
    intros out Hout. exact (proj1 Hout). }
  assert (Hac : Forall (fun o => length o = S H)
                  (map (fun o => snd (fst (fst (fst o)))) outs)).
  { apply Forall_map. eapply Forall_impl; [|exact Houts].
    intros out Hout. exact (proj1 (proj1 (proj2 Hout))). }
  assert (Hac' : Forall (Forall (fun a => length a = A))
                   (map (fun o => snd (fst (fst (fst o)))) outs)).
  { apply Forall_map. eapply Forall_impl; [|exact Houts].
    intros out Hout. exact (proj2 (proj1 (proj2 Hout))). }
  assert (Hmw : Forall (fun o => length o = S H)
                  (map (fun o => snd (fst (fst o))) outs)).
  { apply Forall_map. eapply Forall_impl; [|exact Houts].
    intros out Hout. exact (proj1 (proj1 (proj2 (proj2 Hout)))). }
  assert (Hmw' : Forall (Forall (fun m => 0 <= m))
                   (map (fun o => snd (fst (fst o))) outs)).
  { apply Forall_map. eapply Forall_impl; [|exact Houts].
    intros out Hout. cbv beta.
    destruct (proj1 (proj2 (proj2 Hout))) as (L & _ & Hnn).
    exact (Forall_nth_nonneg H _ L Hnn). }
  assert (Hq : Forall (fun o => length o = S H)
                 (map (fun o => snd (fst o)) outs)).
  { apply Forall_map. eapply Forall_impl; [|exact Houts].
    intros out Hout. exact (proj1 (proj2 (proj2 (proj2 Hout)))). }
  assert (Hep : Forall (fun o => length o = S H)
                  (map (fun o => snd o) outs)).
  { apply Forall_map. eapply Forall_impl; [|exact Houts].
    intros out Hout. exact (proj1 (proj2 (proj2 (proj2 (proj2 Hout))))). }
  assert (Hep' : Forall (Forall (fun w => w = expectile \/
                                          w = 1 - expectile \/ w = half))
                   (map (fun o => snd o) outs)).
  { apply Forall_map. eapply Forall_impl; [|exact Houts].
    intros out Hout. exact (proj2 (proj2 (proj2 (proj2 (proj2 Hout))))). }
  destruct (stack_axis1_transposes (S H) _ Hst) as (Lst & Rst & _).
  destruct (stack_axis1_transposes (S H) _ Hac) as (Lac & Rac & _).
  destruct (stack_axis1_transposes (S H) _ Hmw) as (Lmw & Rmw & _).
  destruct (stack_axis1_transposes (S H) _ Hq) as (Lq & Rq & _).
  destruct (stack_axis1_transposes (S H) _ Hep) as (Lep & Rep & _).
  rewrite length_map, HBo in Rst, Rac, Rmw, Rq, Rep.
  unfold foward_pass_shaped.
  cbn [states0 actions0 mask_weights0 q_rollout0 ep_weights0].
  split; [split; assumption|].
  split.
  { split; [exact Lac|]. unfold rect3, rect2 in *.
    pose proof (stack_axis1_entries _ (S H) _ Hac') as Hent.
    apply Forall_forall. intros m Hm. split.
    - exact (proj1 (Forall_forall _ _) Rac m Hm).
    - exact (proj1 (Forall_forall _ _) Hent m Hm). }
  split.
  { split; [exact Lmw|]. split; [exact Rmw|].
    exact (stack_axis1_entries _ (S H) _ Hmw'). }
  split; [split; assumption|].
  split.
  { split; [exact Lep|]. split; [exact Rep|].
    exact (stack_axis1_entries _ (S H) _ Hep'). }
  destruct (mean2_stacked_masks H (map (fun o => snd (fst (fst o))) outs))
    as (m & Em & Hpos & _ & Hdiv).
  - rewrite length_map, HBo. exact HB.
  - apply Forall_map. eapply Forall_impl; [|exact Houts].
    intros out Hout. exact (proj1 (proj2 (proj2 Hout))).
  - exists m. split; [exact Em|]. split; [exact Hpos | exact Hdiv].
Qed.
End FowardPassFacts.

Lemma rect3_scaled (n B A : nat) (p : tensor3) (w : tensor2) :
  length p = n -> rect3 B A p -> length w = n -> rect2 B w ->
  length (zip_with (zip_with (fun g w => map (fun a => a * w) g)) p w) = n /\
  rect3 B A (zip_with (zip_with (fun g w => map (fun a => a * w) g)) p w).
Proof.
  intros Lp Rp Lw Rw. split.
  - rewrite length_zip_with; congruence.
  - apply Forall_zip_with. intros m wrow Hm Hwrow.
    destruct (proj1 (Forall_forall _ _) Rp m Hm) as [Lm Rm].
    pose proof (proj1 (Forall_forall _ _) Rw wrow Hwrow) as Lwrow.
    split.
    + rewrite length_zip_with; congruence.
    + apply Forall_zip_with. intros g x Hg _. rewrite length_map.
      exact (proj1 (Forall_forall _ _) Rm g Hg).
Qed.

Lemma rect2_product (n B : nat) (a b : tensor2) :
  length a = n -> rect2 B a -> length b = n -> rect2 B b ->
  length (zip_with (zip_with Qcmult) a b) = n /\
  rect2 B (zip_with (zip_with Qcmult) a b).
Proof.
  intros La Ra Lb Rb. split.
  - rewrite length_zip_with; congruence.
  - apply Forall_zip_with. intros x y Hx Hy.
    rewrite length_zip_with.
    + exact (proj1 (Forall_forall _ _) Ra x Hx).
    + rewrite (proj1 (Forall_forall _ _) Ra x Hx).
      rewrite (proj1 (Forall_forall _ _) Rb y Hy). reflexivity.
Qed.

Section LossOnFowardPass.
Context {C : Collaborators}.

(** The statistics of the info dictionary on a forward pass of shape
    [(H + 1, B, A)]: every array operation finds the shapes it needs and
    every mean and quotient has a divisor other than zero. *)
Lemma info_statistics_return (H B A : nat) (expectile : Qc)
  (fo : foward_out) (policy_std : tensor3) :
  (0 < B)%nat -> (0 < A)%nat ->
  foward_pass_shaped H B A expectile fo ->
  length policy_std = S H -> rect3 B A policy_std ->
  exists q_mean std_masked std_mean mask_mean std adv_mean adv abs_mean,
    mean2 (q_rollout0 fo) = Ok q_mean /\
    mul3 policy_std (expand_last (mask_weights0 fo)) = Ok std_masked /\
    mean3 std_masked = Ok std_mean /\
    mean2 (mask_weights0 fo) = Ok mask_mean /\
    jdiv std_mean mask_mean = Ok std /\
    mul2 (ep_weights0 fo) (mask_weights0 fo)
    = Ok (zip_with (zip_with Qcmult) (ep_weights0 fo) (mask_weights0 fo)) /\
    mean2 (zip_with (zip_with Qcmult) (ep_weights0 fo) (mask_weights0 fo))
    = Ok adv_mean /\
    jdiv adv_mean mask_mean = Ok adv /\
    mean3 (abs3 (actions0 fo)) = Ok abs_mean.
Proof.
  intros HB HA
    ((Lst & Rst) & (Lac & Rac) & (Lmw & Rmw & _) & (Lq & Rq)
     & (Lep & Rep & _) & m & Em & _ & Hdiv) Lp Rp.
  destruct (rect3_scaled (S H) B A policy_std (mask_weights0 fo)
              Lp Rp Lmw Rmw) as (Lsm & Rsm).
  destruct (rect2_product (S H) B (ep_weights0 fo) (mask_weights0 fo)
              Lep Rep Lmw Rmw) as (Lam & Ram).
  eexists _, _, _, m, _, _, _, _.
  split.
  { apply mean2_Ok. rewrite (size2_rect B _ Rq), Lq. simpl. lia. }
  split.
  { apply (mul3_expand_r B); [congruence | | exact Rmw].
    eapply Forall_impl; [|exact Rp]. intros x [Hx _]. exact Hx. }
  split.
  { apply mean3_Ok. rewrite (size3_rect B A _ Rsm), Lsm. simpl. nia. }
  split; [exact Em|].
  split; [apply Hdiv|].
  split.
  { apply (mul2_same B); [congruence | exact Rep | exact Rmw]. }
  split.
  { apply mean2_Ok. rewrite (size2_rect B _ Ram), Lam. simpl. lia. }
  split; [apply Hdiv|].
  apply mean3_Ok. rewrite size3_abs3, (size3_rect B A _ Rac), Lac.
  simpl. nia.
Qed.
End LossOnFowardPass.

Lemma sum1_weighted_between (lo hi : Qc) (e m : list Qc) :
  length e = length m ->
  Forall (fun w => lo <= w /\ w <= hi) e -> Forall (fun x => 0 <= x) m ->
  lo * sum1 m <= sum1 (zip_with Qcmult e m) /\
  sum1 (zip_with Qcmult e m) <= hi * sum1 m.
Proof.
  revert m. induction e as [|w e IH]; intros [|x m] Hlen He Hm;
    try discriminate.
  - unfold zip_with. simpl. split; qc_to_q; lra.
  - inversion He as [|? ? [Hlo Hhi] He']; subst.
    inversion Hm as [|? ? Hx Hm']; subst.
    destruct (IH m ltac:(simpl in Hlen; lia) He' Hm') as [IHlo IHhi].
    unfold zip_with in *. simpl. revert IHlo IHhi.
    generalize (sum1 (map (fun p => fst p * snd p) (combine e m))).
    generalize (sum1 m). intros sm sz IHlo IHhi.
    split; qc_to_q; nra.
Qed.

Lemma sum2_weighted_between (lo hi : Qc) (B : nat) (e m : tensor2) :
  length e = length m -> rect2 B e -> rect2 B m ->
  Forall (Forall (fun w => lo <= w /\ w <= hi)) e ->
  Forall (Forall (fun x => 0 <= x)) m ->
  lo * sum2 m <= sum2 (zip_with (zip_with Qcmult) e m) /\
  sum2 (zip_with (zip_with Qcmult) e m) <= hi * sum2 m.
Proof.
  revert m. induction e as [|er e IH]; intros [|mr m] Hlen Re Rm He Hm;
    try discriminate.
  - unfold zip_with, sum2. simpl. split; qc_to_q; lra.
  - inversion Re as [|? ? Ler Re']; subst.
    inversion Rm as [|? ? Lmr Rm']; subst.
    inversion He as [|? ? Her He']; subst.
    inversion Hm as [|? ? Hmr Hm']; subst.
    destruct (IH m ltac:(simpl in Hlen; lia) Re' Rm' He' Hm')
      as [IHlo IHhi].
    destruct (sum1_weighted_between lo hi er mr ltac:(congruence) Her Hmr)
      as [Rlo Rhi].
    change (zip_with (zip_with Qcmult) (er :: e) (mr :: m))
      with (zip_with Qcmult er mr :: zip_with (zip_with Qcmult) e m).
    rewrite !sum2_cons. revert IHlo IHhi Rlo Rhi.
    generalize (sum2 (zip_with (zip_with Qcmult) e m)).
    generalize (sum1 (zip_with Qcmult er mr)).
    generalize (sum2 m). generalize (sum1 mr).
    intros a b c d IHlo IHhi Rlo Rhi. split; qc_to_q; nra.
Qed.

Lemma quotient_of_means_between (lo hi s m n : Qc) :
  0 < n -> 0 < m / n -> lo * m <= s -> s <= hi * m ->
  lo <= s / n / (m / n) /\ s / n / (m / n) <= hi.
Proof.
  intros Hn Hmn Hlo Hhi.
  assert (Hnz : n <> 0).
  { intros E. rewrite E in Hn. revert Hn. qc_to_q. lra. }
  assert (Hm : 0 < m).
  { assert (Em : m / n * n = m) by (field; exact Hnz).
    revert Em Hmn. generalize (m / n). intros y Em Hy.
    assert (EQm : (this (y * n) == this m)%Q) by (rewrite Em; reflexivity).
    clear Em Hlo Hhi Hnz. qc_to_q. nra. }
  assert (Hmz : m <> 0).
  { intros E. rewrite E in Hm. revert Hm. qc_to_q. lra. }
  replace (s / n / (m / n)) with (s / m) by (field; split; assumption).
  assert (Es : s / m * m = s) by (field; exact Hmz).
  clear Hmn Hn Hnz Hmz. revert Es. generalize (s / m). intros x Es.
  assert (EQs : (this (x * m) == this s)%Q) by (rewrite Es; reflexivity).
  clear Es. split; qc_to_q; nra.
Qed.

Section LossTheorems.
Context {C : Collaborators} {P : BatchPolicy C}.

Lemma adv_weights_quotient_between (H B A : nat) (expectile lo hi : Qc)
  (fo : foward_out) (adv_masked : tensor2) (adv_mean mask_mean adv : Qc) :
  foward_pass_shaped H B A expectile fo ->
  lo <= expectile -> expectile <= hi ->
  lo <= 1 - expectile -> 1 - expectile <= hi ->
  mul2 (ep_weights0 fo) (mask_weights0 fo) = Ok adv_masked ->
  mean2 adv_masked = Ok adv_mean ->
  mean2 (mask_weights0 fo) = Ok mask_mean ->
  jdiv adv_mean mask_mean = Ok adv ->
  lo <= adv /\ adv <= hi.
Proof.
  intros (_ & _ & (Lmw & Rmw & Hnn) & _ & (Lep & Rep & Hval) & m & Em
          & Hpos & _) Hlo1 Hhi1 Hlo2 Hhi2 Emul Eadv Emask Ediv.
  rewrite Em in Emask. injection Emask as <-.
  rewrite (mul2_same B) in Emul by (congruence || assumption).
  injection Emul as <-.
  destruct (rect2_product (S H) B _ _ Lep Rep Lmw Rmw) as (Lam & Ram).
  unfold mean2 in Eadv, Em.
  rewrite (size2_rect B _ Ram), Lam in Eadv.
  rewrite (size2_rect B _ Rmw), Lmw in Em.
  apply jdiv_inv in Eadv as [Hnz ->]. apply jdiv_inv in Em as [_ ->].
  apply jdiv_inv in Ediv as [_ ->].
  assert (Hn : 0 < Qc_of_nat (S H * B)).
  { apply Qc_of_nat_pos. destruct (S H * B)%nat; [|lia].
    exfalso. apply Hnz. reflexivity. }
  assert (Hin : Forall (Forall (fun w => lo <= w /\ w <= hi))
                  (ep_weights0 fo)).
  { eapply Forall_impl; [|exact Hval]. intros row Hrow.
    eapply Forall_impl; [|exact Hrow]. intros w [-> | [-> | ->]].
    - split; assumption.
    - split; assumption.
    - clear - Hlo1 Hhi1 Hlo2 Hhi2. split; qc_to_q; lra. }
  assert (Hlen : length (ep_weights0 fo) = length (mask_weights0 fo))
    by congruence.
  destruct (sum2_weighted_between lo hi B _ _ Hlen Rep Rmw Hin Hnn)
    as [Slo Shi].
  apply quotient_of_means_between; assumption.
Qed.

Lemma lambda_actor_loss_fn_Ok (lamb : Qc) (H B A : nat) (expectile : Qc)
  (fo : foward_out) (grad_gae : tensor3) (actor_params : Params) :
  (0 < B)%nat -> (0 < A)%nat ->
  foward_pass_shaped H B A expectile fo ->
  policy_shaped H B A actor_params ->
  length grad_gae = S H -> rect3 B A grad_gae ->
  exists loss info,
    DPG_lambda_update_actor.actor_loss_fn lamb fo grad_gae actor_params
    = Ok (loss, info).
Proof.
  intros HB HA Hfo Hpol Lg Rg.
  pose proof Hfo as ((Lst & Rst) & _ & _ & _ & (Lep & Rep & _) & _).
  destruct (Hpol (states0 fo) Lst Rst) as ((La & Ra) & (Ls & Rs)).
  destruct (dpg_loss_value (S H) B A (ep_weights0 fo) grad_gae _
              HB Lep Rep Lg Rg La Ra) as (_ & _ & Eloss).
  destruct (info_statistics_return H B A expectile fo _ HB HA Hfo Ls Rs)
    as (q_mean & std_masked & std_mean & mask_mean & std & adv_mean & adv
        & abs_mean & E1 & E2 & E3 & E4 & E5 & E6 & E7 & E8 & E9).
  unfold DPG_lambda_update_actor.actor_loss_fn. cbv zeta.
  rewrite Eloss. cbn [bind]. rewrite E1. cbn [bind]. rewrite E2.
  cbn [bind]. rewrite E3. cbn [bind]. rewrite E4. cbn [bind].
  rewrite E5. cbn [bind]. rewrite E6. cbn [bind]. rewrite E7.
  cbn [bind]. rewrite E8. cbn [bind]. rewrite E9. cbn [bind].
  eexists _, _. reflexivity.
Qed.

Lemma multistep_actor_loss_fn_Ok (H B A : nat) (expectile : Qc)
  (fo : foward_out) (grad_gae : tensor3) (actor_params : Params) :
  (0 < B)%nat -> (0 < A)%nat ->
  foward_pass_shaped H B A expectile fo ->
  policy_shaped H B A actor_params ->
  length grad_gae = S H -> rect3 B A grad_gae ->
  exists loss info,
    DPG_multistep_update_actor.actor_loss_fn fo grad_gae actor_params
    = Ok (loss, info).
Proof.
  intros HB HA Hfo Hpol Lg Rg.
  pose proof Hfo as ((Lst & Rst) & _ & _ & _ & (Lep & Rep & _) & _).
  destruct (Hpol (states0 fo) Lst Rst) as ((La & Ra) & (Ls & Rs)).
  destruct (dpg_loss_value (S H) B A (ep_weights0 fo) grad_gae _
              HB Lep Rep Lg Rg La Ra) as (_ & _ & Eloss).
  destruct (info_statistics_return H B A expectile fo _ HB HA Hfo Ls Rs)
    as (q_mean & std_masked & std_mean & mask_mean & std & adv_mean & adv
        & abs_mean & E1 & E2 & E3 & E4 & E5 & E6 & E7 & E8 & E9).
  unfold DPG_multistep_update_actor.actor_loss_fn. cbv zeta.
  rewrite Eloss. cbn [bind]. rewrite E1. cbn [bind]. rewrite E2.
  cbn [bind]. rewrite E3. cbn [bind]. rewrite E4. cbn [bind].
  rewrite E5. cbn [bind]. rewrite E6. cbn [bind]. rewrite E7.
  cbn [bind]. rewrite E8. cbn [bind]. rewrite E9. cbn [bind].
  eexists _, _. reflexivity.
Qed.

(** X11.  The loss function returns on the output of the forward pass.
    With a non-empty batch, actions of [A >= 1] components, terminal flags
    in [[0, 1]], a non-negative [lamb], and a value gradient and policy
    outputs of shape [(H + 1, B, A)], the mapped forward pass returns and
    the loss function of both update rules returns on its arrays: every
    broadcast finds matching shapes and none of the five means and two
    quotients of the info dictionary divides by zero. *)
Theorem actor_loss_fn_returns_on_foward_pass (discount lamb : Qc)
  (H A : nat) (expectile : Qc) (Robs : list State) (Ra : list Action)
  (keys : list PRNGKey) (grad_gae : tensor3) (actor_params : Params) :
  (forall k s a,
     0 <= terminal_of (model k s a) /\ terminal_of (model k s a) <= 1) ->
  0 <= lamb ->
  (0 < length Robs)%nat -> length Ra = length Robs ->
  length keys = length Robs ->
  (0 < A)%nat -> Forall (fun a => length a = A) Ra ->
  (forall s, length (get_deter (actor s)) = A) ->
  length grad_gae = S H -> rect3 (length Robs) A grad_gae ->
  policy_shaped H (length Robs) A actor_params ->
  (exists fo loss info,
     vmap_foward H
       (DPG_lambda_update_actor.calculate_gae_foward
          discount lamb H expectile) Robs Ra keys = Ok fo /\
     DPG_lambda_update_actor.actor_loss_fn lamb fo grad_gae actor_params
     = Ok (loss, info)) /\
  (exists fo loss info,
     vmap_foward H
       (DPG_multistep_update_actor.calculate_gae_foward
          discount H expectile) Robs Ra keys = Ok fo /\
     DPG_multistep_update_actor.actor_loss_fn fo grad_gae actor_params
     = Ok (loss, info)).
Proof.
  intros Hterm Hl HB HRa Hkeys HA HRal Hact Lg Rg Hpol. split.
  - destruct (vmap_foward_examples H A expectile
                (DPG_lambda_update_actor.calculate_gae_foward
                   discount lamb H expectile) Robs Ra keys)
      as (fo & Efo & Hfo); try assumption.
    { intros o a k Ha. apply lambda_foward_example; try assumption.
      exact (proj1 (Forall_forall _ _) HRal a Ha). }
    destruct (lambda_actor_loss_fn_Ok lamb H _ A expectile fo grad_gae
                actor_params HB HA Hfo Hpol Lg Rg) as (loss & info & E).
    exists fo, loss, info. split; assumption.
  - destruct (vmap_foward_examples H A expectile
                (DPG_multistep_update_actor.calculate_gae_foward
                   discount H expectile) Robs Ra keys)
      as (fo & Efo & Hfo); try assumption.
    { intros o a k Ha. apply multistep_foward_example; try assumption.
      exact (proj1 (Forall_forall _ _) HRal a Ha). }
    destruct (multistep_actor_loss_fn_Ok H _ A expectile fo grad_gae
                actor_params HB HA Hfo Hpol Lg Rg) as (loss & info & E).
    exists fo, loss, info. split; assumption.
Qed.

(** X12.  The [adv_weights] statistic is an average of the advantage
    weights, weighted by the alive-mask: with terminal flags in [[0, 1]]
    it lies between the smaller and the larger of [expectile] and
    [1 - expectile] (any bounds [lo] and [hi] of the two bound it),
    whatever the returns and the critic's values are. *)
Theorem adv_weights_info_between (discount lamb : Qc) (H A : nat)
  (expectile lo hi : Qc) (Robs : list State) (Ra : list Action)
  (keys : list PRNGKey) (grad_gae : tensor3) (actor_params : Params) :
  (forall k s a,
     0 <= terminal_of (model k s a) /\ terminal_of (model k s a) <= 1) ->
  0 <= lamb ->
  (0 < length Robs)%nat -> length Ra = length Robs ->
  length keys = length Robs ->
  Forall (fun a => length a = A) Ra ->
  (forall s, length (get_deter (actor s)) = A) ->
  lo <= expectile -> expectile <= hi ->
  lo <= 1 - expectile -> 1 - expectile <= hi ->
  (forall fo loss info,
     vmap_foward H
       (DPG_lambda_update_actor.calculate_gae_foward
          discount lamb H expectile) Robs Ra keys = Ok fo ->
     DPG_lambda_update_actor.actor_loss_fn lamb fo grad_gae actor_params
     = Ok (loss, info) ->
     lo <= DPG_lambda_update_actor.info_adv_weights info /\
     DPG_lambda_update_actor.info_adv_weights info <= hi) /\
  (forall fo loss info,
     vmap_foward H
       (DPG_multistep_update_actor.calculate_gae_foward
          discount H expectile) Robs Ra keys = Ok fo ->
     DPG_multistep_update_actor.actor_loss_fn fo grad_gae actor_params
     = Ok (loss, info) ->
     lo <= DPG_multistep_update_actor.info_adv_weights info /\
     DPG_multistep_update_actor.info_adv_weights info <= hi).
Proof.
  intros Hterm Hl HB HRa Hkeys HRal Hact Hlo1 Hhi1 Hlo2 Hhi2. split.
  - intros fo loss info Efo E.
    destruct (vmap_foward_examples H A expectile
                (DPG_lambda_update_actor.calculate_gae_foward
                   discount lamb H expectile) Robs Ra keys)
      as (fo' & Efo' & Hfo); try assumption.
    { intros o a k Ha. apply lambda_foward_example; try assumption.
      exact (proj1 (Forall_forall _ _) HRal a Ha). }
    rewrite Efo in Efo'. injection Efo' as <-.
    unfold DPG_lambda_update_actor.actor_loss_fn in E. cbv zeta in E.
    apply bind_Ok in E as (x1 & _ & E). apply bind_Ok in E as (x2 & _ & E).
    apply bind_Ok in E as (x3 & _ & E). apply bind_Ok in E as (x4 & _ & E).
    apply bind_Ok in E as (mm & _ & E). apply bind_Ok in E as (std & _ & E).
    apply bind_Ok in E as (am & Eam & E).
    apply bind_Ok in E as (amean & Eamean & E).
    apply bind_Ok in E as (mm' & Emm' & E).
    apply bind_Ok in E as (adv & Eadv & E).
    apply bind_Ok in E as (ab & _ & E). injection E as _ <-.
    cbn [DPG_lambda_update_actor.info_adv_weights].
    exact (adv_weights_quotient_between H _ A expectile lo hi fo am amean
             mm' adv Hfo Hlo1 Hhi1 Hlo2 Hhi2 Eam Eamean Emm' Eadv).
  - intros fo loss info Efo E.
    destruct (vmap_foward_examples H A expectile
                (DPG_multistep_update_actor.calculate_gae_foward
                   discount H expectile) Robs Ra keys)
      as (fo' & Efo' & Hfo); try assumption.
    { intros o a k Ha. apply multistep_foward_example; try assumption.
      exact (proj1 (Forall_forall _ _) HRal a Ha). }
    rewrite Efo in Efo'. injection Efo' as <-.
    unfold DPG_multistep_update_actor.actor_loss_fn in E. cbv zeta in E.
    apply bind_Ok in E as (x1 & _ & E). apply bind_Ok in E as (x2 & _ & E).
    apply bind_Ok in E as (x3 & _ & E). apply bind_Ok in E as (x4 & _ & E).
    apply bind_Ok in E as (mm & _ & E). apply bind_Ok in E as (std & _ & E).
    apply bind_Ok in E as (am & Eam & E).
    apply bind_Ok in E as (amean & Eamean & E).
    apply bind_Ok in E as (mm' & Emm' & E).
    apply bind_Ok in E as (adv & Eadv & E).
    apply bind_Ok in E as (ab & _ & E). injection E as _ <-.
    cbn [DPG_multistep_update_actor.info_adv_weights].
    exact (adv_weights_quotient_between H _ A expectile lo hi fo am amean
             mm' adv Hfo Hlo1 Hhi1 Hlo2 Hhi2 Eam Eamean Emm' Eadv).
Qed.
End LossTheorems.

Lemma toy_policy_shaped (term : Qc) (H B : nat) :
  @policy_shaped (toy term) (toy_policy term) H B 1 tt.
Proof.
  intros st Lst Rst. cbn [actor_apply get_deter_batch policy_scale
                            toy_policy fst snd].
  split; (split; [rewrite length_map; exact Lst|]);
    apply Forall_map; (eapply Forall_impl; [|exact Rst]);
    intros row Hrow; (split; [rewrite length_map; exact Hrow|]);
    apply Forall_map, Forall_forall; intros s _; reflexivity.
Qed.

Lemma actor_loss_fn_returns_on_foward_pass_witness :
  (forall k s a,
     0 <= terminal_of (@model (toy half) k s a) /\
     terminal_of (@model (toy half) k s a) <= 1) /\
  0 <= half /\
  Forall (fun a : list Qc => length a = 1%nat) [[1]; [1]] /\
  (forall s, length (@get_deter (toy half) (actor s)) = 1%nat) /\
  rect3 2 1 [[[1]; [1]]; [[1]; [1]]] /\
  @policy_shaped (toy half) (toy_policy half) 1 2 1 tt /\
  (exists fo loss info,
     vmap_foward 1
       (@DPG_lambda_update_actor.calculate_gae_foward (toy half)
          1 half 1 half) [1; 1 + 1] [[1]; [1]] [0%nat; 1%nat] = Ok fo /\
     @DPG_lambda_update_actor.actor_loss_fn (toy half) (toy_policy half)
       half fo [[[1]; [1]]; [[1]; [1]]] tt = Ok (loss, info)) /\
  (exists fo loss info,
     vmap_foward 1
       (@DPG_multistep_update_actor.calculate_gae_foward (toy half)
          1 1 half) [1; 1 + 1] [[1]; [1]] [0%nat; 1%nat] = Ok fo /\
     @DPG_multistep_update_actor.actor_loss_fn (toy half) (toy_policy half)
       fo [[[1]; [1]]; [[1]; [1]]] tt = Ok (loss, info)).
Proof.
  assert (Hterm : forall k s a,
             0 <= terminal_of (@model (toy half) k s a) /\
             terminal_of (@model (toy half) k s a) <= 1).
  { intros k s a. cbn [terminal_of model toy]. split; qc_to_q; lra. }
  assert (Hl : 0 <= half) by (qc_to_q; lra).
  assert (HRa : Forall (fun a : list Qc => length a = 1%nat) [[1]; [1]])
    by (repeat constructor).
  assert (Hact : forall s, length (@get_deter (toy half) (actor s)) = 1%nat)
    by reflexivity.
  assert (Hg : rect3 2 1 [[[1]; [1]]; [[1]; [1]]]) by (repeat constructor).
  pose proof (toy_policy_shaped half 1 2) as Hpol.
  split; [exact Hterm|]. split; [exact Hl|]. split; [exact HRa|].
  split; [exact Hact|]. split; [exact Hg|]. split; [exact Hpol|].
  apply (@actor_loss_fn_returns_on_foward_pass (toy half) (toy_policy half)
           1 half 1 1 half [1; 1 + 1] [[1]; [1]] [0%nat; 1%nat]
           [[[1]; [1]]; [[1]; [1]]] tt Hterm Hl
           (Nat.lt_0_succ 1) eq_refl eq_refl (Nat.lt_0_succ 0) HRa Hact
           eq_refl Hg Hpol).
Defined.

Lemma adv_weights_info_between_witness :
  (forall k s a,
     0 <= terminal_of (@model (toy half) k s a) /\
     terminal_of (@model (toy half) k s a) <= 1) /\
  0 <= half /\
  Forall (fun a : list Qc => length a = 1%nat) [[1]; [1]] /\
  (forall s, length (@get_deter (toy half) (actor s)) = 1%nat) /\
  (half * half <= half * half /\ half * half <= 1 - half * half /\
   half * half <= 1 - half * half /\
   1 - half * half <= 1 - half * half) /\
  exists fo loss info,
    vmap_foward 1
      (@DPG_lambda_update_actor.calculate_gae_foward (toy half)
         1 half 1 (half * half)) [1; 1 + 1] [[1]; [1]] [0%nat; 1%nat]
    = Ok fo /\
    @DPG_lambda_update_actor.actor_loss_fn (toy half) (toy_policy half)
      half fo [[[1]; [1]]; [[1]; [1]]] tt = Ok (loss, info) /\
    half * half <= DPG_lambda_update_actor.info_adv_weights info /\
    DPG_lambda_update_actor.info_adv_weights info <= 1 - half * half.
Proof.
  assert (Hterm : forall k s a,
             0 <= terminal_of (@model (toy half) k s a) /\
             terminal_of (@model (toy half) k s a) <= 1).
  { intros k s a. cbn [terminal_of model toy]. split; qc_to_q; lra. }
  assert (Hl : 0 <= half) by (qc_to_q; lra).
  assert (HRa : Forall (fun a : list Qc => length a = 1%nat) [[1]; [1]])
    by (repeat constructor).
  assert (Hact : forall s, length (@get_deter (toy half) (actor s)) = 1%nat)
    by reflexivity.
  assert (H1 : half * half <= half * half) by apply Qcle_refl.
  assert (H2 : half * half <= 1 - half * half) by (qc_to_q; lra).
  assert (H3 : 1 - half * half <= 1 - half * half) by apply Qcle_refl.
  split; [exact Hterm|]. split; [exact Hl|]. split; [exact HRa|].
  split; [exact Hact|]. split; [repeat split; assumption|].
  destruct (@vmap_foward_examples (toy half) 1 1 (half * half)
              (@DPG_lambda_update_actor.calculate_gae_foward (toy half)
                 1 half 1 (half * half))
              [1; 1 + 1] [[1]; [1]] [0%nat; 1%nat])
    as (fo & Efo & Hfo);
    [ intros o a k Ha; apply lambda_foward_example;
      [exact Hl | exact Hterm
       | exact (proj1 (Forall_forall _ _) HRa a Ha) | exact Hact]
    | simpl; lia | reflexivity | reflexivity | ].
  destruct (@lambda_actor_loss_fn_Ok (toy half) (toy_policy half) half
              1 2 1 (half * half) fo [[[1]; [1]]; [[1]; [1]]] tt
              (Nat.lt_0_succ 1) (Nat.lt_0_succ 0) Hfo
              (toy_policy_shaped half 1 2) eq_refl
              ltac:(repeat constructor)) as (loss & info & E).
  exists fo, loss, info. split; [exact Efo|]. split; [exact E|].
  exact (proj1 (@adv_weights_info_between (toy half) (toy_policy half)
                  1 half 1 1 (half * half) (half * half)
                  (1 - half * half) [1; 1 + 1] [[1]; [1]] [0%nat; 1%nat]
                  [[[1]; [1]]; [[1]; [1]]] tt Hterm Hl
                  (Nat.lt_0_succ 1) eq_refl eq_refl HRa Hact H1 H2 H2 H3)
           fo loss info Efo E).
Defined.

(** ** The one-step rule *)

Lemma for__sim {S T : Type} (R : S -> T -> Prop) (f : nat -> S -> res S)
  (g : nat -> T -> res T) (r : list nat) :
  (forall i s t t', R s t -> g i t = Ok t' ->
     exists s', f i s = Ok s' /\ R s' t') ->
  forall s t t', R s t -> for_ r g t = Ok t' ->
    exists s', for_ r f s = Ok s' /\ R s' t'.
Proof.
  intros Hstep. induction r as [|i r IH]; intros s t t' HR E.
  - simpl in E. injection E as <-. exists s. split; [reflexivity|exact HR].
  - simpl in E. apply bind_Ok in E as (t1 & Et1 & E).
    destruct (Hstep i s t t1 HR Et1) as (s1 & Es1 & HR1).
    destruct (IH s1 t1 t' HR1 E) as (s' & Es' & HR').
    exists s'. split; [|exact HR']. simpl. rewrite Es1. exact Es'.
Qed.

Section OnestepRollout.
Context {C : Collaborators}.

Lemma onestep_step_sim (i : nat) (l1 : onestep_update_actor.lists)
  (l l' : lists) :
  same_trajectory l1 l -> foward_step i l = Ok l' ->
  exists l1',
    onestep_update_actor.foward_step i l1 = Ok l1' /\
    same_trajectory l1' l'.
Proof.
  intros (Hs & Hr & Ha & Hk & Hm) E.
  unfold foward_step in E. unfold onestep_update_actor.foward_step.
  rewrite Hk, Hs, Ha.
  apply bind_Ok in E as (k & Ek & E). rewrite Ek. cbn [bind].
  destruct (split4 k) as [[[rng1 rng2] rng3] key0].
  apply bind_Ok in E as (s & Es & E). rewrite Es. cbn [bind].
  apply bind_Ok in E as (a & Ea & E). rewrite Ea. cbn [bind].
  destruct (model rng1 s a) as [[[s_next rew] terminal] aux].
  apply bind_Ok in E as (m & _ & E). injection E as <-.
  eexists. split; [reflexivity|].
  unfold same_trajectory.
  cbn [onestep_update_actor.states onestep_update_actor.rewards
       onestep_update_actor.actions onestep_update_actor.keys
       onestep_update_actor.mask_weights states rewards actions keys].
  rewrite Hr. repeat split. exact Hm.
Qed.

Lemma onestep_foward_parts (H : nat) (Robs : State) (Ra : Action)
  (key0 : PRNGKey) :
  exists l,
    imagine_foward H Robs Ra key0 = Ok l /\
    unrolled next_action_foward Robs Ra key0 H l /\
    onestep_update_actor.calculate_gae_foward H Robs Ra key0
    = Ok (states l, actions l, [1]).
Proof.
  destruct (imagine_foward_unrolled H Robs Ra key0) as (l & El & Hun).
  exists l. split; [exact El|]. split; [exact Hun|].
  unfold imagine_foward in El.
  destruct (for__sim same_trajectory onestep_update_actor.foward_step
              foward_step (range H) onestep_step_sim
              (onestep_update_actor.foward_init Robs Ra key0)
              (foward_init Robs Ra key0) l)
    as (l1 & El1 & (Hs & _ & Ha & _ & Hm)).
  - repeat split.
  - exact El.
  - unfold onestep_update_actor.calculate_gae_foward.
    rewrite El1. cbn [bind]. rewrite Hs, Ha, Hm. reflexivity.
Qed.

(** X13.  The one-step rule imagines the trajectory of the DPG rules and
    never masks it: its forward pass returns the states and actions of
    the rollout of [DPG_lambda_update_actor] from the same start, and an
    alive-mask that is [[1.0]] whatever terminal flags the model
    returned. *)
Theorem onestep_rollout_is_the_dpg_rollout (H : nat) (Robs : State)
  (Ra : Action) (key0 : PRNGKey) :
  exists l,
    imagine_foward H Robs Ra key0 = Ok l /\
    length (states l) = S H /\ length (actions l) = S H /\
    onestep_update_actor.calculate_gae_foward H Robs Ra key0
    = Ok (states l, actions l, [1]).
Proof.
  destruct (onestep_foward_parts H Robs Ra key0) as (l & El & Hun & E).
  exists l. split; [exact El|].
  split; [exact (shaped_states (unrolled_shaped Hun))|].
  split; [exact (shaped_actions (unrolled_shaped Hun)) | exact E].
Qed.
End OnestepRollout.

Lemma zip_with_ones_l (B : nat) (v : list Qc) :
  length v = B -> zip_with Qcmult (repeat 1 B) v = v.
Proof.
  revert B. induction v as [|x v IH]; intros [|B] Hlen; try discriminate.
  - reflexivity.
  - unfold zip_with in *. simpl. rewrite Qcmult_1_l. f_equal.
    apply IH. simpl in Hlen. lia.
Qed.

Lemma mul1_ones (B : nat) (v : list Qc) :
  length v = B -> mul1 (repeat 1 B) v = Ok v.
Proof.
  intros Hlen. rewrite mul1_same by (rewrite repeat_length; congruence).
  rewrite (zip_with_ones_l B v Hlen). reflexivity.
Qed.

Lemma mapM_id {A : Type} (f : A -> res A) (l : list A) :
  (forall x, In x l -> f x = Ok x) -> mapM f l = Ok l.
Proof.
  intros Hf. rewrite (mapM_Ok_map f (fun x => x) l Hf), map_id.
  reflexivity.
Qed.

Lemma mul2_ones_row (B : nat) (V : tensor2) :
  rect2 B V -> mul2 [repeat 1 B] V = Ok V.
Proof.
  intros HV.
  assert (Hrow : forall v, In v V -> mul1 (repeat 1 B) v = Ok v).
  { intros v Hv. apply mul1_ones.
    exact (proj1 (Forall_forall _ _) HV v Hv). }
  unfold mul2, broadcast.
  destruct (length [repeat 1 B] =? length V) eqn:E.
  - destruct V as [|v [|v' V]]; simpl in E; try discriminate.
    simpl. rewrite (Hrow v (or_introl eq_refl)). reflexivity.
  - apply mapM_id. exact Hrow.
Qed.

Lemma scale_rows_one (B : nat) (m : tensor2) :
  length m = B ->
  zip_with (fun g w => map (fun a => a * w) g) m (repeat 1 B) = m.
Proof.
  revert B. induction m as [|g m IH]; intros [|B] Hlen; try discriminate.
  - reflexivity.
  - unfold zip_with in *. simpl. f_equal.
    + rewrite <- (map_id g) at 2. apply map_ext. intros a.
      apply Qcmult_1_r.
    + apply IH. simpl in Hlen. lia.
Qed.

Lemma mul3_ones_row (B : nat) (p : tensor3) :
  Forall (fun m => length m = B) p ->
  mul3 p (expand_last [repeat 1 B]) = Ok p.
Proof.
  intros Hp.
  assert (Hm : forall m, In m p ->
            mul2 m (map (fun x => [x]) (repeat 1 B)) = Ok m).
  { intros m Hin. rewrite mul2_expand_r.
    - rewrite scale_rows_one; [reflexivity|].
      exact (proj1 (Forall_forall _ _) Hp m Hin).
    - rewrite repeat_length.
      exact (proj1 (Forall_forall _ _) Hp m Hin). }
  unfold mul3, expand_last, broadcast. cbn [map].
  destruct (length p =? length [map (fun x => [x]) (repeat 1 B)]) eqn:E.
  - destruct p as [|m [|m' p]]; simpl in E; try discriminate.
    simpl. rewrite (Hm m (or_introl eq_refl)). reflexivity.
  - destruct p as [|m [|m' p]]; simpl in E; try discriminate.
    + reflexivity.
    + apply mapM_id. exact Hm.
Qed.

Lemma sum1_repeat_one (B : nat) : sum1 (repeat 1 B) = Qc_of_nat B.
Proof.
  induction B as [|B IH]; [reflexivity|].
  rewrite Qc_of_nat_S. simpl. rewrite IH. reflexivity.
Qed.

Lemma mean2_ones_row (B : nat) :
  (0 < B)%nat -> mean2 [repeat 1 B] = Ok 1.
Proof.
  intros HB. unfold mean2, sum2, size2. simpl.
  rewrite sum1_repeat_one, repeat_length, Nat.add_0_r, Qcplus_0_r.
  pose proof (Qc_of_nat_neq0 B HB) as Hnz.
  rewrite (jdiv_Ok _ _ Hnz). f_equal. field. exact Hnz.
Qed.

Lemma stack_ones (masks : list (list Qc)) :
  Forall (fun o => o = [1]) masks ->
  stack_axis1 1 masks = [repeat 1 (length masks)].
Proof.
  intros Hall. unfold stack_axis1. simpl. f_equal.
  induction Hall as [|o masks Ho _ IH]; [reflexivity|].
  simpl. rewrite Ho, IH. reflexivity.
Qed.

Lemma jdiv_one (x : Qc) : jdiv x 1 = Ok x.
Proof.
  rewrite jdiv_Ok by discriminate. f_equal. field. discriminate.
Qed.

Section OnestepLoss.
Context {C : Collaborators} {P : BatchPolicy C} {K : BatchCritic C}.

Lemma onestep_vmap_foward_mask (H : nat) (Robs : list State)
  (Ra : list Action) (keys : list PRNGKey) :
  length Ra = length Robs -> length keys = length Robs ->
  exists fo,
    onestep_update_actor.vmap_foward H
      (onestep_update_actor.calculate_gae_foward H) Robs Ra keys = Ok fo /\
    onestep_update_actor.mask_weights0 fo = [repeat 1 (length Robs)].
Proof.
  intros HRa Hkeys. unfold onestep_update_actor.vmap_foward.
  rewrite HRa, Hkeys, !Nat.eqb_refl. cbn [andb].
  destruct (mapM_Forall
              (fun x => onestep_update_actor.calculate_gae_foward H
                          (fst (fst x)) (snd (fst x)) (snd x))
              (fun out => snd out = [1])
              (combine (combine Robs Ra) keys))
    as (outs & Eouts & Hlen & Houts).
  { intros [[o a] k] _. cbn [fst snd].
    destruct (onestep_foward_parts H o a k) as (l & _ & _ & E).
    eexists. split; [exact E | reflexivity]. }
  rewrite Eouts. cbn [bind]. eexists. split; [reflexivity|].
  cbn [onestep_update_actor.mask_weights0].
  rewrite stack_ones by (apply Forall_map; exact Houts).
  rewrite length_map, Hlen, !length_combine, HRa, Hkeys, !Nat.min_id.
  reflexivity.
Qed.

(** X14.  The loss of the one-step rule is not masked.  The mapped forward
    pass returns an alive-mask of one row of ones, so whenever the loss
    function returns on critic values and policy scales whose batch axis
    has the batch's length, the loss is minus the plain mean of the
    critic's values over all steps and examples, steps after a terminal
    flag included, and the [policy_std] statistic is the plain mean of the
    policy's scale. *)
Theorem onestep_loss_is_unmasked (H : nat) (Robs : list State)
  (Ra : list Action) (keys : list PRNGKey) :
  (0 < length Robs)%nat -> length Ra = length Robs ->
  length keys = length Robs ->
  exists fo,
    onestep_update_actor.vmap_foward H
      (onestep_update_actor.calculate_gae_foward H) Robs Ra keys = Ok fo /\
    onestep_update_actor.mask_weights0 fo = [repeat 1 (length Robs)] /\
    forall actor_params loss info,
      let dist :=
        actor_apply actor_params (onestep_update_actor.states0 fo) in
      let values :=
        critic_batch (onestep_update_actor.states0 fo)
          (get_deter_batch dist) in
      onestep_update_actor.actor_loss_fn fo actor_params
      = Ok (loss, info) ->
      rect2 (length Robs) values ->
      Forall (fun m => length m = length Robs) (policy_scale dist) ->
      mean2 values = Ok (- loss) /\
      mean3 (policy_scale dist)
      = Ok (onestep_update_actor.info_policy_std info).
Proof.
  intros HB HRa Hkeys.
  destruct (onestep_vmap_foward_mask H Robs Ra keys HRa Hkeys)
    as (fo & Efo & Hmask).
  exists fo. split; [exact Efo|]. split; [exact Hmask|].
  intros actor_params loss info dist values E HV Hstd.
  unfold onestep_update_actor.actor_loss_fn in E. cbv zeta in E.
  fold dist in E. fold values in E. rewrite Hmask in E.
  rewrite (mul2_ones_row _ values HV) in E. cbn [bind] in E.
  apply bind_Ok in E as (mm & Emm & E).
  rewrite (mul3_ones_row _ _ Hstd) in E. cbn [bind] in E.
  apply bind_Ok in E as (std_mean & Estd & E).
  rewrite (mean2_ones_row _ HB) in E. cbn [bind] in E.
  rewrite jdiv_one in E. cbn [bind] in E.
  apply bind_Ok in E as (ab & _ & E). injection E as <- <-.
  cbn [onestep_update_actor.info_policy_std].
  rewrite Qcopp_involutive. split; assumption.
Qed.
End OnestepLoss.

Lemma onestep_loss_is_unmasked_witness :
  (0 < length [1; 1 + 1])%nat /\
  length [[1]; [1]] = length [1; 1 + 1] /\
  length [0%nat; 1%nat] = length [1; 1 + 1] /\
  exists fo loss info,
    @onestep_update_actor.vmap_foward (toy 1) 1
      (@onestep_update_actor.calculate_gae_foward (toy 1) 1)
      [1; 1 + 1] [[1]; [1]] [0%nat; 1%nat] = Ok fo /\
    onestep_update_actor.mask_weights0 fo = [repeat 1 2] /\
    @onestep_update_actor.actor_loss_fn (toy 1) (toy_policy 1)
      (toy_critic 1) fo tt = Ok (loss, info) /\
    mean2 (@critic_batch (toy 1) (toy_critic 1)
             (onestep_update_actor.states0 fo)
             (@get_deter_batch (toy 1) (toy_policy 1)
                (@actor_apply (toy 1) (toy_policy 1) tt
                   (onestep_update_actor.states0 fo))))
    = Ok (- loss) /\
    mean3 (@policy_scale (toy 1) (toy_policy 1)
             (@actor_apply (toy 1) (toy_policy 1) tt
                (onestep_update_actor.states0 fo)))
    = Ok (onestep_update_actor.info_policy_std info).
Proof.
  split; [simpl; lia|]. split; [reflexivity|]. split; [reflexivity|].
  destruct (@onestep_loss_is_unmasked (toy 1) (toy_policy 1) (toy_critic 1)
              1 [1; 1 + 1] [[1]; [1]] [0%nat; 1%nat]
              (Nat.lt_0_succ 1) eq_refl eq_refl)
    as (fo & Efo & Hmask & Hloss).
  pose proof Efo as Efo'. vm_compute in Efo'. injection Efo' as Hfo.
  assert (E : exists loss info,
             @onestep_update_actor.actor_loss_fn (toy 1) (toy_policy 1)
               (toy_critic 1) fo tt = Ok (loss, info)).
  { rewrite <- Hfo. eexists _, _. vm_compute. reflexivity. }
  destruct E as (loss & info & E).
  exists fo, loss, info. split; [exact Efo|]. split; [exact Hmask|].
  split; [exact E|].
  apply (Hloss tt loss info E).
  - rewrite <- Hfo. repeat constructor.
  - rewrite <- Hfo. repeat constructor.
Defined.

(** ** The behaviour-cloning loss *)

Lemma sub1_same (a b : list Qc) :
  length a = length b -> sub1 a b = Ok (zip_with Qcminus a b).
Proof.
  intros Hlen. apply broadcast_same_length; [exact Hlen | reflexivity].
Qed.

Lemma sub2_same (A : nat) (a b : tensor2) :
  length a = length b -> rect2 A a -> rect2 A b ->
  sub2 a b = Ok (zip_with (zip_with Qcminus) a b).
Proof.
  intros Hlen Ha Hb. apply broadcast_same_length; [exact Hlen|].
  intros x y Hx Hy. apply sub1_same.
  rewrite (proj1 (Forall_forall _ _) Ha x Hx).
  rewrite (proj1 (Forall_forall _ _) Hb y Hy). reflexivity.
Qed.

Lemma square_plus_zero (d r : Qc) :
  0 <= r -> d * d + r = 0 -> d = 0 /\ r = 0.
Proof.
  intros Hr E.
  assert (EQ : (this (d * d + r) == this 0)%Q) by (rewrite E; reflexivity).
  clear E. qc_to_q.
  assert (Hsq : (d * d == 0)%Q) by nra.
  split; apply Qc_is_canon.
  - destruct (Qmult_integral _ _ Hsq) as [Hd | Hd]; exact Hd.
  - simpl. lra.
Qed.

Lemma square_plus_nonneg (x y r : Qc) :
  0 <= r ->
  0 <= (x - y) * (x - y) + r /\
  ((x - y) * (x - y) + r = 0 <-> x = y /\ r = 0).
Proof.
  intros Hr. split; [|split].
  - generalize (x - y). intros d. qc_to_q. nra.
  - intros E. destruct (square_plus_zero _ _ Hr E) as [Hd ->].
    split; [|reflexivity].
    replace x with (x - y + y) by ring. rewrite Hd. ring.
  - intros [-> ->]. ring.
Qed.

Lemma sum1_squares (a b : list Qc) :
  length a = length b ->
  0 <= sum1 (map (fun x => x * x) (zip_with Qcminus a b)) /\
  (sum1 (map (fun x => x * x) (zip_with Qcminus a b)) = 0 <-> a = b).
Proof.
  revert b. induction a as [|x a IH]; intros [|y b] Hlen; try discriminate.
  - split; [apply Qcle_refl|]. split; reflexivity.
  - destruct (IH b ltac:(simpl in Hlen; lia)) as [Hnn Hz].
    change (sum1 (map (fun x => x * x) (zip_with Qcminus (x :: a) (y :: b))))
      with ((x - y) * (x - y)
            + sum1 (map (fun x => x * x) (zip_with Qcminus a b))).
    destruct (square_plus_nonneg x y _ Hnn) as [Hnn' Hz'].
    split; [exact Hnn'|]. split.
    + intros E. apply Hz' in E as [-> E]. apply Hz in E. congruence.
    + intros E. injection E as -> ->. apply Hz'. split; [reflexivity|].
      apply Hz. reflexivity.
Qed.

Lemma sum_plus_nonneg (s r : Qc) :
  0 <= s -> 0 <= r -> 0 <= s + r /\ (s + r = 0 <-> s = 0 /\ r = 0).
Proof.
  intros Hs Hr. split; [|split].
  - qc_to_q. lra.
  - intros E.
    assert (EQ : (this (s + r) == this 0)%Q) by (rewrite E; reflexivity).
    clear E. split; apply Qc_is_canon; qc_to_q; lra.
  - intros [-> ->]. ring.
Qed.

Lemma sum2_squares (A : nat) (a b : tensor2) :
  length a = length b -> rect2 A a -> rect2 A b ->
  0 <= sum2 (square2 (zip_with (zip_with Qcminus) a b)) /\
  (sum2 (square2 (zip_with (zip_with Qcminus) a b)) = 0 <-> a = b).
Proof.
  revert b. induction a as [|x a IH]; intros [|y b] Hlen Ra Rb;
    try discriminate.
  - split; [apply Qcle_refl|]. split; reflexivity.
  - inversion Ra as [|? ? Lx Ra']; subst.
    inversion Rb as [|? ? Ly Rb']; subst.
    destruct (IH b ltac:(simpl in Hlen; lia) Ra' Rb') as [Hnn Hz].
    destruct (sum1_squares x y ltac:(congruence)) as [Hnn1 Hz1].
    change (sum2 (square2 (zip_with (zip_with Qcminus) (x :: a) (y :: b))))
      with (sum1 (map (fun x => x * x) (zip_with Qcminus x y))
            + sum2 (square2 (zip_with (zip_with Qcminus) a b))).
    destruct (sum_plus_nonneg _ _ Hnn1 Hnn) as [Hnn' Hz'].
    split; [exact Hnn'|]. split.
    + intros E. apply Hz' in E as [E1 E2].
      apply Hz1 in E1. apply Hz in E2. congruence.
    + intros E. injection E as -> ->. apply Hz'. split.
      * apply Hz1. reflexivity.
      * apply Hz. reflexivity.
Qed.

Lemma size2_square2 (m : tensor2) : size2 (square2 m) = size2 m.
Proof.
  unfold square2. induction m as [|r m IH]; simpl; [reflexivity|].
  rewrite IH, length_map. reflexivity.
Qed.

Lemma quotient_nonneg (s n : Qc) :
  0 < n -> 0 <= s -> 0 <= s / n /\ (s / n = 0 <-> s = 0).
Proof.
  intros Hn Hs.
  assert (Hnz : n <> 0).
  { intros E. rewrite E in Hn. revert Hn. qc_to_q. lra. }
  assert (E : s / n * n = s) by (field; exact Hnz).
  split; [|split].
  - revert E. generalize (s / n). intros x E.
    assert (EQ : (this (x * n) == this s)%Q) by (rewrite E; reflexivity).
    clear E Hnz. qc_to_q. nra.
  - intros Ez. rewrite Ez in E. rewrite <- E. ring.
  - intros ->. field. exact Hnz.
Qed.

Section BehaviourCloning.
Context {P : update_actor_bc.BCPolicy}.

(** X15.  The behaviour-cloning loss on a batch of [N >= 1] examples with
    actions of [A >= 1] components, when the policy returns an array of
    the same shape: the loss function returns, the loss is not negative,
    and it is zero exactly when the policy's deterministic actions are the
    actions of the batch. *)
Theorem bc_loss_zero_iff_actions_match (batch : update_actor_bc.Batch)
  (actor_params : update_actor_bc.Params) (N A : nat) :
  let a :=
    update_actor_bc.get_deter
      (update_actor_bc.actor_apply actor_params
         (update_actor_bc.observations batch)) in
  (0 < N)%nat -> (0 < A)%nat ->
  length a = N -> rect2 A a ->
  length (update_actor_bc.actions batch) = N ->
  rect2 A (update_actor_bc.actions batch) ->
  exists loss,
    update_actor_bc.actor_loss_fn batch actor_params
    = Ok (loss, {| update_actor_bc.info_actor_loss := loss |}) /\
    0 <= loss /\
    (loss = 0 <-> a = update_actor_bc.actions batch).
Proof.
  intros a HN HA La Ra Lb Rb.
  unfold update_actor_bc.actor_loss_fn. cbv zeta. fold a.
  rewrite (sub2_same A) by (congruence || assumption). cbn [bind].
  set (d := zip_with (zip_with Qcminus) a (update_actor_bc.actions batch)).
  assert (Hsize : size2 (square2 d) = (N * A)%nat).
  { rewrite size2_square2. unfold d.
    rewrite (size2_rect A).
    - rewrite length_zip_with; congruence.
    - apply Forall_zip_with. intros x y Hx Hy. rewrite length_zip_with.
      + exact (proj1 (Forall_forall _ _) Ra x Hx).
      + rewrite (proj1 (Forall_forall _ _) Ra x Hx).
        rewrite (proj1 (Forall_forall _ _) Rb y Hy). reflexivity. }
  rewrite mean2_Ok by (rewrite Hsize; nia). cbn [bind].
  eexists. split; [reflexivity|]. rewrite Hsize.
  destruct (sum2_squares A a (update_actor_bc.actions batch)
              ltac:(congruence) Ra Rb) as [Hnn Hz].
  fold d in Hnn, Hz.
  destruct (quotient_nonneg (sum2 (square2 d)) (Qc_of_nat (N * A))
              (Qc_of_nat_pos (N * A) ltac:(nia)) Hnn) as [Hq Hqz].
  split; [exact Hq|]. rewrite Hqz. exact Hz.
Qed.
End BehaviourCloning.

Lemma bc_loss_zero_iff_actions_match_witness :
  let batch :=
    {| update_actor_bc.observations :=
         ([[1; half]; [0; 1]] : @update_actor_bc.Observations
                                  update_actor_bc.toy_bc);
       update_actor_bc.actions := [[1; half]; [0; 1]] |} in
  let a :=
    @update_actor_bc.get_deter update_actor_bc.toy_bc
      (@update_actor_bc.actor_apply update_actor_bc.toy_bc 1
         (update_actor_bc.observations batch)) in
  ((0 < 2)%nat /\ length a = 2%nat /\ rect2 2 a /\
   length (update_actor_bc.actions batch) = 2%nat /\
   rect2 2 (update_actor_bc.actions batch)) /\
  exists loss,
    @update_actor_bc.actor_loss_fn update_actor_bc.toy_bc batch 1
    = Ok (loss, {| update_actor_bc.info_actor_loss := loss |}) /\
    0 <= loss /\
    (loss = 0 <-> a = update_actor_bc.actions batch).
Proof.
  cbv zeta.
  set (batch := {| update_actor_bc.observations :=
                     ([[1; half]; [0; 1]]
                      : @update_actor_bc.Observations
                          update_actor_bc.toy_bc);
                   update_actor_bc.actions := [[1; half]; [0; 1]] |}).
  assert (Ra : rect2 2
                 (@update_actor_bc.get_deter update_actor_bc.toy_bc
                    (@update_actor_bc.actor_apply update_actor_bc.toy_bc 1
                       (update_actor_bc.observations batch))))
    by (repeat constructor).
  assert (Rb : rect2 2 (update_actor_bc.actions batch))
    by (repeat constructor).
  split; [repeat split; auto|].
  apply (@bc_loss_zero_iff_actions_match update_actor_bc.toy_bc batch 1
           2 2 (Nat.lt_0_succ 1) (Nat.lt_0_succ 1) eq_refl Ra eq_refl Rb).
Defined.

(** ** The temperature loss *)

Lemma sum1_affine (c t : Qc) (l : list Qc) :
  sum1 (map (fun x => c * x) (map (fun x => x + t) l))
  = c * (sum1 l + Qc_of_nat (length l) * t).
Proof.
  induction l as [|x l IH].
  - simpl. change (Qc_of_nat 0) with 0. ring.
  - cbn [map length]. rewrite Qc_of_nat_S.
    change (sum1 (c * (x + t)
                  :: map (fun x => c * x) (map (fun x => x + t) l)))
      with (c * (x + t)
            + sum1 (map (fun x => c * x) (map (fun x => x + t) l))).
    change (sum1 (x :: l)) with (x + sum1 l).
    rewrite IH. ring.
Qed.

Section Temperature.
Context {T : update_alpha.Temperature}.

(** X16.  The temperature loss is linear in [log_alpha]: on a non-empty
    array of log-probabilities it is
    [-log_alpha * (mean(log_probs) + target_entropy)], and the info
    dictionary holds it and the exponential of [log_alpha]; on an empty
    array the mean divides by zero. *)
Theorem alpha_loss_is_linear_in_log_alpha (log_probs : list Qc)
  (target_entropy : Qc) (alpha_params : update_alpha.Params) :
  (log_probs = [] ->
   update_alpha.alpha_loss_fn log_probs target_entropy alpha_params
   = Err NonFinite) /\
  (log_probs <> [] ->
   exists mean_log_prob,
     mean1 log_probs = Ok mean_log_prob /\
     let log_alpha := update_alpha.sac_alpha_apply alpha_params in
     let alpha_loss := - (log_alpha * (mean_log_prob + target_entropy)) in
     update_alpha.alpha_loss_fn log_probs target_entropy alpha_params
     = Ok (alpha_loss,
           {| update_alpha.info_alpha_loss := alpha_loss;
              update_alpha.info_alpha := update_alpha.jnp_exp log_alpha |})).
Proof.
  split.
  - intros ->. reflexivity.
  - intros Hne.
    assert (Hlen : (0 < length log_probs)%nat).
    { destruct log_probs; [contradiction | simpl; lia]. }
    pose proof (Qc_of_nat_neq0 _ Hlen) as Hnz.
    exists (sum1 log_probs / Qc_of_nat (length log_probs)).
    split; [apply jdiv_Ok; exact Hnz|]. cbv zeta.
    unfold update_alpha.alpha_loss_fn, mean1. cbv zeta.
    rewrite sum1_affine, !length_map, (jdiv_Ok _ _ Hnz). cbn [bind].
    assert (E : update_alpha.sac_alpha_apply alpha_params
                * (sum1 log_probs
                   + Qc_of_nat (length log_probs) * target_entropy)
                / Qc_of_nat (length log_probs)
                = update_alpha.sac_alpha_apply alpha_params
                  * (sum1 log_probs / Qc_of_nat (length log_probs)
                     + target_entropy))
      by (field; exact Hnz).
    rewrite E. reflexivity.
Qed.
End Temperature.

Lemma alpha_loss_is_linear_in_log_alpha_witness :
  [1; half] <> [] /\
  exists mean_log_prob,
    mean1 [1; half] = Ok mean_log_prob /\
    @update_alpha.alpha_loss_fn update_alpha.toy_temperature
      [1; half] half (1 + 1)
    = Ok (- ((1 + 1) * (mean_log_prob + half)),
          {| update_alpha.info_alpha_loss :=
               - ((1 + 1) * (mean_log_prob + half));
             update_alpha.info_alpha :=
               @update_alpha.jnp_exp update_alpha.toy_temperature
                 (1 + 1) |}).
Proof.
  assert (Hne : [1; half] <> ([] : list Qc)) by discriminate.
  split; [exact Hne|].
  apply (proj2 (@alpha_loss_is_linear_in_log_alpha
                  update_alpha.toy_temperature [1; half] half (1 + 1))
           Hne).
Defined.

(** ** The lambda return as a mixture of n-step returns *)

Lemma sum1_cons (x : Qc) (v : list Qc) : sum1 (x :: v) = x + sum1 v.
Proof. reflexivity. Qed.

Lemma sum1_shift (f : nat -> Qc) (k : nat) :
  sum1 (map f (seq 0 (S k)))
  = f 0%nat + sum1 (map (fun n => f (S n)) (seq 0 k)).
Proof.
  rewrite <- cons_seq, map_cons, sum1_cons, <- seq_shift, map_map.
  reflexivity.
Qed.

Lemma sum1_mixture_linear (lamb a b : Qc) (g : nat -> Qc) (L : list nat) :
  sum1 (map (fun n => lamb ^ S n * (a + b * g n)) L)
  = lamb * (a * sum1 (map (fun n => lamb ^ n) L)
            + b * sum1 (map (fun n => lamb ^ n * g n) L)).
Proof.
  induction L as [|n L IH].
  - simpl. ring.
  - rewrite !map_cons, !sum1_cons, IH.
    change (lamb ^ S n) with (lamb * lamb ^ n). ring.
Qed.

Lemma lamb_weight_is_power_sum (lamb : Qc) (k : nat) :
  lamb_weight_after lamb k = sum1 (map (fun n => lamb ^ n) (seq 0 (S k))).
Proof.
  induction k as [|k IH].
  - simpl. ring.
  - rewrite sum1_shift.
    change (lamb_weight_after lamb (S k))
      with (1 + lamb * lamb_weight_after lamb k).
    rewrite IH. change (lamb ^ 0) with 1. f_equal.
    generalize (seq 0 (S k)). intros L.
    induction L as [|n L IHL]; [simpl; ring|].
    rewrite !map_cons, !sum1_cons, <- IHL.
    change (lamb ^ S n) with (lamb * lamb ^ n). ring.
Qed.

Section MixtureFacts.
Context {C : Collaborators}.

Lemma lambda_mixture_step (discount lamb : Qc) (l : lists) (k i : nat) :
  lambda_mixture discount lamb l (S k) i
  = nth i (q_values l) 0
    + lamb * (lamb_weight_after lamb k
              * (nth i (mask_weights l) 0 * nth i (rewards l) 0)
              + nth (i + 1) (mask_weights l) 0 * discount
                * lambda_mixture discount lamb l k (i + 1)).
Proof.
  unfold lambda_mixture. rewrite sum1_shift.
  change (lamb ^ 0 * nstep_return discount l 0 i)
    with (1 * nth i (q_values l) 0).
  rewrite Qcmult_1_l. f_equal.
  rewrite lamb_weight_is_power_sum.
  etransitivity;
    [exact (sum1_mixture_linear lamb
              (nth i (mask_weights l) 0 * nth i (rewards l) 0)
              (nth (i + 1) (mask_weights l) 0 * discount)
              (fun n => nstep_return discount l n (i + 1))
              (seq 0 (S k)))|].
  unfold lambda_mixture. ring.
Qed.

Lemma lambda_return_mixture (discount lamb : Qc) (H : nat) (l : lists)
  (q : list Qc) :
  0 <= lamb -> is_lambda_return discount lamb H l q ->
  forall k i, (i + k = H)%nat ->
    nth i q 0 * lamb_weight_after lamb k
    = lambda_mixture discount lamb l k i.
Proof.
  intros Hl (_ & Hlast & Hrec). induction k as [|k IH]; intros i Hik.
  - replace i with H by lia. rewrite Hlast.
    unfold lambda_mixture. simpl. ring.
  - pose proof (Hrec i ltac:(lia)) as Hq. cbv zeta in Hq.
    replace (H - 1 - i)%nat with k in Hq by lia.
    rewrite lambda_mixture_step, <- (IH (i + 1)%nat ltac:(lia)).
    change (lamb_weight_after lamb (S k))
      with (1 + lamb * lamb_weight_after lamb k).
    pose proof (Qc_ge1_neq0 _
                  (divisor_ge1 lamb _ Hl (lamb_weight_after_ge1 lamb k Hl)))
      as Hnz.
    rewrite Hq. field. exact Hnz.
Qed.

Lemma multistep_return_nstep (discount : Qc) (H : nat) (l : lists)
  (q : list Qc) :
  is_multistep_return discount H l q ->
  forall k i, (i + k = H)%nat ->
    nth i q 0 = nstep_return discount l k i.
Proof.
  intros (_ & Hlast & Hrec). induction k as [|k IH]; intros i Hik.
  - replace i with H by lia. exact Hlast.
  - rewrite (Hrec i ltac:(lia)), (IH (i + 1)%nat ltac:(lia)). reflexivity.
Qed.

(** X17.  The lambda return is the mixture of the n-step returns.  On the
    rollout that both rules imagine, and for a non-negative [lamb], the
    lambda return of step [i] is the average of the [0]-step to
    [(H - i)]-step returns from step [i], the [n]-step return weighted by
    [lamb ^ n]: multiplied by [1 + lamb + ... + lamb ^ (H - i)] it is
    their weighted sum.  The longest of these, the [(H - i)]-step return,
    is the return of the multi-step rule. *)
Theorem lambda_return_is_mixture_of_nstep_returns (discount lamb : Qc)
  (H : nat) (expectile : Qc) (Robs : State) (Ra : Action)
  (key0 : PRNGKey) :
  0 <= lamb ->
  exists l q_lambda ep_lambda q_multistep ep_multistep,
    imagine_foward H Robs Ra key0 = Ok l /\
    DPG_lambda_update_actor.calculate_gae_foward
      discount lamb H expectile Robs Ra key0
    = Ok (states l, actions l, mask_weights l, q_lambda, ep_lambda) /\
    DPG_multistep_update_actor.calculate_gae_foward
      discount H expectile Robs Ra key0
    = Ok (states l, actions l, mask_weights l, q_multistep, ep_multistep) /\
    forall i, (i <= H)%nat ->
      nth i q_lambda 0
      * sum1 (map (fun n => lamb ^ n) (seq 0 (S (H - i))))
      = sum1 (map (fun n => lamb ^ n * nstep_return discount l n i)
                (seq 0 (S (H - i)))) /\
      nth i q_multistep 0 = nstep_return discount l (H - i) i.
Proof.
  intros Hl.
  destruct (lambda_foward_parts discount lamb H expectile Robs Ra key0 Hl)
    as (l & q & ep & El & _ & _ & Hret & _ & Ecalc).
  destruct (multistep_foward_parts discount H expectile Robs Ra key0)
    as (l' & q' & ep' & El' & _ & _ & Hret' & _ & Ecalc').
  rewrite El in El'. injection El' as <-.
  exists l, q, ep, q', ep'. split; [exact El|]. split; [exact Ecalc|].
  split; [exact Ecalc'|]. intros i Hi. split.
  - rewrite <- lamb_weight_is_power_sum.
    exact (lambda_return_mixture discount lamb H l q Hl Hret (H - i) i
             ltac:(lia)).
  - exact (multistep_return_nstep discount H l q' Hret' (H - i) i
             ltac:(lia)).
Qed.
End MixtureFacts.

Lemma lambda_return_is_mixture_of_nstep_returns_witness :
  0 <= half /\
  exists l q_lambda ep_lambda q_multistep ep_multistep,
    @imagine_foward (toy half) 2 1 [1] 0%nat = Ok l /\
    @DPG_lambda_update_actor.calculate_gae_foward (toy half)
      half half 2 half 1 [1] 0%nat
    = Ok (states l, actions l, mask_weights l, q_lambda, ep_lambda) /\
    @DPG_multistep_update_actor.calculate_gae_foward (toy half)
      half 2 half 1 [1] 0%nat
    = Ok (states l, actions l, mask_weights l, q_multistep, ep_multistep) /\
    nth 0 q_lambda 0 * sum1 (map (fun n => half ^ n) (seq 0 3))
    = sum1 (map (fun n => half ^ n * nstep_return half l n 0) (seq 0 3)) /\
    nth 0 q_multistep 0 = nstep_return half l 2 0.
Proof.
  assert (Hl : 0 <= half) by (qc_to_q; lra).
  split; [exact Hl|].
  destruct (@lambda_return_is_mixture_of_nstep_returns (toy half)
              half half 2 half 1 [1] 0%nat Hl)
    as (l & q & ep & q' & ep' & El & Ecalc & Ecalc' & Hmix).
  exists l, q, ep, q', ep'. split; [exact El|]. split; [exact Ecalc|].
  split; [exact Ecalc'|]. exact (Hmix 0%nat ltac:(lia)).
Defined.
